(** * A shallow embedding of the CV graph visualizer

    Sources: [src/data.ts] (the CV tree) and [src/visualization.ts]
    (class [GraphVisualizer]).

    Conventions of the embedding.
    - A JavaScript [number] is an exact rational ([Q]); rounding of IEEE
      doubles is not represented, except in module [Double], which
      computes the geometry configuration in binary64.
      [clientWidth]/[clientHeight] are DOM integers ([Z]).
    - An optional field ([x?: number]) is an [option]; [undefined] is [None].
    - Objects that the program compares or mutates through references
      (CV items, simulation nodes) live in an explicit store and are named
      by a reference ([nat]).
    - [assert.fail()] is the fault [AssertionError] of an error monad. *)

From stdpp Require Import base option list strings gmap.
From Stdlib Require Import ZArith QArith Qminmax Qpower Qabs Lia Lra Lqa.
From Stdlib Require PrimFloat FloatOps SpecFloat.

Set Default Proof Using "Type".
Set Warnings "-register-all".
Local Close Scope Q_scope.
Local Open Scope string_scope.
Local Open Scope list_scope.

(** ** Faults *)

Inductive Fault := AssertionError.

(* ================================================================== *)
(** * Part I.  [data.ts]: the CV tree                                  *)
(* ================================================================== *)

Module Data.

Module CVInfo.
Record t := Build_t {
  picture : string;
  description : option string;
  relDistance : option Q;
  relSize : option Q
}.
End CVInfo.

Module CVItem.
Record t := Build_t {
  picture : string;
  description : option string;
  depth : nat;
  relDistance : Q;
  relSize : Q
}.
End CVItem.

(** [findItem] compares items with [===], that is by object identity:
    every item object is named by a reference. *)
Definition ItemRef := nat.

Inductive Tree := mkTree (ref : ItemRef) (item : CVItem.t) (children : list Tree).

Definition ref (t : Tree) : ItemRef := let 'mkTree r _ _ := t in r.
Definition item (t : Tree) : CVItem.t := let 'mkTree _ i _ := t in i.
Definition children (t : Tree) : list Tree := let 'mkTree _ _ c := t in c.

(** [const rootItem = {picture: ..., depth: 0, relSize: 1, relDistance: 1}] *)
Definition rootItem : ItemRef := 0%nat.
Definition rootItemValue : CVItem.t :=
  CVItem.Build_t "/static/images/profile.jpg" None 0 1%Q 1%Q.

(** The module state: the tree rooted at [rootItem], and the next unused
    object reference. *)
Record State := mkState { tree : Tree; nextRef : ItemRef }.

Definition initialState : State :=
  mkState (mkTree rootItem rootItemValue []) 1.

(** Module-level code runs in a state-and-fault monad. *)
Definition M (A : Type) : Type := State -> Fault + (A * State).

Definition ret {A} (a : A) : M A := fun s => inr (a, s).
Definition bind {A B} (m : M A) (k : A -> M B) : M B :=
  fun s => match m s with
           | inl e => inl e
           | inr (a, s') => k a s'
           end.
Definition fail {A} : M A := fun _ => inl AssertionError.

Notation "x <- m ;; k" := (bind m (fun x => k))
  (at level 100, m at next level, right associativity).

(** [walkTree]: depth-first, the node itself before its children, the
    children from left to right; the first hit wins. *)
Fixpoint walkTree (target : ItemRef) (t : Tree) : option Tree :=
  let 'mkTree r _ ch := t in
  if Nat.eqb r target then Some t
  else
    (fix walkChildren (l : list Tree) : option Tree :=
       match l with
       | [] => None
       | subTree :: rest =>
           match walkTree target subTree with
           | Some res => Some res
           | None => walkChildren rest
           end
       end) ch.

(** [return walkTree(tree) ?? assert.fail()] *)
Definition findItem (target : ItemRef) : M Tree :=
  fun s => match walkTree target (tree s) with
           | Some t => inr (t, s)
           | None => inl AssertionError
           end.

(** [parentTree.children.push(child)] mutates the subtree that [walkTree]
    returned; on the immutable tree this rebuilds the path to the first
    node (in [walkTree]'s order) whose item is [target]. *)
Fixpoint pushChild (target : ItemRef) (child : Tree) (t : Tree) : option Tree :=
  let 'mkTree r i ch := t in
  if Nat.eqb r target then Some (mkTree r i (ch ++ [child]))
  else
    match
      (fix pushChildren (l : list Tree) : option (list Tree) :=
         match l with
         | [] => None
         | subTree :: rest =>
             match pushChild target child subTree with
             | Some subTree' => Some (subTree' :: rest)
             | None =>
                 match pushChildren rest with
                 | Some rest' => Some (subTree :: rest')
                 | None => None
                 end
             end
         end) ch
    with
    | Some ch' => Some (mkTree r i ch')
    | None => None
    end.

(** [info.relSize ?? d]: the caller's value unless it is absent. *)
Definition nullish (o : option Q) (d : Q) : Q :=
  match o with Some v => v | None => d end.

Definition newRelSize (parentItem : CVItem.t) : Q :=
  if (2 <=? CVItem.depth parentItem)%nat
  then CVItem.relSize parentItem
  else (CVItem.relSize parentItem * (65 # 100))%Q.

Definition addItem (info : CVInfo.t) (parent : ItemRef) : M ItemRef :=
  parentTree <- findItem parent ;;
  fun s =>
    let p := item parentTree in
    let it := CVItem.Build_t
                (CVInfo.picture info)
                (CVInfo.description info)
                (CVItem.depth p + 1)
                (nullish (CVInfo.relDistance info) (CVItem.relDistance p * (6 # 10))%Q)
                (nullish (CVInfo.relSize info) (newRelSize p)) in
    let r := nextRef s in
    match pushChild parent (mkTree r it []) (tree s) with
    | Some t' => inr (r, mkState t' (S r))
    | None => inl AssertionError
    end.

(** The statements executed when the module is loaded, in source order.
    The HTML descriptions are kept with ['] for the attribute quotes. *)
Definition moduleBody : M unit :=
  cvNode <- addItem (CVInfo.Build_t "/static/images/cv.png"
      (Some "You can download a more formal resume <a href='https://rahmat-ml.github.io/files/rahmat-ansari-cv.pdf'>here</a>")
      None None) rootItem ;;
  hsuNode <- addItem (CVInfo.Build_t "/static/images/hsu.png"
      (Some "Grade: 17.65/20 (1st rank - 2020 entrance of computer engineering)")
      None None) rootItem ;;
  experiencesNode <- addItem (CVInfo.Build_t "/static/images/construction.png"
      (Some "Server-side programming experiences")
      None None) rootItem ;;
  iustNode <- addItem (CVInfo.Build_t "/static/images/iust.png"
      (Some "Master's degree student in AI")
      None None) rootItem ;;
  kaggleNode <- addItem (CVInfo.Build_t "/static/images/kaggle.png"
      (Some "link: <a href='https://www.kaggle.com/enansari'>enansari</a>")
      None None) iustNode ;;
  rahmatMlNode <- addItem (CVInfo.Build_t "/static/images/rahmat-ml.png"
      (Some "Organization related to AI projects: <a href='https://github.com/Rahmat-ML'>Rahmat-ML</a><br>My current personal page: <a href='https://rahmat-ml.github.io/'>rahmat-ml.github.io</a>")
      None None) iustNode ;;
  linkNode <- addItem (CVInfo.Build_t "/static/images/link.png"
      (Some "How to reach me!")
      None None) rootItem ;;
  emailNode <- addItem (CVInfo.Build_t "/static/images/email.png"
      (Some "<a href='mailto:rahmat.ansari.dev@gmail.com'>rahmat.ansari.dev@gmail.com</a>")
      None None) linkNode ;;
  linkedinNode <- addItem (CVInfo.Build_t "/static/images/linkedin.png"
      (Some "link: <a href='https://www.linkedin.com/in/en-r-ansari'>en-r-ansari</a>")
      None None) linkNode ;;
  githubNode <- addItem (CVInfo.Build_t "/static/images/github.png"
      (Some "link: <a href='https://github.com/EnAnsari'>EnAnsari</a>")
      None None) linkNode ;;
  telegramNode <- addItem (CVInfo.Build_t "/static/images/telegram.png"
      (Some "my telegram channel: <a href='https://t.me/Iibx7'>Iibx7</a>")
      None None) linkNode ;;
  rahmatJsNode <- addItem (CVInfo.Build_t "/static/images/rahmat-js.png"
      (Some "organization specific to my server-side applications: <a href='https://github.com/rahmat-js'>rahmat-js</a>")
      None None) githubNode ;;
  funCodingLab <- addItem (CVInfo.Build_t "/static/images/funcodinglab.png"
      (Some "organization dedicated to my interesting apps: <a href='https://github.com/funCodingLab'>funCodingLab</a>")
      None None) githubNode ;;
  hsuLugNode <- addItem (CVInfo.Build_t "/static/images/lug.jpg"
      (Some "I was one of the three leaders for the year 2023-2024, and with the help of other leaders and enthusiastic students, we held warm and intimate meetings about the latest technology and practical and experimental training in the professional workplace. This group was the most active Linux user group (LUG) in Sabzevar.")
      None None) hsuNode ;;
  hsuSscNode <- addItem (CVInfo.Build_t "/static/images/ssc-hsu.jpg"
      (Some "As a member of the Computer Engineering Scientific Association of Hakim Sabzevari University, I participated in many activities. I was the designer of the programming competition and somehow I had a role in correcting it. I also collaborated with other members in many festivals. The cooperating professor of this course was Professor Fasihfar, a member of the computer engineering faculty of Hakim Sabzevari University.")
      None None) hsuNode ;;
  hsuGithubNode <- addItem (CVInfo.Build_t "/static/images/github.png"
      (Some "Some repositories that I have written specifically for Hakim Sabzevari University: <a href='https://github.com/hakimuni'>hakimuni</a>")
      None None) hsuNode ;;
  icpcNode <- addItem (CVInfo.Build_t "/static/images/icpc.png"
      (Some "During my university years, I represented my university for two consecutive years, and with the help of my wonderful teammates, we were able to achieve 21st and 26th place in the Sharif University of Technology West Asia Regional Competition, <a href='https://icpc.global/ICPCID/KD9KWAJE12ZB'>my ICPC ID</a>")
      None None) hsuNode ;;
  codeforces <- addItem (CVInfo.Build_t "/static/images/codeforces.png"
      (Some "handles: <a href='https://codeforces.com/profile/enansari'>enansari</a> and <a href='https://codeforces.com/profile/pypi0'>pypi0</a>")
      None None) icpcNode ;;
  ctrlAltDefeatNode <- addItem (CVInfo.Build_t "/static/images/ctrl-alt-defeat.jpg"
      (Some "GitHub organization specific to this team: <a href='https://github.com/ctrl-alt-Defeat-icpc'>ctrl-alt-Defeat-icpc</a><br>Together, we succeeded in achieving the 26th ICPC2024 rank in West Asia.<br>webpage: <a href='https://ctrl-alt-defeat-icpc.github.io/'>ctrl-alt-defeat-icpc.github.io</a>")
      None None) icpcNode ;;
  nutellaNode <- addItem (CVInfo.Build_t "/static/images/nutella.jpg"
      (Some "GitHub organization specific to this team: <a href='https://github.com/Nutella-ICPC'>Nutella-ICPC</a><br>Together, we succeeded in achieving 21st place in ICPC2023 West Asia.")
      None None) icpcNode ;;
  onlyfansNode <- addItem (CVInfo.Build_t "/static/images/github.png"
      (Some "GitHub organization specific to this team: <a href='https://github.com/onlyfans-icpc'>onlyfans-icpc</a><br>Together, Together, we managed to advance to the Rayan World Finals as the top team in the eastern part of the country. We also managed to qualify for the national finals in the Dotin relief programming competition.")
      None None) icpcNode ;;
  rahmatCpNode <- addItem (CVInfo.Build_t "/static/images/rahmat-cp.png"
      (Some "GitHub organization dedicated to my codes and programs related to competitive programming: <a href='https://github.com/Rahmat-CP'>Rahmat-CP</a>")
      None None) icpcNode ;;
  neshanNode <- addItem (CVInfo.Build_t "/static/images/neshan.png"
      (Some "At Neshan I was a back-end mentee")
      None None) experiencesNode ;;
  partSoftwareGroupNode <- addItem (CVInfo.Build_t "/static/images/part.png"
      (Some "I was a back-end intern in Part Software Group")
      None None) experiencesNode ;;
  rahmasirNode <- addItem (CVInfo.Build_t "/static/images/rahmasir.png"
      (Some "In <a href='https://github.com/rahmasir'>this repository</a>, I have written all the code related to the Hammasir bootcamp in Neshan")
      None None) neshanNode ;;
  snappMapNode <- addItem (CVInfo.Build_t "/static/images/snapp.png"
      (Some "In <a href='https://github.com/snapp-map'>this repository</a>, I have tried to create a simulation of the Snapp app and its affiliates with the help of my friend")
      None None) neshanNode ;;
  yaranNode <- addItem (CVInfo.Build_t "/static/images/yaran.jpg"
      (Some "In <a href='https://github.com/tiffany-co'>this repository</a>, I wrote a remote application for a private employer using fastapi. I was a server-side programmer.")
      None None) experiencesNode ;;
ret tt.

(** [getTree()] after the module has been loaded. *)
Definition getTree : Fault + Tree :=
  match moduleBody initialState with
  | inl e => inl e
  | inr (_, s) => inr (tree s)
  end.

(** All items of a tree, in [walkTree]'s order. *)
Fixpoint items (t : Tree) : list CVItem.t :=
  let 'mkTree _ i ch := t in
  i :: (fix itemsOf (l : list Tree) : list CVItem.t :=
          match l with
          | [] => []
          | s :: rest => items s ++ itemsOf rest
          end) ch.

Definition positiveItem (i : CVItem.t) : Prop :=
  (0 < CVItem.relSize i)%Q /\ (0 < CVItem.relDistance i)%Q.


(** The values a caller passes, if any, are positive. *)
Definition positiveInfo (info : CVInfo.t) : Prop :=
  (forall v, CVInfo.relSize info = Some v -> (0 < v)%Q) /\
  (forall v, CVInfo.relDistance info = Some v -> (0 < v)%Q).

(** Positivity as a check that can be run on an item. *)
Definition positiveItemb (i : CVItem.t) : bool :=
  (0 <? Qnum (CVItem.relSize i))%Z && (0 <? Qnum (CVItem.relDistance i))%Z.


(** *** Views used to state properties of the tree *)

(** The references of a tree, in [walkTree]'s order. *)
Fixpoint refs (t : Tree) : list ItemRef :=
  let 'mkTree r _ ch := t in
  r :: (fix refsOf (l : list Tree) : list ItemRef :=
          match l with
          | [] => []
          | s :: rest => refs s ++ refsOf rest
          end) ch.

(** The loop of [walkTree] over the children: the first result that is
    not [undefined]. *)
Fixpoint firstSome {A B} (f : A -> option B) (l : list A) : option B :=
  match l with
  | [] => None
  | a :: rest =>
      match f a with
      | Some b => Some b
      | None => firstSome f rest
      end
  end.

(** The loop of [pushChild] over the children: rewrite the first child
    for which [f] succeeds. *)
Fixpoint rewriteFirst {A} (f : A -> option A) (l : list A) : option (list A) :=
  match l with
  | [] => None
  | a :: rest =>
      match f a with
      | Some a' => Some (a' :: rest)
      | None =>
          match rewriteFirst f rest with
          | Some rest' => Some (a :: rest')
          | None => None
          end
      end
  end.

(** A tree node with one more child at the end. *)
Definition addChild (p child : Tree) : Tree :=
  mkTree (ref p) (item p) (children p ++ [child]).

(** The item that [addItem] builds for a parent item. *)
Definition childItem (info : CVInfo.t) (p : CVItem.t) : CVItem.t :=
  CVItem.Build_t
    (CVInfo.picture info)
    (CVInfo.description info)
    (CVItem.depth p + 1)
    (nullish (CVInfo.relDistance info) (CVItem.relDistance p * (6 # 10))%Q)
    (nullish (CVInfo.relSize info) (newRelSize p)).

(** Every reference in the tree has been handed out. *)
Definition wellFormed (s : State) : Prop :=
  Forall (fun r => (r < nextRef s)%nat) (refs (tree s)).




End Data.

(* ================================================================== *)
(** * Part II.  [visualization.ts]: class [GraphVisualizer]            *)
(* ================================================================== *)

Module Viz.

(** ** Data model *)

(** A reference to a [Node] object.  The caller, the visualizer's arrays,
    the links, the DOM data bindings and the simulation all hold the same
    objects. *)
Definition Ref := nat.

Module Node.
Record t := Build_t {
  id : string;
  image : string;
  description : option string;
  relSize : Q;
  relDistance : Q;
  x : option Q;
  y : option Q;
  vx : option Q;
  vy : option Q;
  fx : option Q;
  fy : option Q
}.

Definition set_x (v : option Q) (n : t) : t :=
  Build_t (id n) (image n) (description n) (relSize n) (relDistance n)
          v (y n) (vx n) (vy n) (fx n) (fy n).
Definition set_y (v : option Q) (n : t) : t :=
  Build_t (id n) (image n) (description n) (relSize n) (relDistance n)
          (x n) v (vx n) (vy n) (fx n) (fy n).
Definition set_vx (v : option Q) (n : t) : t :=
  Build_t (id n) (image n) (description n) (relSize n) (relDistance n)
          (x n) (y n) v (vy n) (fx n) (fy n).
Definition set_vy (v : option Q) (n : t) : t :=
  Build_t (id n) (image n) (description n) (relSize n) (relDistance n)
          (x n) (y n) (vx n) v (fx n) (fy n).
Definition set_fx (v : option Q) (n : t) : t :=
  Build_t (id n) (image n) (description n) (relSize n) (relDistance n)
          (x n) (y n) (vx n) (vy n) v (fy n).
Definition set_fy (v : option Q) (n : t) : t :=
  Build_t (id n) (image n) (description n) (relSize n) (relDistance n)
          (x n) (y n) (vx n) (vy n) (fx n) v.
End Node.

(** The store of [Node] objects. *)
Definition Store := Ref -> Node.t.

Definition write (r : Ref) (n : Node.t) (st : Store) : Store :=
  fun r' => if Nat.eqb r' r then n else st r'.

Definition modify (f : Node.t -> Node.t) (r : Ref) (st : Store) : Store :=
  write r (f (st r)) st.

Module Link.
Record t := Build_t {
  source : Ref; (* parent *)
  target : Ref  (* child *)
}.
End Link.

Module Config.
Record t := Build_t {
  linkDistanceUnit : Q;
  chargeStrength : Q;
  circleRadiusUnit : Q
}.
End Config.

(** ** Geometry configuration (constructor, lines 40-45; resize handler,
       lines 235-238) *)

(** [Math.min(clientWidth, clientHeight) / 1000] *)
Definition sizeFactor (clientWidth clientHeight : Z) : Q :=
  (inject_Z (Z.min clientWidth clientHeight) / 1000)%Q.

Definition configOf (sizeFactor : Q) : Config.t :=
  {| Config.linkDistanceUnit := (300 * sizeFactor)%Q;
     Config.circleRadiusUnit := (80 * sizeFactor)%Q;
     Config.chargeStrength := (-60 * sizeFactor)%Q |}.

(** The disc of a node (glossary): [relSize * circleRadiusUnit]. *)
Definition discRadius (cfg : Config.t) (n : Node.t) : Q :=
  (Node.relSize n * Config.circleRadiusUnit cfg)%Q.

(** ** Forces *)

(** [applyCollideForce]: the radius accessor given to [d3.forceCollide],
    [d => d.relSize * this.config.circleRadiusUnit + 10]. *)
Definition collideRadius (cfg : Config.t) (d : Node.t) : Q :=
  (Node.relSize d * Config.circleRadiusUnit cfg + 10)%Q.

Module BoundaryParams.
Record t := Build_t { width : Q; height : Q; strength : Q }.
End BoundaryParams.

(** The body of the loop of [boundaryForce(params)(alpha)] for one node.
    [x], [y], [vx], [vy] are read once, before any write. *)
Definition boundaryForceNode (params : BoundaryParams.t) (cfg : Config.t)
    (alpha : Q) (node : Node.t) : Node.t :=
  let x := Node.x node in
  let y := Node.y node in
  let vx := Node.vx node in
  let vy := Node.vy node in
  let radius := (Node.relSize node * Config.circleRadiusUnit cfg)%Q in
  let xminlim := radius in
  let xmaxlim := (BoundaryParams.width params - radius)%Q in
  let yminlim := radius in
  let ymaxlim := (BoundaryParams.height params - radius)%Q in
  let node :=
    match x, vx with
    | Some x, Some vx =>
        if Qle_bool x xminlim then
          Node.set_vx
            (Some (vx + (xminlim - x) * BoundaryParams.strength params * alpha)%Q) node
        else if Qle_bool xmaxlim x then
          Node.set_vx
            (Some (vx + (xmaxlim - x) * BoundaryParams.strength params * alpha)%Q) node
        else node
    | _, _ => node
    end in
  match y, vy with
  | Some y, Some vy =>
      if Qle_bool y yminlim then
        Node.set_vy
          (Some (vy + (yminlim - y) * BoundaryParams.strength params * alpha)%Q) node
      else if Qle_bool ymaxlim y then
        Node.set_vy
          (Some (vy + (ymaxlim - y) * BoundaryParams.strength params * alpha)%Q) node
      else node
  | _, _ => node
  end.

(** [for (const node of this.simulation.nodes()) { ... }]: the objects are
    updated in place, in the order of the simulation's node array. *)
Definition boundaryForce (params : BoundaryParams.t) (cfg : Config.t)
    (alpha : Q) (simNodes : list Ref) (st : Store) : Store :=
  foldl (fun st r => modify (boundaryForceNode params cfg alpha) r st) st simNodes.

(** ** The simulation object ([d3.forceSimulation])

    Only what the visualizer sets or the claims read is kept: the node
    array, the temperature, and the registered forces with the values
    d3 caches when a force is initialised. *)

Module Simulation.
Record t := Build_t {
  nodes : list Ref; (* simulation.nodes() *)
  alpha : Q;
  alphaTarget : Q;
  velocityDecay : Q;
  running : bool; (* the internal timer runs *)
  collide : option (list Q); (* forceCollide: one cached radius per node *)
  charge : option Q; (* forceManyBody: strength *)
  center : option (Q * Q * Q); (* forceCenter: x, y, strength *)
  boundary : option BoundaryParams.t; (* the custom force: params by value *)
  link : option (list (Link.t * Q)) (* forceLink (strength 0.07): cached distances *)
}.
Definition set_nodes (v : list Ref) (s : t) : t :=
  Build_t v (alpha s) (alphaTarget s) (velocityDecay s) (running s)
    (collide s) (charge s) (center s) (boundary s) (link s).
Definition set_alpha (v : Q) (s : t) : t :=
  Build_t (nodes s) v (alphaTarget s) (velocityDecay s) (running s)
    (collide s) (charge s) (center s) (boundary s) (link s).
Definition set_alphaTarget (v : Q) (s : t) : t :=
  Build_t (nodes s) (alpha s) v (velocityDecay s) (running s) (collide s)
    (charge s) (center s) (boundary s) (link s).
Definition set_velocityDecay (v : Q) (s : t) : t :=
  Build_t (nodes s) (alpha s) (alphaTarget s) v (running s) (collide s)
    (charge s) (center s) (boundary s) (link s).
Definition set_running (v : bool) (s : t) : t :=
  Build_t (nodes s) (alpha s) (alphaTarget s) (velocityDecay s) v (collide
    s) (charge s) (center s) (boundary s) (link s).
Definition set_collide (v : option (list Q)) (s : t) : t :=
  Build_t (nodes s) (alpha s) (alphaTarget s) (velocityDecay s) (running
    s) v (charge s) (center s) (boundary s) (link s).
Definition set_charge (v : option Q) (s : t) : t :=
  Build_t (nodes s) (alpha s) (alphaTarget s) (velocityDecay s) (running
    s) (collide s) v (center s) (boundary s) (link s).
Definition set_center (v : option (Q * Q * Q)) (s : t) : t :=
  Build_t (nodes s) (alpha s) (alphaTarget s) (velocityDecay s) (running
    s) (collide s) (charge s) v (boundary s) (link s).
Definition set_boundary (v : option BoundaryParams.t) (s : t) : t :=
  Build_t (nodes s) (alpha s) (alphaTarget s) (velocityDecay s) (running
    s) (collide s) (charge s) (center s) v (link s).
Definition set_link (v : option (list (Link.t * Q))) (s : t) : t :=
  Build_t (nodes s) (alpha s) (alphaTarget s) (velocityDecay s) (running
    s) (collide s) (charge s) (center s) (boundary s) v.
End Simulation.

(** ** The rendered scene

    Every element the visualizer creates gets a fresh element identity
    ([eid]).  A node group stands for [g.node > g.inner-node > circle,
    circle]; a pattern for [defs > pattern > image].  The children of
    [mainGroup] are kept as two document-ordered sequences, the node
    groups and the lines; how the two interleave (paint order) is not
    tracked. *)

Definition TipId := nat.   (* position of a tooltip in [document.body] *)
Definition Handle := nat.  (* a timer handle *)

Module NodeGroup.
Record t := Build_t {
  eid : nat;
  datum : Ref; (* __data__ of g.node *)
  innerDatum : Ref; (* __data__ of g.inner-node, seen by its listeners *)
  transform : option (option Q * option Q); (* translate(x, y) *)
  rWhite : Q; (* r of the white circle *)
  rImage : Q; (* r of the image circle *)
  fill : string;
  listeners : option TipId (* mouseover/mouseout listeners and their tooltip *)
}.
Definition set_datum (v : Ref) (s : t) : t :=
  Build_t (eid s) v (innerDatum s) (transform s) (rWhite s) (rImage s)
    (fill s) (listeners s).
Definition set_transform (v : option (option Q * option Q)) (s : t) : t :=
  Build_t (eid s) (datum s) (innerDatum s) v (rWhite s) (rImage s) (fill
    s) (listeners s).
Definition set_rWhite (v : Q) (s : t) : t :=
  Build_t (eid s) (datum s) (innerDatum s) (transform s) v (rImage s)
    (fill s) (listeners s).
Definition set_rImage (v : Q) (s : t) : t :=
  Build_t (eid s) (datum s) (innerDatum s) (transform s) (rWhite s) v
    (fill s) (listeners s).
End NodeGroup.

Module Line.
Record t := Build_t {
  eid : nat;
  datum : Link.t; (* __data__ *)
  x1 : option Q;
  y1 : option Q;
  x2 : option Q;
  y2 : option Q
}.
Definition set_datum (v : Link.t) (s : t) : t :=
  Build_t (eid s) v (x1 s) (y1 s) (x2 s) (y2 s).
Definition set_x1 (v : option Q) (s : t) : t :=
  Build_t (eid s) (datum s) v (y1 s) (x2 s) (y2 s).
Definition set_y1 (v : option Q) (s : t) : t :=
  Build_t (eid s) (datum s) (x1 s) v (x2 s) (y2 s).
Definition set_x2 (v : option Q) (s : t) : t :=
  Build_t (eid s) (datum s) (x1 s) (y1 s) v (y2 s).
Definition set_y2 (v : option Q) (s : t) : t :=
  Build_t (eid s) (datum s) (x1 s) (y1 s) (x2 s) v.
End Line.

Module Pattern.
Record t := Build_t {
  eid : nat;
  id : string;
  x : Q;
  y : Q;
  width : Q;
  height : Q;
  href : string; (* image xlink:href *)
  imageWidth : Q;
  imageHeight : Q
}.
End Pattern.

(** Modelled from the spec: class [Tooltip] of [./tooltip] is not among
    the sources.  The spec gives it [setData(pointerEvent, node,
    radiusUnit)], [show()], [hide()] and a root DOM node; a new tooltip
    is taken to be hidden.  [showTimeout] is the variable of that name
    in the closure that created the tooltip. *)
Module Tooltip.
Record t := Build_t {
  eid : nat;
  visible : bool;
  data : option (Ref * Q); (* last setData: node, radius unit *)
  showTimeout : option Handle
}.
Definition set_visible (v : bool) (s : t) : t :=
  Build_t (eid s) v (data s) (showTimeout s).
Definition set_data (v : option (Ref * Q)) (s : t) : t :=
  Build_t (eid s) (visible s) v (showTimeout s).
Definition set_showTimeout (v : option Handle) (s : t) : t :=
  Build_t (eid s) (visible s) (data s) v.
Definition show : t -> t := set_visible true.
Definition hide : t -> t := set_visible false.
Definition setData (d : Ref) (radiusUnit : Q) : t -> t := set_data (Some (d, radiusUnit)).
End Tooltip.

(** ** Timers ([setTimeout]/[clearTimeout]) *)

Inductive Task :=
| ResizeTask                       (* the arrow function of [registerResize] *)
| HideTask (f : option TipId).     (* a value of [this.hideTask]: [() => {}] or [() => tip.hide()] *)

Module Timer.
Record t := Build_t {
  handle : Handle;
  due : Z; (* milliseconds *)
  task : Task
}.
End Timer.

(** ** The state: the visualizer's fields, the page and the event loop *)

Module State.
Record t := Build_t {
  store : Store; (* the Node objects *)
  clientWidth : Z; (* svgElement.clientWidth *)
  clientHeight : Z; (* svgElement.clientHeight *)
  nodes : list Ref; (* this.nodes *)
  links : list Link.t; (* this.links *)
  config : Config.t; (* this.config *)
  simulation : Simulation.t; (* this.simulation *)
  hideTask : option TipId; (* this.hideTask: None is the empty function *)
  groups : list NodeGroup.t; (* mainGroup: elements of class node *)
  lines : list Line.t; (* mainGroup: elements of class link *)
  defs : list Pattern.t; (* svgElement: defs *)
  body : list Tooltip.t; (* document.body: tooltips *)
  nextEid : nat;
  lastResizeTimeout : option Handle; (* variable of registerResize *)
  timers : list Timer.t; (* pending timers, oldest first *)
  now : Z; (* clock, milliseconds *)
  nextHandle : Handle;
  resizeLog : list Z (* ghost: when the resize handler ran *)
}.
Definition set_store (v : Store) (s : t) : t :=
  Build_t v (clientWidth s) (clientHeight s) (nodes s) (links s) (config
    s) (simulation s) (hideTask s) (groups s) (lines s) (defs s) (body s)
    (nextEid s) (lastResizeTimeout s) (timers s) (now s) (nextHandle s)
    (resizeLog s).
Definition set_clientWidth (v : Z) (s : t) : t :=
  Build_t (store s) v (clientHeight s) (nodes s) (links s) (config s)
    (simulation s) (hideTask s) (groups s) (lines s) (defs s) (body s)
    (nextEid s) (lastResizeTimeout s) (timers s) (now s) (nextHandle s)
    (resizeLog s).
Definition set_clientHeight (v : Z) (s : t) : t :=
  Build_t (store s) (clientWidth s) v (nodes s) (links s) (config s)
    (simulation s) (hideTask s) (groups s) (lines s) (defs s) (body s)
    (nextEid s) (lastResizeTimeout s) (timers s) (now s) (nextHandle s)
    (resizeLog s).
Definition set_nodes (v : list Ref) (s : t) : t :=
  Build_t (store s) (clientWidth s) (clientHeight s) v (links s) (config
    s) (simulation s) (hideTask s) (groups s) (lines s) (defs s) (body s)
    (nextEid s) (lastResizeTimeout s) (timers s) (now s) (nextHandle s)
    (resizeLog s).
Definition set_links (v : list Link.t) (s : t) : t :=
  Build_t (store s) (clientWidth s) (clientHeight s) (nodes s) v (config
    s) (simulation s) (hideTask s) (groups s) (lines s) (defs s) (body s)
    (nextEid s) (lastResizeTimeout s) (timers s) (now s) (nextHandle s)
    (resizeLog s).
Definition set_config (v : Config.t) (s : t) : t :=
  Build_t (store s) (clientWidth s) (clientHeight s) (nodes s) (links s) v
    (simulation s) (hideTask s) (groups s) (lines s) (defs s) (body s)
    (nextEid s) (lastResizeTimeout s) (timers s) (now s) (nextHandle s)
    (resizeLog s).
Definition set_simulation (v : Simulation.t) (s : t) : t :=
  Build_t (store s) (clientWidth s) (clientHeight s) (nodes s) (links s)
    (config s) v (hideTask s) (groups s) (lines s) (defs s) (body s)
    (nextEid s) (lastResizeTimeout s) (timers s) (now s) (nextHandle s)
    (resizeLog s).
Definition set_hideTask (v : option TipId) (s : t) : t :=
  Build_t (store s) (clientWidth s) (clientHeight s) (nodes s) (links s)
    (config s) (simulation s) v (groups s) (lines s) (defs s) (body s)
    (nextEid s) (lastResizeTimeout s) (timers s) (now s) (nextHandle s)
    (resizeLog s).
Definition set_groups (v : list NodeGroup.t) (s : t) : t :=
  Build_t (store s) (clientWidth s) (clientHeight s) (nodes s) (links s)
    (config s) (simulation s) (hideTask s) v (lines s) (defs s) (body s)
    (nextEid s) (lastResizeTimeout s) (timers s) (now s) (nextHandle s)
    (resizeLog s).
Definition set_lines (v : list Line.t) (s : t) : t :=
  Build_t (store s) (clientWidth s) (clientHeight s) (nodes s) (links s)
    (config s) (simulation s) (hideTask s) (groups s) v (defs s) (body s)
    (nextEid s) (lastResizeTimeout s) (timers s) (now s) (nextHandle s)
    (resizeLog s).
Definition set_defs (v : list Pattern.t) (s : t) : t :=
  Build_t (store s) (clientWidth s) (clientHeight s) (nodes s) (links s)
    (config s) (simulation s) (hideTask s) (groups s) (lines s) v (body s)
    (nextEid s) (lastResizeTimeout s) (timers s) (now s) (nextHandle s)
    (resizeLog s).
Definition set_body (v : list Tooltip.t) (s : t) : t :=
  Build_t (store s) (clientWidth s) (clientHeight s) (nodes s) (links s)
    (config s) (simulation s) (hideTask s) (groups s) (lines s) (defs s) v
    (nextEid s) (lastResizeTimeout s) (timers s) (now s) (nextHandle s)
    (resizeLog s).
Definition set_nextEid (v : nat) (s : t) : t :=
  Build_t (store s) (clientWidth s) (clientHeight s) (nodes s) (links s)
    (config s) (simulation s) (hideTask s) (groups s) (lines s) (defs s)
    (body s) v (lastResizeTimeout s) (timers s) (now s) (nextHandle s)
    (resizeLog s).
Definition set_lastResizeTimeout (v : option Handle) (s : t) : t :=
  Build_t (store s) (clientWidth s) (clientHeight s) (nodes s) (links s)
    (config s) (simulation s) (hideTask s) (groups s) (lines s) (defs s)
    (body s) (nextEid s) v (timers s) (now s) (nextHandle s) (resizeLog s).
Definition set_timers (v : list Timer.t) (s : t) : t :=
  Build_t (store s) (clientWidth s) (clientHeight s) (nodes s) (links s)
    (config s) (simulation s) (hideTask s) (groups s) (lines s) (defs s)
    (body s) (nextEid s) (lastResizeTimeout s) v (now s) (nextHandle s)
    (resizeLog s).
Definition set_now (v : Z) (s : t) : t :=
  Build_t (store s) (clientWidth s) (clientHeight s) (nodes s) (links s)
    (config s) (simulation s) (hideTask s) (groups s) (lines s) (defs s)
    (body s) (nextEid s) (lastResizeTimeout s) (timers s) v (nextHandle s)
    (resizeLog s).
Definition set_nextHandle (v : Handle) (s : t) : t :=
  Build_t (store s) (clientWidth s) (clientHeight s) (nodes s) (links s)
    (config s) (simulation s) (hideTask s) (groups s) (lines s) (defs s)
    (body s) (nextEid s) (lastResizeTimeout s) (timers s) (now s) v
    (resizeLog s).
Definition set_resizeLog (v : list Z) (s : t) : t :=
  Build_t (store s) (clientWidth s) (clientHeight s) (nodes s) (links s)
    (config s) (simulation s) (hideTask s) (groups s) (lines s) (defs s)
    (body s) (nextEid s) (lastResizeTimeout s) (timers s) (now s)
    (nextHandle s) v.
End State.

Import State.

(** ** d3's data join ([selection.data(array, key)])

    The three loops of d3-selection's [bindKey], over the selected
    elements in document order.  [ekey] is the key function applied to
    an element's bound datum, [dkey] the key function applied to a new
    datum. *)

Section DataJoin.
Context {E D : Type}.
Variable eid : E -> nat.
Variable ekey : E -> string.
Variable dkey : D -> string.

(** First loop: index the elements by key; an element whose key is
    already taken is a duplicate. *)
Fixpoint indexNodes (group : list E) (nodeByKeyValue : gmap string E)
    (dup : list E) : gmap string E * list E :=
  match group with
  | [] => (nodeByKeyValue, dup)
  | node :: rest =>
      match nodeByKeyValue !! ekey node with
      | Some _ => indexNodes rest nodeByKeyValue (dup ++ [node])
      | None => indexNodes rest (<[ekey node := node]> nodeByKeyValue) dup
      end
  end.

(** Second loop: a datum whose key is indexed takes that element
    ([Some], the update selection) and removes the key; any other
    datum enters ([None]). *)
Fixpoint bindData (data : list D) (nodeByKeyValue : gmap string E)
    : list (D * option E) * gmap string E :=
  match data with
  | [] => ([], nodeByKeyValue)
  | d :: rest =>
      match nodeByKeyValue !! dkey d with
      | Some node =>
          let '(r, m) := bindData rest (delete (dkey d) nodeByKeyValue) in
          ((d, Some node) :: r, m)
      | None =>
          let '(r, m) := bindData rest nodeByKeyValue in
          ((d, None) :: r, m)
      end
  end.

(** Third loop: the duplicates and the elements still indexed exit. *)
Definition exiting (group dup : list E) (nodeByKeyValue : gmap string E) : list E :=
  List.filter
    (fun node =>
       existsb (fun e => Nat.eqb (eid e) (eid node)) dup
       || match nodeByKeyValue !! ekey node with
          | Some node' => Nat.eqb (eid node') (eid node)
          | None => false
          end)
    group.

Definition bindKey (group : list E) (data : list D) : list (D * option E) * list E :=
  let '(m, dup) := indexNodes group ∅ [] in
  let '(bound, m') := bindData data m in
  (bound, exiting group dup m').

(** [selection.data(array)] without a key: elements and data are paired
    by index; the paired elements (the update selection) get the new
    datum, surplus elements keep theirs. *)
Fixpoint bindIndex (setDatum : D -> E -> E) (group : list E) (data : list D) : list E :=
  match group, data with
  | node :: rest, d :: ds => setDatum d node :: bindIndex setDatum rest ds
  | _, _ => group
  end.
End DataJoin.

(** The data of a join that enter. *)
Definition entering {E D} (bound : list (D * option E)) : list D :=
  omap (fun b => match snd b with None => Some (fst b) | Some _ => None end) bound.

(** The elements after [join(...)]: one per datum, in the order of the
    data (the join ends with [selection.order()]); an update element is
    bound to the new datum, an entering datum gets the element [create]
    makes for it.  Exiting elements are gone ([exit => exit.remove()]). *)
Fixpoint joined {E D} (setDatum : D -> E -> E) (create : nat -> D -> E)
    (fresh : nat) (bound : list (D * option E)) : list E :=
  match bound with
  | [] => []
  | (d, Some node) :: rest => setDatum d node :: joined setDatum create fresh rest
  | (d, None) :: rest => create fresh d :: joined setDatum create (S fresh) rest
  end.

(** ** Timers *)

Definition setTimeout (task : Task) (delay : Z) (s : State.t) : Handle * State.t :=
  let h := nextHandle s in
  (h, set_nextHandle (S h)
        (set_timers (timers s ++ [Timer.Build_t h (now s + delay) task]) s)).

Definition clearTimeout (h : option Handle) (s : State.t) : State.t :=
  match h with
  | None => s
  | Some h => set_timers (List.filter (fun t => negb (Nat.eqb (Timer.handle t) h)) (timers s)) s
  end.

(** ** Forces, as the visualizer registers them *)

Definition applyCollideForce (s : State.t) : State.t :=
  set_simulation
    (Simulation.set_collide
       (Some (map (fun r => collideRadius (config s) (store s r))
                  (Simulation.nodes (simulation s))))
       (simulation s)) s.

Definition applyChargeForce (s : State.t) : State.t :=
  set_simulation
    (Simulation.set_charge (Some (Config.chargeStrength (config s))) (simulation s)) s.

Definition applyCenterForce (s : State.t) : State.t :=
  set_simulation
    (Simulation.set_center
       (Some (inject_Z (clientWidth s) / 2, inject_Z (clientHeight s) / 2, 1 # 10)%Q)
       (simulation s)) s.

Definition applyBoundaryForce (s : State.t) : State.t :=
  set_simulation
    (Simulation.set_boundary
       (Some (BoundaryParams.Build_t (inject_Z (clientWidth s))
                                     (inject_Z (clientHeight s)) (3 # 10)%Q))
       (simulation s)) s.

Definition applyAllForces (s : State.t) : State.t :=
  applyBoundaryForce (applyCenterForce (applyChargeForce (applyCollideForce s))).

(** One evaluation of the registered boundary force, as the simulation
    performs it in every step: the radius unit is read from
    [this.config] at that moment, the params are those captured when the
    force was registered. *)
Definition stepBoundaryForce (alpha : Q) (s : State.t) : State.t :=
  match Simulation.boundary (simulation s) with
  | Some params =>
      set_store (boundaryForce params (config s) alpha
                   (Simulation.nodes (simulation s)) (store s)) s
  | None => s
  end.

(** The disc of a node lies strictly inside the box of the force: with
    [r] the disc radius, [r < x < width - r] and [r < y < height - r]. *)
Definition strictlyInside (params : BoundaryParams.t) (cfg : Config.t) (n : Node.t) : Prop :=
  exists xv yv,
    Node.x n = Some xv /\ Node.y n = Some yv /\
    (discRadius cfg n < xv)%Q /\
    (xv < BoundaryParams.width params - discRadius cfg n)%Q /\
    (discRadius cfg n < yv)%Q /\
    (yv < BoundaryParams.height params - discRadius cfg n)%Q.

(** The centre of a node is within the box [[r, width - r] x [r, height - r]]
    that a hard clamp would enforce. *)
Definition withinBox (params : BoundaryParams.t) (cfg : Config.t) (n : Node.t) : Prop :=
  exists xv yv,
    Node.x n = Some xv /\ Node.y n = Some yv /\
    (discRadius cfg n <= xv)%Q /\
    (xv <= BoundaryParams.width params - discRadius cfg n)%Q /\
    (discRadius cfg n <= yv)%Q /\
    (yv <= BoundaryParams.height params - discRadius cfg n)%Q.

(** ** Construction *)

(** [d3.forceSimulation(nodes)] with d3's defaults. *)
Definition forceSimulation (nodes : list Ref) : Simulation.t :=
  Simulation.Build_t nodes 1%Q 0%Q (6 # 10)%Q true None None None None None.

(** [new GraphVisualizer(container)], for a container of the given client
    size.  The zoom behaviour only sets [mainGroup]'s transform and is
    left out. *)
Definition constructor (st : Store) (clientWidth clientHeight : Z) : State.t :=
  let sizeFactor := sizeFactor clientWidth clientHeight in
  let s :=
    State.Build_t st clientWidth clientHeight [] []
      (configOf sizeFactor) (forceSimulation []) None
      [] [] [] [] 0 None [] 0%Z 0 [] in
  let s := applyAllForces s in
  set_simulation (Simulation.set_velocityDecay (5 # 100)%Q (simulation s)) s.

(** ** [simulation.nodes(nodes)]

    d3 gives a position to every node that has none ([isNaN(undefined)]
    holds) and a zero velocity to every node without one, then
    initialises the registered forces again.  d3 places the [i]-th node
    on a spiral ([Math.sqrt], [Math.cos]); the placement is a parameter
    of the model. *)

Section Placement.
Variable place : nat -> Q * Q.

Definition initializeNode (i : nat) (n : Node.t) : Node.t :=
  let n := match Node.fx n with Some v => Node.set_x (Some v) n | None => n end in
  let n := match Node.fy n with Some v => Node.set_y (Some v) n | None => n end in
  let n :=
    match Node.x n, Node.y n with
    | Some _, Some _ => n
    | _, _ => Node.set_y (Some (snd (place i))) (Node.set_x (Some (fst (place i))) n)
    end in
  match Node.vx n, Node.vy n with
  | Some _, Some _ => n
  | _, _ => Node.set_vy (Some 0%Q) (Node.set_vx (Some 0%Q) n)
  end.

Fixpoint initializeNodes (i : nat) (nodes : list Ref) (st : Store) : Store :=
  match nodes with
  | [] => st
  | r :: rest => initializeNodes (S i) rest (modify (initializeNode i) r st)
  end.

Definition linkDistances (s : State.t) (links : list Link.t) : list (Link.t * Q) :=
  map (fun link =>
         (link, (Node.relDistance (store s (Link.target link))
                 * Config.linkDistanceUnit (config s))%Q))
      links.

Definition simulation_nodes (nodes : list Ref) (s : State.t) : State.t :=
  let s := set_store (initializeNodes 0 nodes (store s)) s in
  let sim := Simulation.set_nodes nodes (simulation s) in
  let sim :=
    match Simulation.collide sim with
    | Some _ =>
        Simulation.set_collide
          (Some (map (fun r => collideRadius (config s) (store s r)) nodes)) sim
    | None => sim
    end in
  let sim :=
    match Simulation.link sim with
    | Some l => Simulation.set_link (Some (linkDistances s (map fst l))) sim
    | None => sim
    end in
  set_simulation sim s.

(** ** [update] *)

(** [d.description !== undefined && d.description.length > 0] *)
Definition hasDescription (d : Node.t) : bool :=
  match Node.description d with
  | Some text => negb (String.eqb text "")
  | None => false
  end.

(** The elements appended for an entering node: the group with its two
    circles and, when the description is not empty, the listeners that
    use the tooltip [tip] of this run of the enter callback. *)
Definition enterNode (s : State.t) (tip : TipId) (eid : nat) (d : Ref) : NodeGroup.t :=
  let n := store s d in
  NodeGroup.Build_t eid d d None
    (Node.relSize n * Config.circleRadiusUnit (config s))%Q
    (Node.relSize n * Config.circleRadiusUnit (config s))%Q
    (String.append "url(#" (String.append (String.append "pattern" (Node.id n)) ")"))
    (if hasDescription n then Some tip else None).

Definition enterPattern (s : State.t) (eid : nat) (d : Ref) : Pattern.t :=
  let n := store s d in
  let r := (Node.relSize n * Config.circleRadiusUnit (config s))%Q in
  Pattern.Build_t eid (String.append "pattern" (Node.id n))
    (- Node.relSize n * Config.circleRadiusUnit (config s))%Q
    (- Node.relSize n * Config.circleRadiusUnit (config s))%Q
    (r * 2)%Q (r * 2)%Q (Node.image n) (r * 2)%Q (r * 2)%Q.

Definition nodeKey (st : Store) (d : Ref) : string := Node.id (st d).

(** [`${d.source.id}-${d.target.id}`] *)
Definition linkKey (st : Store) (d : Link.t) : string :=
  String.append (Node.id (st (Link.source d)))
    (String.append "-" (Node.id (st (Link.target d)))).

Definition bindNodes (s : State.t) : list (Ref * option NodeGroup.t) * list NodeGroup.t :=
  bindKey NodeGroup.eid (fun g => nodeKey (store s) (NodeGroup.datum g))
    (nodeKey (store s)) (groups s) (nodes s).

Definition bindLinks (s : State.t) : list (Link.t * option Line.t) * list Line.t :=
  bindKey Line.eid (fun l => linkKey (store s) (Line.datum l))
    (linkKey (store s)) (lines s) (links s).

(** The node join.  The enter callback runs on every call, also when no
    datum enters: it appends the groups, then one [defs] per entering
    node, then creates a tooltip and appends it to [document.body]. *)
Definition joinNodes (s : State.t) : State.t :=
  let bound := fst (bindNodes s) in
  let new := entering bound in
  let k := length new in
  let tip : TipId := length (body s) in
  let s' := set_groups (joined NodeGroup.set_datum (enterNode s tip) (nextEid s) bound) s in
  let s' := set_defs (defs s ++ imap (fun i d => enterPattern s (nextEid s + k + i) d) new) s' in
  let s' := set_body (body s ++ [Tooltip.Build_t (nextEid s + k + k) false None None]) s' in
  set_nextEid (S (nextEid s + k + k)) s'.

(** The link join. *)
Definition joinLinks (s : State.t) : State.t :=
  let bound := fst (bindLinks s) in
  let s' :=
    set_lines
      (joined Line.set_datum (fun eid d => Line.Build_t eid d None None None None)
         (nextEid s) bound) s in
  set_nextEid (nextEid s + length (entering bound)) s'.

(** [this.simulation.force('link', d3.forceLink(this.links)...)] *)
Definition applyLinkForce (s : State.t) : State.t :=
  set_simulation
    (Simulation.set_link (Some (linkDistances s (links s))) (simulation s)) s.

(** [simulation.alpha(a).restart()] *)
Definition reheat (a : Q) (s : State.t) : State.t :=
  set_simulation
    (Simulation.set_running true (Simulation.set_alpha a (simulation s))) s.

(** Each line, in document order, is re-inserted as the first child of
    its parent: the lines end up in reverse order. *)
Definition reorderLines (s : State.t) : State.t :=
  set_lines (rev (lines s)) s.

Definition update (s : State.t) : State.t :=
  let s := joinNodes s in
  let s := joinLinks s in
  let s := simulation_nodes (nodes s) s in
  let s := applyLinkForce s in
  let s := reheat (3 # 10)%Q s in
  reorderLines s.

Definition addNode (node : Ref) (s : State.t) : State.t :=
  update (set_nodes (nodes s ++ [node]) s).

Definition addLink (link : Link.t) (s : State.t) : State.t :=
  update (set_links (links s ++ [link]) s).
End Placement.

(** ** [ticked] *)

(** How a callback ends: normally, or by a thrown fault that unwinds to
    the caller.  The state is the one reached when the callback ended,
    so writes made before a throw remain. *)
Inductive Outcome := Normal | Throw (f : Fault).

(** [selection.attr(name, d => value(d) ?? assert.fail())] over the first
    [n] lines (the update selection), in document order. *)
Fixpoint attrLines (n : nat) (value : Link.t -> option Q)
    (setAttr : option Q -> Line.t -> Line.t) (ls : list Line.t)
    : Outcome * list Line.t :=
  match n, ls with
  | S n', l :: rest =>
      match value (Line.datum l) with
      | None => (Throw AssertionError, ls)
      | Some v =>
          let '(o, rest') := attrLines n' value setAttr rest in
          (o, setAttr (Some v) l :: rest')
      end
  | _, _ => (Normal, ls)
  end.

(** Chaining of the four [attr] calls. *)
Definition andThen (r : Outcome * list Line.t)
    (k : list Line.t -> Outcome * list Line.t) : Outcome * list Line.t :=
  match r with
  | (Normal, ls) => k ls
  | (Throw f, ls) => (Throw f, ls)
  end.

(** [selection.attr('transform', d => `translate(${d.x}, ${d.y})`)] over
    the first [n] node groups. *)
Fixpoint attrTransform (n : nat) (st : Store) (gs : list NodeGroup.t) : list NodeGroup.t :=
  match n, gs with
  | S n', g :: rest =>
      let d := st (NodeGroup.datum g) in
      NodeGroup.set_transform (Some (Node.x d, Node.y d)) g :: attrTransform n' st rest
  | _, _ => gs
  end.

(** [selectLinks()]: the lines in document order, re-bound to
    [this.links] by index. *)
Definition selectLinks (s : State.t) : list Line.t :=
  bindIndex Line.set_datum (lines s) (links s).

(** [selectNodes()] *)
Definition selectNodes (s : State.t) : list NodeGroup.t :=
  bindIndex NodeGroup.set_datum (groups s) (nodes s).

Definition ticked (s : State.t) : Outcome * State.t :=
  let st := store s in
  let n := length (links s) in
  let r :=
    andThen (attrLines n (fun d => Node.x (st (Link.source d))) Line.set_x1 (selectLinks s))
      (fun ls =>
    andThen (attrLines n (fun d => Node.y (st (Link.source d))) Line.set_y1 ls)
      (fun ls =>
    andThen (attrLines n (fun d => Node.x (st (Link.target d))) Line.set_x2 ls)
      (fun ls =>
             attrLines n (fun d => Node.y (st (Link.target d))) Line.set_y2 ls))) in
  match r with
  | (Throw f, ls) => (Throw f, set_lines ls s)
  | (Normal, ls) =>
      (Normal,
       set_groups (attrTransform (length (nodes s)) st (selectNodes s)) (set_lines ls s))
  end.

(** ** Drag *)

Definition dragstarted (active : bool) (ex ey : Q) (d : Ref) (s : State.t) : State.t :=
  let s :=
    if active then s
    else set_simulation
           (Simulation.set_running true
              (Simulation.set_alphaTarget (3 # 10)%Q (simulation s))) s in
  set_store (modify (fun n => Node.set_fy (Some ey) (Node.set_fx (Some ex) n)) d (store s)) s.

Definition dragged (ex ey : Q) (d : Ref) (s : State.t) : State.t :=
  set_store (modify (fun n => Node.set_fy (Some ey) (Node.set_fx (Some ex) n)) d (store s)) s.

Definition dragended (active : bool) (d : Ref) (s : State.t) : State.t :=
  let s :=
    if active then s
    else set_simulation (Simulation.set_alphaTarget 0%Q (simulation s)) s in
  set_store (modify (fun n => Node.set_fy None (Node.set_fx None n)) d (store s)) s.

(** ** [registerResize] *)

(** The function given to [setTimeout]. *)
Definition resizeHandler (s : State.t) : State.t :=
  let sizeFactor := sizeFactor (clientWidth s) (clientHeight s) in
  let s :=
    set_config
      {| Config.linkDistanceUnit := (300 * sizeFactor)%Q;
         Config.circleRadiusUnit := (80 * sizeFactor)%Q;
         Config.chargeStrength := (-60 * sizeFactor)%Q |} s in
  let s := applyAllForces s in
  let s := set_simulation
             (Simulation.set_running true (Simulation.set_alpha 1%Q (simulation s))) s in
  let s := set_lastResizeTimeout None s in
  set_resizeLog (resizeLog s ++ [now s]) s.

Inductive ResizeObserverEntry := Entry.

(** The body of [for (const entry of entries)]. *)
Definition resizeEntry (s : State.t) : State.t :=
  let s :=
    match lastResizeTimeout s with
    | Some h => clearTimeout (Some h) s
    | None => s
    end in
  let '(h, s) := setTimeout ResizeTask 500 s in
  set_lastResizeTimeout (Some h) s.

(** The callback of the [ResizeObserver]. *)
Definition resizeObserved (entries : list ResizeObserverEntry) (s : State.t) : State.t :=
  foldl (fun s _ => resizeEntry s) s entries.

(** ** Tooltip listeners *)

Definition withTip (t : TipId) (f : Tooltip.t -> Tooltip.t) (s : State.t) : State.t :=
  set_body (alter f t (body s)) s.

(** Calling a value of [this.hideTask]. *)
Definition callHideTask (f : option TipId) (s : State.t) : State.t :=
  match f with
  | None => s
  | Some t => withTip t Tooltip.hide s
  end.

Definition showTimeoutOf (t : TipId) (s : State.t) : option Handle :=
  match body s !! t with
  | Some tip => Tooltip.showTimeout tip
  | None => None
  end.

(** [mouseover] on the inner group of [g]. *)
Definition nodeMouseover (g : NodeGroup.t) (s : State.t) : State.t :=
  match NodeGroup.listeners g with
  | None => s
  | Some t =>
      let s := clearTimeout (showTimeoutOf t s) s in
      let s := withTip t (Tooltip.setData (NodeGroup.innerDatum g)
                            (Config.circleRadiusUnit (config s))) s in
      let s := callHideTask (hideTask s) s in
      withTip t Tooltip.show s
  end.

(** [mouseout] on the inner group of [g]. *)
Definition nodeMouseout (g : NodeGroup.t) (s : State.t) : State.t :=
  match NodeGroup.listeners g with
  | None => s
  | Some t =>
      let s := set_hideTask (Some t) s in
      let '(h, s) := setTimeout (HideTask (hideTask s)) 800 s in
      withTip t (Tooltip.set_showTimeout (Some h)) s
  end.

(** [tip.getNode().onmouseover] *)
Definition tipMouseover (t : TipId) (s : State.t) : State.t :=
  clearTimeout (showTimeoutOf t s) s.

(** [tip.getNode().onmouseout] *)
Definition tipMouseout (t : TipId) (s : State.t) : State.t :=
  match body s !! t with
  | None => s
  | Some _ =>
      let '(h, s) := setTimeout (HideTask (hideTask s)) 800 s in
      withTip t (Tooltip.set_showTimeout (Some h)) s
  end.

(** ** The event loop *)

(** The pending timer that fires next: the earliest due one, the oldest
    among equals. *)
Fixpoint earliest (l : list Timer.t) : option Timer.t :=
  match l with
  | [] => None
  | tm :: rest =>
      match earliest rest with
      | Some tm' => if (Timer.due tm' <? Timer.due tm)%Z then Some tm' else Some tm
      | None => Some tm
      end
  end.

Definition dueBy (t : Z) (l : list Timer.t) : list Timer.t :=
  List.filter (fun tm => (Timer.due tm <=? t)%Z) l.

Definition fire (tm : Timer.t) (s : State.t) : State.t :=
  let s := clearTimeout (Some (Timer.handle tm)) s in
  let s := set_now (Z.max (now s) (Timer.due tm)) s in
  match Timer.task tm with
  | ResizeTask => resizeHandler s
  | HideTask f => callHideTask f s
  end.

(** Fire, in order, the timers due by time [t].  No timer callback of
    the visualizer starts a timer, so as many rounds as there are
    pending timers are enough. *)
Fixpoint runTimers (rounds : nat) (t : Z) (s : State.t) : State.t :=
  match rounds with
  | O => s
  | S rounds' =>
      match earliest (dueBy t (timers s)) with
      | Some tm => runTimers rounds' t (fire tm s)
      | None => s
      end
  end.

(** Let time pass until [t]. *)
Definition advance (t : Z) (s : State.t) : State.t :=
  let s := runTimers (length (timers s)) t s in
  set_now (Z.max (now s) t) s.

(** ** Events *)

Inductive Event :=
| AddNode (node : Ref)
| AddLink (link : Link.t)
| Tick                                     (* the simulation calls [ticked] *)
| Simulate (f : Node.t -> Node.t) (d : Ref) (* the simulation moves a node *)
| BoundaryForce (alpha : Q)
| DragStart (active : bool) (ex ey : Q) (d : Ref)
| Drag (ex ey : Q) (d : Ref)
| DragEnd (active : bool) (d : Ref)
| Resized (width height : Z) (entries : list ResizeObserverEntry)
| Advance (t : Z)
| NodeMouseover (i : nat)                  (* on the [i]-th node group *)
| NodeMouseout (i : nat)
| TipMouseover (t : TipId)
| TipMouseout (t : TipId).

Section Run.
Variable place : nat -> Q * Q.

Definition onGroup (i : nat) (f : NodeGroup.t -> State.t -> State.t) (s : State.t) : State.t :=
  match groups s !! i with
  | Some g => f g s
  | None => s
  end.

Definition step (e : Event) (s : State.t) : State.t :=
  match e with
  | AddNode node => addNode place node s
  | AddLink link => addLink place link s
  | Tick => snd (ticked s)
  | Simulate f d => set_store (modify f d (store s)) s
  | BoundaryForce alpha => stepBoundaryForce alpha s
  | DragStart active ex ey d => dragstarted active ex ey d s
  | Drag ex ey d => dragged ex ey d s
  | DragEnd active d => dragended active d s
  | Resized w h entries =>
      resizeObserved entries (set_clientHeight h (set_clientWidth w s))
  | Advance t => advance t s
  | NodeMouseover i => onGroup i nodeMouseover s
  | NodeMouseout i => onGroup i nodeMouseout s
  | TipMouseover t => tipMouseover t s
  | TipMouseout t => tipMouseout t s
  end.

Definition run (es : list Event) (s : State.t) : State.t :=
  foldl (fun s e => step e s) s es.
End Run.

End Viz.

(* ================================================================== *)
(** * The geometry configuration in double precision                   *)
(* ================================================================== *)

(** The configuration of [Viz] is computed in exact rationals.  The
    program computes it in IEEE 754 binary64; this module is the same
    computation (constructor, lines 40-45; resize handler, lines 235-238)
    with every operation rounded as the program rounds it. *)

Module Double.
Import PrimFloat FloatOps SpecFloat.

(** [clientWidth] and [clientHeight] are integers; as a [number] an
    integer is the double nearest to it (itself below [2^53]). *)
Definition ofZ (z : Z) : float := SF2Prim (binary_normalize prec emax z 0 false).

(** [Math.min(clientWidth, clientHeight) / 1000] *)
Definition sizeFactor (clientWidth clientHeight : Z) : float :=
  (ofZ (Z.min clientWidth clientHeight) / 1000)%float.

Module Config.
Record t := Build_t {
  linkDistanceUnit : float;
  circleRadiusUnit : float;
  chargeStrength : float
}.
End Config.

Definition configOf (sizeFactor : float) : Config.t :=
  {| Config.linkDistanceUnit := (300 * sizeFactor)%float;
     Config.circleRadiusUnit := (80 * sizeFactor)%float;
     Config.chargeStrength := (-60 * sizeFactor)%float |}.

(** The configuration for a viewport, as both places compute it. *)
Definition config (clientWidth clientHeight : Z) : Config.t :=
  configOf (sizeFactor clientWidth clientHeight).








End Double.

(** ** Scene invariants *)

Module Scene.
Import Viz Viz.State.

(** What the node and link joins of [update] establish and [ticked]
    relies on: the node groups are bound, in document order, to
    [this.nodes], and there is one line per link. *)
Definition bound (s : State.t) : Prop :=
  map NodeGroup.datum (groups s) = nodes s /\ length (lines s) = length (links s).

(** The part of the state that only [update] and [ticked] write. *)
Definition scene (s : State.t)
    : list Ref * list Link.t * list NodeGroup.t * list Line.t * list Pattern.t :=
  (nodes s, links s, groups s, lines s, defs s).

(** A link one of whose endpoints has no [x] or no [y]. *)
Definition unplaced (st : Store) (link : Link.t) : Prop :=
  Node.x (st (Link.source link)) = None \/ Node.y (st (Link.source link)) = None \/
  Node.x (st (Link.target link)) = None \/ Node.y (st (Link.target link)) = None.

Definition defined (o : option Q) : bool :=
  match o with Some _ => true | None => false end.

Definition placedb (st : Store) (link : Link.t) : bool :=
  defined (Node.x (st (Link.source link))) && defined (Node.y (st (Link.source link)))
  && defined (Node.x (st (Link.target link))) && defined (Node.y (st (Link.target link))).

(** The line that [ticked] leaves for a link. *)
Definition drawn (st : Store) (line : Line.t) (link : Link.t) : Line.t :=
  Line.Build_t (Line.eid line) link
    (Node.x (st (Link.source link))) (Node.y (st (Link.source link)))
    (Node.x (st (Link.target link))) (Node.y (st (Link.target link))).

(** The node group that [ticked] leaves for a node. *)
Definition moved (st : Store) (g : NodeGroup.t) (d : Ref) : NodeGroup.t :=
  NodeGroup.set_transform (Some (Node.x (st d), Node.y (st d)))
    (NodeGroup.set_datum d g).
End Scene.

(** ** The event loop and the resize debounce *)

Module Loop.
Import Viz Viz.State.

Definition isResize (tm : Timer.t) : bool :=
  match Timer.task tm with
  | ResizeTask => true
  | HideTask _ => false
  end.

(** The pending timers that will run the resize handler. *)
Definition resizeTimers (s : State.t) : list Timer.t :=
  List.filter isResize (timers s).

(** Timer handles are unique and below the next handle, and a pending
    resize timer is the one [lastResizeTimeout] names. *)
Definition ok (s : State.t) : Prop :=
  NoDup (map Timer.handle (timers s)) /\
  Forall (fun tm => (Timer.handle tm < nextHandle s)%nat) (timers s) /\
  Forall (fun tm => isResize tm = true -> lastResizeTimeout s = Some (Timer.handle tm))
         (timers s).

(** The part of the state that timers and their bookkeeping live in. *)
Definition loop (s : State.t) : list Timer.t * Handle * option Handle :=
  (timers s, nextHandle s, lastResizeTimeout s).

(** A resize signal: at time [time] the observer reports the new size of
    the svg element with a list of entries. *)
Record Signal := mkSignal {
  time : Z;
  width : Z;
  height : Z;
  entries : list ResizeObserverEntry
}.

(** Time passes until the signal, then the observer's callback runs. *)
Definition signal (sg : Signal) (s : State.t) : State.t :=
  resizeObserved (entries sg)
    (set_clientHeight (height sg) (set_clientWidth (width sg) (advance (time sg) s))).

Definition burst (sgs : list Signal) (s : State.t) : State.t :=
  foldl (fun s sg => signal sg s) s sgs.

(** Every signal carries an entry and comes less than 500 ms after the
    one before it, which came at [t]. *)
Fixpoint closelySpaced (t : Z) (sgs : list Signal) : Prop :=
  match sgs with
  | [] => True
  | sg :: rest =>
      (t <= time sg < t + 500)%Z /\ entries sg <> [] /\ closelySpaced (time sg) rest
  end.

(** The state is the one the callback leaves for the signal [sg]: the
    clock and the size are the signal's and one resize timer is pending,
    due 500 ms after the signal. *)
Definition armed (sg : Signal) (s : State.t) : Prop :=
  ok s /\ now s = time sg /\
  clientWidth s = width sg /\ clientHeight s = height sg /\
  exists h, resizeTimers s = [Timer.Build_t h (time sg + 500) ResizeTask].

(** The last signal of a burst that starts with [sg]. *)
Definition lastSignal (sg : Signal) (rest : list Signal) : Signal :=
  List.last rest sg.
End Loop.

(** ** Views used to state further properties *)

Module Views.
Import Viz Viz.State.

(** The first element of a selection that carries the key [k]. *)
Definition byKey {E} (ekey : E -> string) (k : string) (group : list E) : option E :=
  List.find (fun e => String.eqb (ekey e) k) group.

(** Node ids and link keys are unique within the collections. *)
Definition uniqueKeys (s : State.t) : Prop :=
  NoDup (map (nodeKey (store s)) (nodes s)) /\
  NoDup (map (linkKey (store s)) (links s)).

(** The nodes and links that a sequence of events adds, in order, and
    the number of [update] calls it makes. *)
Definition addedNodes (es : list Event) : list Ref :=
  omap (fun e => match e with AddNode node => Some node | _ => None end) es.

Definition addedLinks (es : list Event) : list Link.t :=
  omap (fun e => match e with AddLink link => Some link | _ => None end) es.

Definition updates (es : list Event) : nat :=
  length (List.filter (fun e => match e with AddNode _ | AddLink _ => true | _ => false end) es).

(** What only [addNode] and [addLink] change: the collections, the
    node array of the simulation and the number of tooltips. *)
Definition collections (s : State.t) : list Ref * list Link.t * list Ref * nat :=
  (nodes s, links s, Simulation.nodes (simulation s), length (body s)).

(** A node with a position and a velocity. *)
Definition placed (n : Node.t) : Prop :=
  is_Some (Node.x n) /\ is_Some (Node.y n) /\ is_Some (Node.vx n) /\ is_Some (Node.vy n).

(** At most one tooltip of [document.body] is visible. *)
Definition atMostOneVisible (s : State.t) : Prop :=
  forall t1 t2 tip1 tip2,
    body s !! t1 = Some tip1 -> Tooltip.visible tip1 = true ->
    body s !! t2 = Some tip2 -> Tooltip.visible tip2 = true ->
    t1 = t2.

(** No tooltip is visible in [s'] that was not visible in [s]. *)
Definition quieter (s s' : State.t) : Prop :=
  forall t tip', body s' !! t = Some tip' -> Tooltip.visible tip' = true ->
                 exists tip, body s !! t = Some tip /\ Tooltip.visible tip = true.

(** Every visible tooltip is the one that [o] names. *)
Definition onlyVisible (o : option TipId) (s : State.t) : Prop :=
  forall t tip, body s !! t = Some tip -> Tooltip.visible tip = true -> o = Some t.

(** Where the pointer is: over no node ([None]), or over a node whose
    listeners use the tooltip [Some (Some t)], or over a node without
    listeners [Some None]. *)
Definition Hover := option (option TipId).

(** The pointer delivers node events in pairs: a node receives
    [mouseover] only when the pointer is over no node, and the next node
    event is the [mouseout] of a node with the same listeners.  Events
    on positions without a node group are not delivered. *)
Fixpoint paired (place : nat -> Q * Q) (hover : Hover) (es : list Event)
    (s : State.t) : Prop :=
  match es with
  | [] => True
  | e :: rest =>
      match e with
      | NodeMouseover i =>
          match groups s !! i with
          | Some g => hover = None /\
                      paired place (Some (NodeGroup.listeners g)) rest (step place e s)
          | None => paired place hover rest (step place e s)
          end
      | NodeMouseout i =>
          match groups s !! i with
          | Some g => hover = Some (NodeGroup.listeners g) /\
                      paired place None rest (step place e s)
          | None => paired place hover rest (step place e s)
          end
      | _ => paired place hover rest (step place e s)
      end
  end.

(** The tooltip that stays visible while the pointer is at [hover]. *)
Definition shown (hover : Hover) (s : State.t) : option TipId :=
  match hover with
  | Some (Some t) => Some t
  | _ => hideTask s
  end.
End Views.

(** ** Concrete scenes used in examples *)

Module Sample.
Import Viz.

Definition nodeA : Node.t :=
  Node.Build_t "a" "a.png" (Some "first") 1%Q 1%Q None None None None None None.
Definition nodeB : Node.t :=
  Node.Build_t "b" "b.png" (Some "second") (65 # 100)%Q (6 # 10)%Q
               None None None None None None.
Definition nodeC : Node.t :=
  Node.Build_t "c" "c.png" None (65 # 100)%Q (6 # 10)%Q None None None None None None.

(** Three objects made by the caller: [a] at reference 0, [b] at 1, and
    [c] everywhere else. *)
Definition objects : Store :=
  fun r => match r with 0 => nodeA | 1 => nodeB | _ => nodeC end.

(** A rational stand-in for d3's initial placement. *)
Definition place (i : nat) : Q * Q := (inject_Z (Z.of_nat i * 10), 0%Q).

Definition empty : State.t := constructor objects 1000 800.
Definition oneNode : State.t := addNode place 0 empty.
Definition twoNodes : State.t := addNode place 1 oneNode.
Definition linked : State.t := addLink place (Link.Build_t 0 1) twoNodes.

(** The simulation has moved [a] to the middle of the viewport ... *)
Definition centred : State.t :=
  step place (Simulate (fun n => Node.set_y (Some 400%Q) (Node.set_x (Some 500%Q) n)) 0)
       oneNode.

(** ... or out of it, to the left. *)
Definition strayed : State.t :=
  step place (Simulate (fun n => Node.set_y (Some 400%Q) (Node.set_x (Some (-5)%Q) n)) 0)
       oneNode.

(** The viewport of the linked scene shrinks to 500 x 400 and the
    debounce timer fires. *)
Definition resized : State.t :=
  run place [Resized 500 400 [Entry]; Advance 500] linked.

(** A link to [c], which was never added as a node. *)
Definition dangling : State.t := addLink place (Link.Build_t 0 2) linked.

(** Three resize signals, 200 ms and 300 ms apart. *)
Definition threeSignals : list Loop.Signal :=
  [Loop.mkSignal 1000 900 700 [Entry];
   Loop.mkSignal 1200 700 600 [Entry];
   Loop.mkSignal 1500 500 400 [Entry]].
End Sample.


(* ================================================================== *)
(** * Part III.  Properties                                            *)
(* ================================================================== *)

(** ** The CV tree *)

Section DataProps.
Import Data.
Local Open Scope Q_scope.

(** Induction on trees, with the hypothesis for every child. *)
Lemma Tree_induction (P : Tree -> Prop) :
  (forall r i ch, Forall P ch -> P (mkTree r i ch)) -> forall t, P t.
Proof.
  intros H. fix IH 1. intros [r i ch]. apply H.
  induction ch as [|c ch IHch]; constructor; [apply IH|exact IHch].
Qed.

Lemma items_mkTree r i ch : items (mkTree r i ch) = i :: concat (map items ch).
Proof.
  simpl. f_equal. induction ch as [|c ch IH]; simpl; [reflexivity|].
  rewrite IH. reflexivity.
Qed.

Lemma Forall_items_mkTree (Q : CVItem.t -> Prop) r i ch :
  Forall Q (items (mkTree r i ch)) <-> Q i /\ Forall (fun c => Forall Q (items c)) ch.
Proof.
  rewrite items_mkTree, Forall_cons. apply and_iff_compat_l.
  induction ch as [|c ch IH]; simpl.
  - split; constructor.
  - rewrite Forall_app, Forall_cons, IH. reflexivity.
Qed.

(** What [walkTree] finds is a subtree: its item is one of the items. *)
Lemma walkTree_item (Q : CVItem.t -> Prop) target :
  forall t p, walkTree target t = Some p -> Forall Q (items t) -> Q (item p).
Proof.
  intros t. induction t as [r i ch IH] using Tree_induction. intros p Hw HQ.
  apply Forall_items_mkTree in HQ as [Hi Hch].
  simpl in Hw. destruct (Nat.eqb r target).
  - injection Hw as <-. exact Hi.
  - induction ch as [|c ch IHch]; [discriminate|].
    apply Forall_cons in IH as [IHc IHrest].
    apply Forall_cons in Hch as [Hc Hrest].
    destruct (walkTree target c) as [res|] eqn:E.
    + injection Hw as <-. apply (IHc _ eq_refl Hc).
    + apply IHch; assumption.
Qed.

(** Pushing a child adds its items and removes none. *)
Lemma pushChild_items (Q : CVItem.t -> Prop) target child :
  Forall Q (items child) ->
  forall t t', pushChild target child t = Some t' ->
               Forall Q (items t) -> Forall Q (items t').
Proof.
  intros Hchild t. induction t as [r i ch IH] using Tree_induction. intros t' Hp HQ.
  apply Forall_items_mkTree in HQ as [Hi Hch].
  simpl in Hp. destruct (Nat.eqb r target).
  - injection Hp as <-. apply Forall_items_mkTree. split; [exact Hi|].
    apply Forall_app. split; [exact Hch|]. constructor; [exact Hchild|constructor].
  - match type of Hp with
    | match ?e with _ => _ end = _ => destruct e as [ch'|] eqn:E; [|discriminate]
    end.
    injection Hp as <-. apply Forall_items_mkTree. split; [exact Hi|].
    clear Hi. revert ch' E.
    induction ch as [|c ch IHch]; intros ch' E; [discriminate|].
    apply Forall_cons in IH as [IHc IHrest].
    apply Forall_cons in Hch as [Hc Hrest].
    destruct (pushChild target child c) as [c'|] eqn:Ec.
    + injection E as <-. constructor; [apply (IHc _ eq_refl Hc)|exact Hrest].
    + match type of E with
      | match ?e with _ => _ end = _ => destruct e as [rest'|] eqn:Er; [|discriminate]
      end.
      injection E as <-. constructor; [exact Hc|]. apply IHch; auto.
Qed.

Lemma newRelSize_positive p : 0 < CVItem.relSize p -> 0 < newRelSize p.
Proof.
  intros H. unfold newRelSize. destruct (2 <=? CVItem.depth p)%nat; [exact H|].
  apply Qmult_lt_0_compat; [exact H|reflexivity].
Qed.

(** [addItem] keeps every item of the tree positive. *)
Lemma addItem_positive info parent s r s' :
  positiveInfo info ->
  addItem info parent s = inr (r, s') ->
  Forall positiveItem (items (tree s)) ->
  Forall positiveItem (items (tree s')).
Proof.
  intros [Hsz Hdist] Hadd Hall. unfold addItem, bind, findItem in Hadd.
  destruct (walkTree parent (tree s)) as [p|] eqn:Ew; [|discriminate].
  match type of Hadd with
  | match ?e with _ => _ end = _ => destruct e as [t'|] eqn:Ep; [|discriminate]
  end.
  injection Hadd as _ <-. simpl.
  destruct (walkTree_item positiveItem _ _ _ Ew Hall) as [Hps Hpd].
  refine (pushChild_items positiveItem _ _ _ _ _ Ep Hall).
  constructor; [|constructor]. split; simpl.
  - destruct (CVInfo.relSize info) as [v|] eqn:E; simpl;
      [apply Hsz; reflexivity|apply newRelSize_positive, Hps].
  - destruct (CVInfo.relDistance info) as [v|] eqn:E; simpl;
      [apply Hdist; reflexivity|].
    apply Qmult_lt_0_compat; [exact Hpd|reflexivity].
Qed.

Lemma positiveItemb_correct i : positiveItemb i = true -> positiveItem i.
Proof.
  unfold positiveItemb, positiveItem. intros H.
  apply andb_true_iff in H as [H1 H2].
  apply Z.ltb_lt in H1, H2. unfold Qlt. simpl. split; lia.
Qed.
End DataProps.

(** ** Geometry configuration *)

Section ConfigProps.
Import Viz Viz.State.
Import PrimFloat.
Local Open Scope Q_scope.

Lemma constructor_config (st : Store) (w h : Z) :
  config (constructor st w h) = configOf (sizeFactor w h).
Proof. reflexivity. Qed.










End ConfigProps.

(** ** Forces *)

Section ForceProps.
Import Viz Viz.State.
Local Open Scope Q_scope.

Lemma Qle_bool_false (a b : Q) : b < a -> Qle_bool a b = false.
Proof.
  intros H. destruct (Qle_bool a b) eqn:E; [|reflexivity].
  apply Qle_bool_iff in E. exfalso. apply (Qlt_not_le _ _ H E).
Qed.

Lemma boundaryForceNode_inside params cfg alpha n :
  strictlyInside params cfg n -> boundaryForceNode params cfg alpha n = n.
Proof.
  intros (xv & yv & Hx & Hy & Hx1 & Hx2 & Hy1 & Hy2).
  unfold discRadius in *. unfold boundaryForceNode. rewrite Hx, Hy.
  destruct (Node.vx n) as [vxv|], (Node.vy n) as [vyv|];
    rewrite ?(Qle_bool_false xv _ Hx1), ?(Qle_bool_false _ xv Hx2),
            ?(Qle_bool_false yv _ Hy1), ?(Qle_bool_false _ yv Hy2);
    reflexivity.
Qed.

(** The force writes [vx] and [vy] only. *)
Lemma boundaryForceNode_frame params cfg alpha n :
  let n' := boundaryForceNode params cfg alpha n in
  Node.x n' = Node.x n /\ Node.y n' = Node.y n /\
  Node.fx n' = Node.fx n /\ Node.fy n' = Node.fy n /\
  Node.id n' = Node.id n /\ Node.relSize n' = Node.relSize n.
Proof.
  destruct n as [i im d rs rd [xv|] [yv|] [vxv|] [vyv|] fxv fyv];
    unfold boundaryForceNode; simpl;
    repeat match goal with |- context [if ?b then _ else _] => destruct b end;
    simpl; repeat split; reflexivity.
Qed.

Lemma modify_same f r (st : Store) : modify f r st r = f (st r).
Proof. unfold modify, write. rewrite Nat.eqb_refl. reflexivity. Qed.

Lemma modify_other f r r' (st : Store) : r' <> r -> modify f r st r' = st r'.
Proof.
  intros H. unfold modify, write.
  destruct (Nat.eqb_spec r' r); [contradiction|reflexivity].
Qed.

(** A property of one object that every single update keeps is kept by
    the whole loop. *)
Lemma modify_loop_invariant (P : Node.t -> Prop) (f : Node.t -> Node.t) (r : Ref) :
  (forall n, P n -> P (f n)) ->
  forall (l : list Ref) (st : Store),
    P (st r) -> P (foldl (fun st r' => modify f r' st) st l r).
Proof.
  intros Hf l. induction l as [|r' l IH]; intros st HP; simpl; [exact HP|].
  apply IH. destruct (Nat.eq_dec r r') as [->|Hne].
  - rewrite modify_same. apply Hf, HP.
  - rewrite modify_other by exact Hne. exact HP.
Qed.

Lemma boundaryForce_inside params cfg alpha simNodes (st : Store) r :
  strictlyInside params cfg (st r) ->
  boundaryForce params cfg alpha simNodes st r = st r.
Proof.
  intros H. unfold boundaryForce.
  apply (modify_loop_invariant (fun n => n = st r)); [|reflexivity].
  intros n ->. apply boundaryForceNode_inside, H.
Qed.

Lemma boundaryForce_frame params cfg alpha simNodes (st : Store) r :
  Node.x (boundaryForce params cfg alpha simNodes st r) = Node.x (st r) /\
  Node.y (boundaryForce params cfg alpha simNodes st r) = Node.y (st r).
Proof.
  unfold boundaryForce.
  apply (modify_loop_invariant
           (fun n => Node.x n = Node.x (st r) /\ Node.y n = Node.y (st r)));
    [|split; reflexivity].
  intros n [Hx Hy].
  destruct (boundaryForceNode_frame params cfg alpha n) as (Hx' & Hy' & _).
  rewrite Hx', Hy'. split; assumption.
Qed.

(** C2.  A node whose disc of radius [r = relSize * circleRadiusUnit]
    lies strictly within [[r, width - r] x [r, height - r]] is left as it
    is by one application of the registered boundary force, for every
    [alpha]: its [vx] and [vy] (and every other field) keep their
    values. *)
Theorem boundary_force_noop_strictly_inside
    (s : State.t) (params : BoundaryParams.t) (alpha : Q) (r : Ref) :
  Simulation.boundary (simulation s) = Some params ->
  strictlyInside params (config s) (store s r) ->
  store (stepBoundaryForce alpha s) r = store s r /\
  Node.vx (store (stepBoundaryForce alpha s) r) = Node.vx (store s r) /\
  Node.vy (store (stepBoundaryForce alpha s) r) = Node.vy (store s r).
Proof.
  intros Hp Hin. unfold stepBoundaryForce. rewrite Hp. simpl.
  rewrite (boundaryForce_inside _ _ _ _ _ _ Hin). repeat split; reflexivity.
Qed.

Lemma boundary_force_noop_strictly_inside_witness :
  let params := BoundaryParams.Build_t 1000 800 (3 # 10) in
  Simulation.boundary (simulation Sample.centred) = Some params /\
  strictlyInside params (config Sample.centred) (store Sample.centred 0%nat) /\
  Node.vx (store (stepBoundaryForce (1 # 2) Sample.centred) 0%nat)
  = Node.vx (store Sample.centred 0%nat).
Proof.
  intros params.
  assert (Hp : Simulation.boundary (simulation Sample.centred) = Some params)
    by reflexivity.
  assert (Hin : strictlyInside params (config Sample.centred) (store Sample.centred 0%nat)).
  { exists 500, 400. vm_compute. repeat split; reflexivity. }
  split; [exact Hp|]. split; [exact Hin|].
  exact (proj1 (proj2 (boundary_force_noop_strictly_inside
                         Sample.centred params (1 # 2) 0%nat Hp Hin))).
Defined.

Lemma stepBoundaryForce_frame (s : State.t) (alpha : Q) (r : Ref) :
  Node.x (store (stepBoundaryForce alpha s) r) = Node.x (store s r) /\
  Node.y (store (stepBoundaryForce alpha s) r) = Node.y (store s r) /\
  Node.relSize (store (stepBoundaryForce alpha s) r) = Node.relSize (store s r) /\
  config (stepBoundaryForce alpha s) = config s /\
  Simulation.boundary (simulation (stepBoundaryForce alpha s))
  = Simulation.boundary (simulation s).
Proof.
  unfold stepBoundaryForce.
  destruct (Simulation.boundary (simulation s)) as [params|] eqn:E;
    [|rewrite E; repeat split; reflexivity].
  simpl. rewrite E. destruct (boundaryForce_frame params (config s) alpha
              (Simulation.nodes (simulation s)) (store s) r) as [Hx Hy].
  repeat split; try assumption.
  unfold boundaryForce.
  apply (modify_loop_invariant
           (fun n => Node.relSize n = Node.relSize (store s r))); [|reflexivity].
  intros n Hn.
  destruct (boundaryForceNode_frame params (config s) alpha n) as (_ & _ & _ & _ & _ & H).
  rewrite H. exact Hn.
Qed.

(** C3.  One application of the boundary force leaves the position of
    every node as it was: [x] and [y] are never written, only [vx] and
    [vy] are corrected.  The force is therefore no clamp: a node that is
    not within [[r, width - r] x [r, height - r]] before the application
    is not within it afterwards either. *)
Theorem boundary_force_never_writes_position (s : State.t) (alpha : Q) :
  (forall r : Ref,
      Node.x (store (stepBoundaryForce alpha s) r) = Node.x (store s r) /\
      Node.y (store (stepBoundaryForce alpha s) r) = Node.y (store s r)) /\
  (forall (r : Ref) (params : BoundaryParams.t),
      Simulation.boundary (simulation s) = Some params ->
      ~ withinBox params (config s) (store s r) ->
      ~ withinBox params (config (stepBoundaryForce alpha s))
                  (store (stepBoundaryForce alpha s) r)).
Proof.
  split.
  - intros r. destruct (stepBoundaryForce_frame s alpha r) as (Hx & Hy & _).
    split; assumption.
  - intros r params _ Hout Hin. apply Hout.
    destruct (stepBoundaryForce_frame s alpha r) as (Hx & Hy & Hrs & Hc & _).
    destruct Hin as (xv & yv & Hxv & Hyv & H).
    exists xv, yv. rewrite <- Hx, <- Hy. split; [exact Hxv|]. split; [exact Hyv|].
    unfold discRadius in *. rewrite Hc, Hrs in H. exact H.
Qed.

Lemma boundary_force_never_writes_position_witness :
  let params := BoundaryParams.Build_t 1000 800 (3 # 10) in
  Node.x (store Sample.strayed 0%nat) = Some (-5) /\
  Node.x (store (stepBoundaryForce 1 Sample.strayed) 0%nat) = Some (-5) /\
  ~ withinBox params (config (stepBoundaryForce 1 Sample.strayed))
              (store (stepBoundaryForce 1 Sample.strayed) 0%nat).
Proof.
  intros params.
  destruct (boundary_force_never_writes_position Sample.strayed 1) as [Hpos Hout].
  split; [reflexivity|]. split.
  - rewrite (proj1 (Hpos 0%nat)). reflexivity.
  - apply (Hout 0%nat params); [reflexivity|].
    intros (xv & yv & Hx & _ & Hlo & _).
    vm_compute in Hx. injection Hx as <-.
    vm_compute in Hlo. apply Hlo. reflexivity.
Defined.

(** The velocity of the stray node is corrected, its position is not. *)
Example boundary_force_pushes_back :
  Node.vx (store Sample.strayed 0%nat) = Some 0 /\
  (exists v, Node.vx (store (stepBoundaryForce 1 Sample.strayed) 0%nat) = Some v /\ v == 207 # 10).
Proof. split; [reflexivity|]. eexists. split; [vm_compute; reflexivity|reflexivity]. Qed.

(** ** Collision radius *)

Lemma collideRadius_padding (cfg : Config.t) (d : Node.t) :
  collideRadius cfg d == discRadius cfg d + 10.
Proof. unfold collideRadius, discRadius. reflexivity. Qed.

(** C4, as stated, fails: for the node [a] of relative size 1 in a
    1000 x 800 viewport the disc has radius 64 and the collision force is
    given the radius 74. *)
Lemma collide_radius_differs_from_disc :
  let cfg := config Sample.oneNode in
  discRadius cfg (store Sample.oneNode 0%nat) == 64 /\
  Simulation.collide (simulation Sample.oneNode) = Some [collideRadius cfg Sample.nodeA] /\
  collideRadius cfg (store Sample.oneNode 0%nat) == 74 /\
  ~ collideRadius cfg (store Sample.oneNode 0%nat)
    == discRadius cfg (store Sample.oneNode 0%nat).
Proof.
  intros cfg. split; [vm_compute; reflexivity|]. split; [vm_compute; reflexivity|].
  split; [vm_compute; reflexivity|].
  intros H. vm_compute in H. discriminate H.
Qed.

(** C4, amended.  The collision force treats every node as a disc of
    radius [relSize * circleRadiusUnit + 10]: the disc of the glossary
    padded by a fixed buffer of 10, so the collision radius is never the
    bare disc radius.  These are the radii that [applyCollideForce]
    registers for the nodes of the simulation. *)
Theorem collide_radius_is_disc_plus_buffer (cfg : Config.t) (d : Node.t) :
  collideRadius cfg d == Node.relSize d * Config.circleRadiusUnit cfg + 10 /\
  collideRadius cfg d == discRadius cfg d + 10 /\
  ~ collideRadius cfg d == discRadius cfg d /\
  (forall s : State.t,
      Simulation.collide (simulation (applyCollideForce s))
      = Some (map (fun r => collideRadius (config s) (store s r))
                  (Simulation.nodes (simulation s)))).
Proof.
  split; [reflexivity|]. split; [apply collideRadius_padding|]. split.
  - rewrite collideRadius_padding. intros H.
    assert (H0 : discRadius cfg d + 10 - discRadius cfg d == 0)
      by (rewrite H; ring).
    ring_simplify in H0. discriminate H0.
  - reflexivity.
Qed.
End ForceProps.

(** ** The resize handler *)

Section ResizeHandlerProps.
Import Viz Viz.State.
Local Open Scope Q_scope.

(** The handler writes the configuration, the four forces of
    [applyAllForces], the temperature and its own bookkeeping; the
    rendered scene and the link force are not among them. *)
Lemma resizeHandler_frame (s : State.t) :
  groups (resizeHandler s) = groups s /\
  lines (resizeHandler s) = lines s /\
  defs (resizeHandler s) = defs s /\
  body (resizeHandler s) = body s /\
  Simulation.link (simulation (resizeHandler s)) = Simulation.link (simulation s).
Proof. repeat split; reflexivity. Qed.

Lemma resizeHandler_effect (s : State.t) :
  let s' := resizeHandler s in
  config s' = configOf (sizeFactor (clientWidth s) (clientHeight s)) /\
  Simulation.alpha (simulation s') = 1 /\
  Simulation.running (simulation s') = true /\
  Simulation.collide (simulation s')
  = Some (map (fun r => collideRadius (config s') (store s r))
              (Simulation.nodes (simulation s))) /\
  Simulation.charge (simulation s') = Some (Config.chargeStrength (config s')) /\
  Simulation.boundary (simulation s')
  = Some (BoundaryParams.Build_t (inject_Z (clientWidth s))
                                 (inject_Z (clientHeight s)) (3 # 10)) /\
  lastResizeTimeout s' = None.
Proof. repeat split; reflexivity. Qed.

(** C5 (the code departs from the claim).  In a 1000 x 800 viewport the
    nodes [a] and [b] are linked; the viewport shrinks to 500 x 400 and
    the debounce timer fires.  The handler runs once, the radius unit
    drops from 64 to 32, the collision and boundary forces are registered
    again and the simulation is reheated to [alpha = 1]; but the circles
    keep the radii 64 and 41.6 instead of 32 and 20.8, the patterns keep
    their position and size, and the link force keeps the distance 144. *)
Theorem resize_leaves_rendered_scene_stale :
  resizeLog Sample.resized = [500%Z] /\
  Config.circleRadiusUnit (config Sample.linked) == 64 /\
  Config.circleRadiusUnit (config Sample.resized) == 32 /\
  Simulation.alpha (simulation Sample.resized) = 1 /\
  (exists radii, Simulation.collide (simulation Sample.resized) = Some radii /\
                 Forall2 Qeq radii [42; 154 # 5]) /\
  map NodeGroup.rImage (groups Sample.resized) = map NodeGroup.rImage (groups Sample.linked) /\
  Forall2 Qeq (map NodeGroup.rImage (groups Sample.resized)) [64; 208 # 5] /\
  Forall2 Qeq (map (fun r => discRadius (config Sample.resized) (store Sample.resized r))
                   (nodes Sample.resized)) [32; 104 # 5] /\
  defs Sample.resized = defs Sample.linked /\
  Forall2 Qeq (map Pattern.width (defs Sample.resized)) [128; 416 # 5] /\
  (exists d, Simulation.link (simulation Sample.resized)
             = Some [(Link.Build_t 0%nat 1%nat, d)] /\ d == 144 /\
             ~ d == Node.relDistance (store Sample.resized 1%nat)
                   * Config.linkDistanceUnit (config Sample.resized)).
Proof.
  split; [vm_compute; reflexivity|]. split; [vm_compute; reflexivity|].
  split; [vm_compute; reflexivity|]. split; [vm_compute; reflexivity|]. split.
  { eexists. split; [vm_compute; reflexivity|]. repeat constructor. }
  split; [vm_compute; reflexivity|]. split.
  { vm_compute. repeat constructor. }
  split.
  { vm_compute. repeat constructor. }
  split; [vm_compute; reflexivity|]. split.
  { vm_compute. repeat constructor. }
  eexists. split; [vm_compute; reflexivity|]. split; [vm_compute; reflexivity|].
  intros H. vm_compute in H. discriminate H.
Qed.
End ResizeHandlerProps.

(** ** The data join and [update] *)

Section JoinProps.
Import Viz Viz.State.
Context {E D : Type}.
Variable eid : E -> nat.
Variable ekey : E -> string.
Variable dkey : D -> string.

(** The join answers for every datum, in the order of the data. *)
Lemma bindData_data (data : list D) (m : gmap string E) :
  map fst (fst (bindData dkey data m)) = data.
Proof.
  revert m. induction data as [|d data IH]; intros m; simpl; [reflexivity|].
  destruct (m !! dkey d) as [node|].
  - specialize (IH (delete (dkey d) m)).
    destruct (bindData dkey data (delete (dkey d) m)) as [r m']. simpl in *.
    rewrite IH. reflexivity.
  - specialize (IH m). destruct (bindData dkey data m) as [r m']. simpl in *.
    rewrite IH. reflexivity.
Qed.

Lemma bindKey_data (group : list E) (data : list D) :
  map fst (fst (bindKey eid ekey dkey group data)) = data.
Proof.
  unfold bindKey. destruct (indexNodes ekey group ∅ []) as [m dup].
  pose proof (bindData_data data m) as H.
  destruct (bindData dkey data m) as [r m']. exact H.
Qed.

Lemma joined_length (setDatum : D -> E -> E) (create : nat -> D -> E)
    (bound : list (D * option E)) (fresh : nat) :
  length (joined setDatum create fresh bound) = length bound.
Proof.
  revert fresh. induction bound as [|[d [node|]] bound IH]; intros fresh; simpl;
    [reflexivity| |]; rewrite IH; reflexivity.
Qed.

(** Every element of the joined selection is bound to its datum. *)
Lemma joined_datum (getDatum : E -> D) (setDatum : D -> E -> E)
    (create : nat -> D -> E) :
  (forall d node, getDatum (setDatum d node) = d) ->
  (forall n d, getDatum (create n d) = d) ->
  forall (bound : list (D * option E)) (fresh : nat),
    map getDatum (joined setDatum create fresh bound) = map fst bound.
Proof.
  intros Hset Hcreate bound.
  induction bound as [|[d [node|]] bound IH]; intros fresh; simpl;
    [reflexivity| |]; rewrite IH, ?Hset, ?Hcreate; reflexivity.
Qed.

Lemma bindIndex_length (setDatum : D -> E -> E) (group : list E) (data : list D) :
  length (bindIndex setDatum group data) = length group.
Proof.
  revert data. induction group as [|node group IH]; intros [|d data]; simpl;
    try reflexivity. rewrite IH. reflexivity.
Qed.

(** With as many elements as data, binding by index pairs them all. *)
Lemma bindIndex_zip (setDatum : D -> E -> E) (group : list E) (data : list D) :
  length group = length data ->
  bindIndex setDatum group data = zip_with (fun node d => setDatum d node) group data.
Proof.
  revert data. induction group as [|node group IH]; intros [|d data] Hlen; simpl;
    try reflexivity; try discriminate Hlen.
  rewrite IH by (simpl in Hlen; lia). reflexivity.
Qed.
End JoinProps.

Section UpdateProps.
Import Viz Viz.State Scene.
Variable place : nat -> Q * Q.

Lemma NodeGroup_datum_set d g : NodeGroup.datum (NodeGroup.set_datum d g) = d.
Proof. reflexivity. Qed.

Lemma Line_datum_set d l : Line.datum (Line.set_datum d l) = d.
Proof. reflexivity. Qed.

(** What [update] does to the collections, the scene and the page. *)
Lemma update_effect (s : State.t) :
  let s' := update place s in
  nodes s' = nodes s /\
  links s' = links s /\
  map NodeGroup.datum (groups s') = nodes s /\
  length (lines s') = length (links s) /\
  body s' = body s ++ [Tooltip.Build_t
                         (nextEid s + length (entering (fst (bindNodes s)))
                          + length (entering (fst (bindNodes s))))
                         false None None] /\
  hideTask s' = hideTask s /\
  timers s' = timers s.
Proof.
  unfold update, reorderLines, reheat, applyLinkForce, simulation_nodes, joinLinks,
    joinNodes. simpl. repeat split.
  - rewrite (joined_datum NodeGroup.datum); [|reflexivity|reflexivity].
    apply bindKey_data.
  - rewrite length_rev, joined_length.
    rewrite <- (length_map fst). unfold bindLinks. simpl.
    rewrite bindKey_data. reflexivity.
Qed.

(** C6 (the code departs from the claim).  Every call of [update]
    appends one more tooltip element to [document.body], also when no
    node enters.  In the scene of the two linked nodes [a] and [b], a
    second call of [update] with the same nodes and links leaves the node
    groups, the lines and the patterns as they are (same elements, none
    created, none removed) and adds a fourth tooltip, a new element. *)
Theorem update_again_appends_a_tooltip :
  (forall s : State.t, length (body (update place s)) = S (length (body s))) /\
  (let s := Sample.linked in
   let s' := update Sample.place s in
   nodes s' = nodes s /\ links s' = links s /\
   map NodeGroup.eid (groups s') = map NodeGroup.eid (groups s) /\
   map Line.eid (lines s') = map Line.eid (lines s) /\
   map Pattern.eid (defs s') = map Pattern.eid (defs s) /\
   map Tooltip.eid (body s) = [2; 5; 6]%nat /\
   map Tooltip.eid (body s') = [2; 5; 6; 8]%nat /\
   nextEid s = 8%nat).
Proof.
  split.
  - intros s. destruct (update_effect s) as (_ & _ & _ & _ & Hb & _).
    rewrite Hb, length_app. simpl. lia.
  - vm_compute. repeat split; reflexivity.
Qed.
End UpdateProps.

(** ** Events that do not touch the scene *)

Section SceneFrame.
Import Viz Viz.State Scene.

Lemma scene_callHideTask f s : scene (callHideTask f s) = scene s.
Proof. destruct f; reflexivity. Qed.

Lemma scene_clearTimeout h s : scene (clearTimeout h s) = scene s.
Proof. destruct h; reflexivity. Qed.

Lemma scene_fire tm s : scene (fire tm s) = scene s.
Proof.
  unfold fire. destruct (Timer.task tm) as [|f]; [reflexivity|].
  rewrite scene_callHideTask. reflexivity.
Qed.

Lemma scene_runTimers rounds t s : scene (runTimers rounds t s) = scene s.
Proof.
  revert s. induction rounds as [|rounds IH]; intros s; simpl; [reflexivity|].
  destruct (earliest (dueBy t (timers s))) as [tm|]; [|reflexivity].
  rewrite IH. apply scene_fire.
Qed.

Lemma scene_advance t s : scene (advance t s) = scene s.
Proof. unfold advance. apply (scene_runTimers _ t s). Qed.

Lemma scene_resizeEntry s : scene (resizeEntry s) = scene s.
Proof. unfold resizeEntry. destruct (lastResizeTimeout s); reflexivity. Qed.

Lemma scene_resizeObserved entries s : scene (resizeObserved entries s) = scene s.
Proof.
  unfold resizeObserved. revert s.
  induction entries as [|e entries IH]; intros s; simpl; [reflexivity|].
  rewrite IH. apply scene_resizeEntry.
Qed.

Lemma scene_nodeMouseover g s : scene (nodeMouseover g s) = scene s.
Proof.
  unfold nodeMouseover. destruct (NodeGroup.listeners g) as [t|]; [|reflexivity].
  unfold withTip at 1. unfold scene at 1. simpl.
  change (scene (callHideTask
                   (hideTask (withTip t (Tooltip.setData (NodeGroup.innerDatum g)
                                 (Config.circleRadiusUnit
                                    (config (clearTimeout (showTimeoutOf t s) s))))
                                (clearTimeout (showTimeoutOf t s) s)))
                   (withTip t (Tooltip.setData (NodeGroup.innerDatum g)
                                 (Config.circleRadiusUnit
                                    (config (clearTimeout (showTimeoutOf t s) s))))
                      (clearTimeout (showTimeoutOf t s) s))) = scene s).
  rewrite scene_callHideTask. unfold withTip. unfold scene at 1. simpl.
  apply (scene_clearTimeout (showTimeoutOf t s) s).
Qed.

Lemma scene_nodeMouseout g s : scene (nodeMouseout g s) = scene s.
Proof. unfold nodeMouseout. destruct (NodeGroup.listeners g); reflexivity. Qed.

Lemma scene_tipMouseout t s : scene (tipMouseout t s) = scene s.
Proof. unfold tipMouseout. destruct (body s !! t); reflexivity. Qed.

Lemma scene_stepBoundaryForce alpha s : scene (stepBoundaryForce alpha s) = scene s.
Proof.
  unfold stepBoundaryForce. destruct (Simulation.boundary (simulation s)); reflexivity.
Qed.

Lemma scene_dragstarted a ex ey d s : scene (dragstarted a ex ey d s) = scene s.
Proof. destruct a; reflexivity. Qed.

Lemma scene_dragended a d s : scene (dragended a d s) = scene s.
Proof. destruct a; reflexivity. Qed.

Lemma bound_scene s s' : scene s' = scene s -> bound s -> bound s'.
Proof.
  unfold scene, bound. intros H. injection H as Hn Hl Hg Hli _.
  rewrite Hn, Hl, Hg, Hli. exact id.
Qed.
End SceneFrame.

(** ** [ticked] *)

Section TickedProps.
Import Viz Viz.State Scene.
Variable place : nat -> Q * Q.

Lemma attrLines_length n value setAttr ls :
  length (snd (attrLines n value setAttr ls)) = length ls.
Proof.
  revert n. induction ls as [|l ls IH]; intros [|n]; simpl; try reflexivity.
  destruct (value (Line.datum l)); [|reflexivity].
  specialize (IH n). destruct (attrLines n value setAttr ls) as [o rest].
  simpl in *. rewrite IH. reflexivity.
Qed.

(** One [attr] pass over all the lines: it ends normally, with the
    attribute written on every line, exactly when the value is defined
    for every datum; otherwise it throws. *)
Lemma attrLines_spec value setAttr :
  (forall o l, Line.datum (setAttr o l) = Line.datum l) ->
  forall ls,
    (forallb (fun d => defined (value d)) (map Line.datum ls) = true ->
     attrLines (length ls) value setAttr ls
     = (Normal, map (fun l => setAttr (value (Line.datum l)) l) ls)) /\
    (forallb (fun d => defined (value d)) (map Line.datum ls) = false ->
     fst (attrLines (length ls) value setAttr ls) = Throw AssertionError).
Proof.
  intros Hd ls. induction ls as [|l ls [IHn IHt]]; simpl.
  - split; [reflexivity|discriminate].
  - destruct (value (Line.datum l)) as [v|] eqn:E; simpl.
    + split; intros H.
      * rewrite (IHn H). reflexivity.
      * specialize (IHt H).
        destruct (attrLines (length ls) value setAttr ls) as [o rest].
        exact IHt.
    + split; [discriminate|reflexivity].
Qed.

Lemma map_datum_setAttr (setAttr : option Q -> Line.t -> Line.t) (f : Line.t -> option Q) ls :
  (forall o l, Line.datum (setAttr o l) = Line.datum l) ->
  map Line.datum (map (fun l => setAttr (f l) l) ls) = map Line.datum ls.
Proof.
  intros Hd. rewrite map_map. apply map_ext. intros l. apply Hd.
Qed.

Lemma selectLinks_datum s :
  length (lines s) = length (links s) -> map Line.datum (selectLinks s) = links s.
Proof.
  unfold selectLinks. generalize (links s). induction (lines s) as [|l ls IH];
    intros [|d ds] Hlen; simpl; try reflexivity; try discriminate Hlen.
  rewrite IH by (simpl in Hlen; lia). reflexivity.
Qed.

Lemma forallb_placedb st (ds : list Link.t) :
  forallb (placedb st) ds
  = forallb (fun d => defined (Node.x (st (Link.source d)))) ds
    && forallb (fun d => defined (Node.y (st (Link.source d)))) ds
    && forallb (fun d => defined (Node.x (st (Link.target d)))) ds
    && forallb (fun d => defined (Node.y (st (Link.target d)))) ds.
Proof.
  induction ds as [|d ds IH]; simpl; [reflexivity|]. rewrite IH. unfold placedb.
  repeat match goal with |- context [defined ?o] => destruct (defined o) end;
    simpl; try reflexivity;
    repeat match goal with |- context [forallb ?f ds] => destruct (forallb f ds) end;
    reflexivity.
Qed.

Lemma placedb_unplaced st d : placedb st d = false <-> unplaced st d.
Proof.
  unfold placedb, unplaced, defined.
  destruct (Node.x (st (Link.source d))), (Node.y (st (Link.source d))),
    (Node.x (st (Link.target d))), (Node.y (st (Link.target d))); simpl;
    split; intros H; try discriminate H; try reflexivity; auto;
    destruct H as [H|[H|[H|H]]]; discriminate H.
Qed.

Lemma forallb_placedb_false st (ds : list Link.t) :
  forallb (placedb st) ds = false <-> exists d, d ∈ ds /\ unplaced st d.
Proof.
  induction ds as [|d ds IH]; simpl.
  - split; [discriminate|]. intros (d & Hd & _). inversion Hd.
  - rewrite andb_false_iff, IH, placedb_unplaced. split.
    + intros [H|(d' & Hd' & H)].
      * exists d. split; [constructor|exact H].
      * exists d'. split; [constructor; exact Hd'|exact H].
    + intros (d' & Hd' & H). apply elem_of_cons in Hd' as [->|Hd'].
      * left. exact H.
      * right. exists d'. split; assumption.
Qed.

Lemma drawn_zip st (ls : list Line.t) (ds : list Link.t) :
  map (fun l => Line.set_y2 (Node.y (st (Link.target (Line.datum l)))) l)
    (map (fun l => Line.set_x2 (Node.x (st (Link.target (Line.datum l)))) l)
       (map (fun l => Line.set_y1 (Node.y (st (Link.source (Line.datum l)))) l)
          (map (fun l => Line.set_x1 (Node.x (st (Link.source (Line.datum l)))) l)
             (zip_with (fun node d => Line.set_datum d node) ls ds))))
  = zip_with (drawn st) ls ds.
Proof.
  revert ds. induction ls as [|l ls IH]; intros [|d ds]; simpl; try reflexivity.
  rewrite IH. reflexivity.
Qed.

Lemma attrTransform_zip st (gs : list NodeGroup.t) (ds : list Ref) :
  length gs = length ds ->
  attrTransform (length ds) st (zip_with (fun node d => NodeGroup.set_datum d node) gs ds)
  = zip_with (moved st) gs ds.
Proof.
  revert ds. induction gs as [|g gs IH]; intros [|d ds] Hlen; simpl;
    try reflexivity; try discriminate Hlen.
  rewrite IH by (simpl in Hlen; lia). reflexivity.
Qed.

(** [ticked] on a scene that [update] has bound. *)
Lemma ticked_spec s :
  bound s ->
  (forallb (placedb (store s)) (links s) = true ->
   ticked s
   = (Normal,
      set_groups (zip_with (moved (store s)) (groups s) (nodes s))
        (set_lines (zip_with (drawn (store s)) (lines s) (links s)) s))) /\
  (forallb (placedb (store s)) (links s) = false ->
   fst (ticked s) = Throw AssertionError).
Proof.
  intros [Hg Hl].
  pose proof (selectLinks_datum s Hl) as Hd0.
  assert (Hlen0 : length (selectLinks s) = length (links s)).
  { unfold selectLinks. rewrite bindIndex_length. exact Hl. }
  rewrite forallb_placedb. unfold ticked. rewrite <- Hlen0.
  set (st := store s). set (ls0 := selectLinks s) in *.
  destruct (attrLines_spec (fun d => Node.x (st (Link.source d))) Line.set_x1
              (fun _ _ => eq_refl) ls0) as [N1 T1].
  rewrite Hd0 in N1, T1.
  destruct (forallb (fun d => defined (Node.x (st (Link.source d)))) (links s));
    simpl; [|split; [discriminate|]; intros _;
             destruct (attrLines _ _ Line.set_x1 ls0) as [o r];
             simpl in *; rewrite (T1 eq_refl); reflexivity].
  rewrite (N1 eq_refl). simpl. clear N1 T1.
  set (ls1 := map _ ls0).
  assert (Hd1 : map Line.datum ls1 = links s).
  { unfold ls1. rewrite (map_datum_setAttr Line.set_x1); [exact Hd0|reflexivity]. }
  assert (Hlen1 : length ls0 = length ls1) by (unfold ls1; rewrite length_map; reflexivity).
  rewrite Hlen1.
  destruct (attrLines_spec (fun d => Node.y (st (Link.source d))) Line.set_y1
              (fun _ _ => eq_refl) ls1) as [N2 T2].
  rewrite Hd1 in N2, T2.
  destruct (forallb (fun d => defined (Node.y (st (Link.source d)))) (links s));
    simpl; [|split; [discriminate|]; intros _;
             destruct (attrLines _ _ Line.set_y1 ls1) as [o r];
             simpl in *; rewrite (T2 eq_refl); reflexivity].
  rewrite (N2 eq_refl). simpl. clear N2 T2.
  set (ls2 := map _ ls1).
  assert (Hd2 : map Line.datum ls2 = links s).
  { unfold ls2. rewrite (map_datum_setAttr Line.set_y1); [exact Hd1|reflexivity]. }
  assert (Hlen2 : length ls1 = length ls2) by (unfold ls2; rewrite length_map; reflexivity).
  rewrite Hlen2.
  destruct (attrLines_spec (fun d => Node.x (st (Link.target d))) Line.set_x2
              (fun _ _ => eq_refl) ls2) as [N3 T3].
  rewrite Hd2 in N3, T3.
  destruct (forallb (fun d => defined (Node.x (st (Link.target d)))) (links s));
    simpl; [|split; [discriminate|]; intros _;
             destruct (attrLines _ _ Line.set_x2 ls2) as [o r];
             simpl in *; rewrite (T3 eq_refl); reflexivity].
  rewrite (N3 eq_refl). simpl. clear N3 T3.
  set (ls3 := map _ ls2).
  assert (Hd3 : map Line.datum ls3 = links s).
  { unfold ls3. rewrite (map_datum_setAttr Line.set_x2); [exact Hd2|reflexivity]. }
  assert (Hlen3 : length ls2 = length ls3) by (unfold ls3; rewrite length_map; reflexivity).
  rewrite Hlen3.
  destruct (attrLines_spec (fun d => Node.y (st (Link.target d))) Line.set_y2
              (fun _ _ => eq_refl) ls3) as [N4 T4].
  rewrite Hd3 in N4, T4.
  destruct (forallb (fun d => defined (Node.y (st (Link.target d)))) (links s));
    simpl; [|split; [discriminate|]; intros _;
             destruct (attrLines _ _ Line.set_y2 ls3) as [o r];
             simpl in *; rewrite (T4 eq_refl); reflexivity].
  rewrite (N4 eq_refl). split; [intros _|discriminate].
  unfold ls3, ls2, ls1, ls0, selectLinks, selectNodes.
  rewrite (bindIndex_zip Line.set_datum _ _ Hl), drawn_zip.
  assert (Hgl : length (groups s) = length (nodes s)).
  { rewrite <- Hg, length_map. reflexivity. }
  rewrite (bindIndex_zip NodeGroup.set_datum _ _ Hgl), attrTransform_zip by exact Hgl.
  reflexivity.
Qed.

Lemma andThen_length r k :
  (forall ls, length (snd (k ls)) = length ls) ->
  length (snd (andThen r k)) = length (snd r).
Proof. intros Hk. destruct r as [[|f] ls]; simpl; [apply Hk|reflexivity]. Qed.

(** [ticked] creates and removes nothing, whichever way it ends. *)
Lemma bound_ticked s : bound s -> bound (snd (ticked s)).
Proof.
  intros Hb. destruct (ticked_spec s Hb) as [Hn Ht].
  destruct (forallb (placedb (store s)) (links s)).
  - rewrite (Hn eq_refl). destruct Hb as [Hg Hl]. split; simpl.
    + rewrite <- Hg at 2.
      assert (Hgl : length (groups s) = length (nodes s))
        by (rewrite <- Hg, length_map; reflexivity).
      clear Hn Ht Hl. revert Hg Hgl. generalize (nodes s).
      induction (groups s) as [|g gs IH]; intros [|d ds] Hg Hgl; simpl;
        try reflexivity; try discriminate Hgl.
      simpl in Hg. injection Hg as Hd Hg. simpl in Hgl.
      rewrite (IH ds Hg) by lia. rewrite Hd. reflexivity.
    + rewrite length_zip_with. lia.
  - specialize (Ht eq_refl). clear Hn. unfold ticked in *.
    match goal with
    | H : fst (match ?r with _ => _ end) = _ |- _ =>
        assert (Hlen : length (snd r) = length (lines s));
        [|destruct r as [[|f] ls]; [discriminate H|]]
    end.
    { rewrite andThen_length.
      - rewrite attrLines_length. unfold selectLinks. apply bindIndex_length.
      - intros ls. rewrite andThen_length; [apply attrLines_length|].
        intros ls'. rewrite andThen_length; [apply attrLines_length|].
        intros ls''. apply attrLines_length. }
    destruct Hb as [Hg Hl]. split; simpl; [exact Hg|].
    simpl in Hlen. rewrite Hlen. exact Hl.
Qed.

Lemma bound_constructor st w h : bound (constructor st w h).
Proof. split; reflexivity. Qed.

Lemma bound_update s : bound (update place s).
Proof.
  destruct (update_effect place s) as (Hn & Hl & Hg & Hli & _).
  split; [rewrite Hn; exact Hg|rewrite Hl; exact Hli].
Qed.

(** Every event keeps the scene bound to the collections. *)
Lemma bound_step e s : bound s -> bound (step place e s).
Proof.
  intros Hb. destruct e; simpl;
    try (apply bound_update);
    try (apply bound_ticked; exact Hb);
    try (refine (bound_scene s _ _ Hb)).
  - reflexivity.
  - apply scene_stepBoundaryForce.
  - apply scene_dragstarted.
  - reflexivity.
  - apply scene_dragended.
  - rewrite scene_resizeObserved. reflexivity.
  - apply scene_advance.
  - unfold onGroup. destruct (groups s !! i); [apply scene_nodeMouseover|reflexivity].
  - unfold onGroup. destruct (groups s !! i); [apply scene_nodeMouseout|reflexivity].
  - apply scene_clearTimeout.
  - apply scene_tipMouseout.
Qed.

Lemma bound_run es s : bound s -> bound (run place es s).
Proof.
  unfold run. revert s. induction es as [|e es IH]; intros s Hb; simpl; [exact Hb|].
  apply IH, bound_step, Hb.
Qed.

(** X14.  In every state that the visualizer reaches from its
    construction, the tick callback ends in a thrown [AssertionError]
    if and only if some link has an endpoint whose [x] or [y] is
    undefined.  Otherwise it ends normally, having bound the [i]-th line
    to the [i]-th link with its endpoints set to [source.x], [source.y],
    [target.x], [target.y], and the [i]-th node group to the [i]-th node
    with the transform [translate(x, y)]; there is one line per link and
    one group per node.  The fault is an outcome of the call (a throw),
    not a value the callback returns. *)
Theorem ticked_throws_iff_endpoint_unplaced
    (st : Store) (w h : Z) (es : list Event) :
  let s := run place es (constructor st w h) in
  (fst (ticked s) = Throw AssertionError
   <-> exists link, link ∈ links s /\ unplaced (store s) link) /\
  (fst (ticked s) = Normal
   <-> forall link, link ∈ links s -> ~ unplaced (store s) link) /\
  (fst (ticked s) = Normal ->
   lines (snd (ticked s)) = zip_with (drawn (store s)) (lines s) (links s) /\
   length (lines s) = length (links s) /\
   groups (snd (ticked s)) = zip_with (moved (store s)) (groups s) (nodes s) /\
   length (groups s) = length (nodes s)).
Proof.
  intros s.
  assert (Hb : bound s) by apply bound_run, bound_constructor.
  destruct (ticked_spec s Hb) as [Hn Ht].
  pose proof (forallb_placedb_false (store s) (links s)) as Hex.
  destruct (forallb (placedb (store s)) (links s)).
  - specialize (Hn eq_refl). rewrite Hn. simpl. split; [|split].
    + split; [discriminate|]. intros H. apply Hex in H. discriminate H.
    + split; [|reflexivity]. intros _ link Hin Hun.
      assert (H : true = false) by (apply Hex; exists link; split; assumption).
      discriminate H.
    + intros _. destruct Hb as [Hg Hl]. repeat split; try reflexivity; [exact Hl|].
      rewrite <- Hg, length_map. reflexivity.
  - specialize (Ht eq_refl). rewrite Ht. split; [|split].
    + split; [intros _; apply Hex; reflexivity|reflexivity].
    + split; [discriminate|]. intros H.
      destruct (proj1 Hex eq_refl) as (link & Hin & Hun).
      destruct (H link Hin Hun).
    + discriminate.
Qed.

(** Both outcomes occur: the linked scene ticks normally, and a link to
    an object that was never added as a node makes the callback throw,
    after it has written the [x1], [y1] of both lines. *)
Example ticked_outcomes :
  fst (ticked Sample.linked) = Normal /\
  map Line.x2 (lines (snd (ticked Sample.linked))) = [Some (inject_Z 10)] /\
  fst (ticked Sample.dangling) = Throw AssertionError /\
  map Line.x1 (lines (snd (ticked Sample.dangling))) = [Some (inject_Z 0); Some (inject_Z 0)] /\
  map Line.y2 (lines (snd (ticked Sample.dangling))) = [None; None].
Proof. vm_compute. repeat split; reflexivity. Qed.
End TickedProps.

(** ** Timers *)

Section TimerProps.
Import Viz Viz.State Loop.

Lemma timers_clearTimeout h s :
  timers (clearTimeout (Some h) s)
  = List.filter (fun t => negb (Nat.eqb (Timer.handle t) h)) (timers s).
Proof. reflexivity. Qed.

Lemma In_cleared tm h (l : list Timer.t) :
  In tm (List.filter (fun t => negb (Nat.eqb (Timer.handle t) h)) l)
  <-> In tm l /\ Timer.handle tm <> h.
Proof.
  rewrite filter_In. apply and_iff_compat_l.
  destruct (Nat.eqb_spec (Timer.handle tm) h); simpl; split; intros H;
    try discriminate; try contradiction; auto.
Qed.

Lemma NoDup_cleared h (l : list Timer.t) :
  NoDup (map Timer.handle l) ->
  NoDup (map Timer.handle (List.filter (fun t => negb (Nat.eqb (Timer.handle t) h)) l)).
Proof.
  induction l as [|tm l IH]; simpl; intros Hnd; [constructor|].
  apply NoDup_cons in Hnd as [Hnotin Hnd].
  destruct (negb (Nat.eqb (Timer.handle tm) h)); simpl; [|apply IH, Hnd].
  apply NoDup_cons. split; [|apply IH, Hnd].
  intros Hin. apply Hnotin. apply list_elem_of_In in Hin. apply list_elem_of_In.
  apply in_map_iff in Hin as (x & Hx & Hin). apply In_cleared in Hin as [Hin _].
  apply in_map_iff. exists x. split; assumption.
Qed.

Lemma length_cleared tm (l : list Timer.t) :
  In tm l ->
  (length (List.filter (fun t => negb (Nat.eqb (Timer.handle t) (Timer.handle tm))) l)
   < length l)%nat.
Proof.
  induction l as [|x l IH]; simpl; intros Hin; [contradiction|].
  destruct Hin as [->|Hin].
  - rewrite Nat.eqb_refl. simpl.
    pose proof (filter_length_le
                  (fun t => negb (Nat.eqb (Timer.handle t) (Timer.handle tm))) l).
    lia.
  - specialize (IH Hin).
    destruct (negb (Nat.eqb (Timer.handle x) (Timer.handle tm))); simpl; lia.
Qed.

(** With unique handles, a timer is known by its handle. *)
Lemma same_handle (l : list Timer.t) a b :
  NoDup (map Timer.handle l) -> In a l -> In b l ->
  Timer.handle a = Timer.handle b -> a = b.
Proof.
  induction l as [|x l IH]; simpl; intros Hnd Ha Hb Heq; [contradiction|].
  apply NoDup_cons in Hnd as [Hnotin Hnd].
  destruct Ha as [->|Ha], Hb as [->|Hb]; auto.
  - exfalso. apply Hnotin. apply list_elem_of_In, in_map_iff.
    exists b. split; [symmetry; exact Heq|exact Hb].
  - exfalso. apply Hnotin. apply list_elem_of_In, in_map_iff.
    exists a. split; [exact Heq|exact Ha].
Qed.

(** Clearing a handle leaves the resize timers with another handle. *)
Lemma resize_cleared h (l : list Timer.t) :
  List.filter isResize (List.filter (fun t => negb (Nat.eqb (Timer.handle t) h)) l)
  = List.filter (fun t => negb (Nat.eqb (Timer.handle t) h)) (List.filter isResize l).
Proof.
  induction l as [|x l IH]; simpl; [reflexivity|].
  destruct (isResize x) eqn:Er, (negb (Nat.eqb (Timer.handle x) h)) eqn:Eh; simpl;
    rewrite ?Er, ?Eh, IH; reflexivity.
Qed.

Lemma filter_nil_iff {A} (p : A -> bool) (l : list A) :
  List.filter p l = [] <-> forall x, In x l -> p x = false.
Proof.
  induction l as [|a l IH]; simpl.
  - split; [intros _ x []|reflexivity].
  - destruct (p a) eqn:E.
    + split; [discriminate|]. intros H. rewrite (H a) in E by (left; reflexivity).
      discriminate E.
    + rewrite IH. split.
      * intros H x [->|Hx]; [exact E|apply H, Hx].
      * intros H x Hx. apply H. right. exact Hx.
Qed.

(** [earliest] picks an element, and none is due before it. *)
Lemma earliest_spec (l : list Timer.t) tm :
  earliest l = Some tm ->
  In tm l /\ forall x, In x l -> (Timer.due tm <= Timer.due x)%Z.
Proof.
  revert tm. induction l as [|a l IH]; simpl; intros tm H; [discriminate|].
  destruct (earliest l) as [tm'|] eqn:E.
  - destruct (IH tm' eq_refl) as [Hin Hmin].
    destruct (Z.ltb_spec (Timer.due tm') (Timer.due a)); injection H as <-.
    + split; [right; exact Hin|]. intros x [<-|Hx]; [lia|apply Hmin, Hx].
    + split; [left; reflexivity|]. intros x [<-|Hx]; [lia|].
      specialize (Hmin x Hx). lia.
  - injection H as <-. split; [left; reflexivity|].
    intros x [<-|Hx]; [lia|]. destruct l; [contradiction|]. simpl in E.
    destruct (earliest l); [destruct (_ <? _)%Z|]; discriminate E.
Qed.

Lemma earliest_none (l : list Timer.t) : earliest l = None -> l = [].
Proof.
  destruct l as [|a l]; [reflexivity|]. simpl.
  destruct (earliest l); [destruct (_ <? _)%Z|]; discriminate.
Qed.

Lemma In_dueBy tm t l : In tm (dueBy t l) <-> In tm l /\ (Timer.due tm <= t)%Z.
Proof. unfold dueBy. rewrite filter_In, Z.leb_le. reflexivity. Qed.

Lemma timers_fire tm s :
  timers (fire tm s)
  = List.filter (fun t => negb (Nat.eqb (Timer.handle t) (Timer.handle tm))) (timers s).
Proof.
  unfold fire. destruct (Timer.task tm) as [|[t|]]; reflexivity.
Qed.

(** An invariant of single firings is an invariant of [runTimers]. *)
Lemma runTimers_invariant (P : State.t -> Prop) t :
  (forall s tm, P s -> earliest (dueBy t (timers s)) = Some tm -> P (fire tm s)) ->
  forall rounds s, P s -> P (runTimers rounds t s).
Proof.
  intros Hfire rounds. induction rounds as [|rounds IH]; intros s HP; simpl; [exact HP|].
  destruct (earliest (dueBy t (timers s))) as [tm|] eqn:E; [|exact HP].
  apply IH, (Hfire s tm HP E).
Qed.

(** As many rounds as there are pending timers fire every timer that is
    due: none is left behind. *)
Lemma runTimers_complete t rounds :
  forall s, (length (timers s) <= rounds)%nat ->
            dueBy t (timers (runTimers rounds t s)) = [].
Proof.
  induction rounds as [|rounds IH]; intros s Hlen; simpl.
  - destruct (timers s); [reflexivity|simpl in Hlen; lia].
  - destruct (earliest (dueBy t (timers s))) as [tm|] eqn:E.
    + apply IH. rewrite timers_fire.
      apply earliest_spec in E as [Hin _]. apply In_dueBy in Hin as [Hin _].
      pose proof (length_cleared tm (timers s) Hin). lia.
    + apply earliest_none, E.
Qed.

Lemma advance_complete t s : dueBy t (timers (advance t s)) = [].
Proof. unfold advance. simpl. apply runTimers_complete. lia. Qed.
End TimerProps.

(** ** The event loop keeps its bookkeeping *)

Section LoopProps.
Import Viz Viz.State Loop.
Variable place : nat -> Q * Q.

Lemma ok_loop s s' : loop s' = loop s -> ok s -> ok s'.
Proof.
  unfold loop, ok. intros H. injection H as Ht Hn Hl. rewrite Ht, Hn, Hl. exact id.
Qed.

Lemma ok_clearTimeout h s : ok s -> ok (clearTimeout h s).
Proof.
  destruct h as [h|]; [|exact id]. intros (Hnd & Hlt & Hre). unfold ok.
  rewrite timers_clearTimeout. split; [apply NoDup_cleared, Hnd|].
  split; apply Forall_forall; intros tm Hin; apply list_elem_of_In, In_cleared in Hin;
    destruct Hin as [Hin _]; apply list_elem_of_In in Hin.
  - apply (proj1 (Forall_forall _ _) Hlt tm Hin).
  - apply (proj1 (Forall_forall _ _) Hre tm Hin).
Qed.

Lemma ok_setTimeout_hide f delay s : ok s -> ok (snd (setTimeout (HideTask f) delay s)).
Proof.
  intros (Hnd & Hlt & Hre). unfold ok, setTimeout. simpl.
  rewrite Forall_forall in Hlt. rewrite Forall_forall in Hre.
  split; [|split].
  - rewrite map_app. simpl. apply NoDup_app. split; [exact Hnd|]. split.
    + intros h Hin Hin'. apply list_elem_of_singleton in Hin'. subst h.
      apply list_elem_of_In, in_map_iff in Hin as (tm & Hh & Hin).
      apply list_elem_of_In in Hin. specialize (Hlt tm Hin). lia.
    + apply NoDup_singleton.
  - apply Forall_app. split.
    + apply Forall_forall. intros tm Hin. specialize (Hlt tm Hin). lia.
    + constructor; [simpl; lia|constructor].
  - apply Forall_app. split.
    + apply Forall_forall. intros tm Hin. apply (Hre tm Hin).
    + constructor; [discriminate|constructor].
Qed.

(** After one iteration of the observer's loop exactly one resize timer
    is pending, due 500 ms from now. *)
Lemma resizeEntry_arms s :
  ok s ->
  ok (resizeEntry s) /\
  resizeTimers (resizeEntry s) = [Timer.Build_t (nextHandle s) (now s + 500) ResizeTask] /\
  now (resizeEntry s) = now s /\
  resizeLog (resizeEntry s) = resizeLog s /\
  clientWidth (resizeEntry s) = clientWidth s /\
  clientHeight (resizeEntry s) = clientHeight s.
Proof.
  intros Hok.
  assert (Hok1 : ok (clearTimeout (lastResizeTimeout s) s)) by apply ok_clearTimeout, Hok.
  assert (Hnone : List.filter isResize (timers (clearTimeout (lastResizeTimeout s) s)) = []).
  { destruct Hok as (_ & _ & Hre). rewrite Forall_forall in Hre.
    apply filter_nil_iff. intros tm Hin.
    destruct (isResize tm) eqn:E; [exfalso|reflexivity].
    destruct (lastResizeTimeout s) as [h|] eqn:El.
    - rewrite timers_clearTimeout in Hin. apply In_cleared in Hin as [Hin Hne].
      apply list_elem_of_In in Hin. specialize (Hre tm Hin E). congruence.
    - apply list_elem_of_In in Hin. specialize (Hre tm Hin E). discriminate Hre. }
  assert (Heq : resizeEntry s
                = set_lastResizeTimeout (Some (nextHandle s))
                    (snd (setTimeout ResizeTask 500
                            (clearTimeout (lastResizeTimeout s) s)))).
  { unfold resizeEntry. destruct (lastResizeTimeout s); reflexivity. }
  rewrite Heq. clear Heq.
  set (s1 := clearTimeout (lastResizeTimeout s) s) in *.
  assert (Hs1 : nextHandle s1 = nextHandle s /\ now s1 = now s)
    by (unfold s1; destruct (lastResizeTimeout s); split; reflexivity).
  destruct Hs1 as [Hn1 Hnow1].
  destruct Hok1 as (Hnd & Hlt & Hre).
  rewrite Forall_forall in Hlt.
  split; [|split; [|split; [|split; [|split]]]].
  - unfold ok, setTimeout. simpl. rewrite Hn1. split; [|split].
    + rewrite map_app. simpl. apply NoDup_app. split; [exact Hnd|]. split.
      * intros h Hin Hin'. apply list_elem_of_singleton in Hin'. subst h.
        apply list_elem_of_In, in_map_iff in Hin as (tm & Hh & Hin).
        apply list_elem_of_In in Hin. specialize (Hlt tm Hin). lia.
      * apply NoDup_singleton.
    + apply Forall_app. split.
      * apply Forall_forall. intros tm Hin. specialize (Hlt tm Hin). lia.
      * constructor; [simpl; lia|constructor].
    + apply Forall_app. split.
      * apply Forall_forall. intros tm Hin E. exfalso.
        apply list_elem_of_In in Hin.
        rewrite (proj1 (filter_nil_iff _ _) Hnone tm Hin) in E. discriminate E.
      * constructor; [reflexivity|constructor].
  - unfold resizeTimers, setTimeout. simpl. rewrite List.filter_app, Hnone. simpl.
    rewrite Hn1, Hnow1. reflexivity.
  - simpl. exact Hnow1.
  - unfold s1. destruct (lastResizeTimeout s); reflexivity.
  - unfold s1. destruct (lastResizeTimeout s); reflexivity.
  - unfold s1. destruct (lastResizeTimeout s); reflexivity.
Qed.

Lemma ok_resizeObserved entries s : ok s -> ok (resizeObserved entries s).
Proof.
  unfold resizeObserved. revert s.
  induction entries as [|e entries IH]; intros s Hok; simpl; [exact Hok|].
  apply IH. apply (resizeEntry_arms s Hok).
Qed.

Lemma ok_fire tm s : ok s -> In tm (timers s) -> ok (fire tm s).
Proof.
  intros Hok Hin.
  pose proof (ok_clearTimeout (Some (Timer.handle tm)) s Hok) as Hok1.
  unfold fire. destruct (Timer.task tm) as [|f] eqn:Et.
  - destruct Hok1 as (Hnd & Hlt & _). split; [exact Hnd|]. split; [exact Hlt|].
    apply Forall_forall. intros tm' Hin' E. exfalso.
    change (tm' ∈ timers (clearTimeout (Some (Timer.handle tm)) s)) in Hin'.
    rewrite timers_clearTimeout in Hin'.
    apply list_elem_of_In, In_cleared in Hin' as [Hin' Hne].
    destruct Hok as (_ & _ & Hre). rewrite Forall_forall in Hre.
    pose proof (Hre tm' (proj2 (list_elem_of_In _ _) Hin') E) as H1.
    assert (Er : isResize tm = true) by (unfold isResize; rewrite Et; reflexivity).
    pose proof (Hre tm (proj2 (list_elem_of_In _ _) Hin) Er) as H2.
    congruence.
  - refine (ok_loop _ _ _ Hok1). destruct f; reflexivity.
Qed.

Lemma ok_runTimers rounds t s : ok s -> ok (runTimers rounds t s).
Proof.
  apply (runTimers_invariant ok). intros s' tm Hok E.
  apply ok_fire; [exact Hok|].
  apply earliest_spec in E as [Hin _]. apply In_dueBy in Hin as [Hin _]. exact Hin.
Qed.

Lemma ok_advance t s : ok s -> ok (advance t s).
Proof. intros Hok. unfold advance. apply (ok_loop _ _ eq_refl), ok_runTimers, Hok. Qed.

Lemma ok_constructor st w h : ok (constructor st w h).
Proof. repeat split; constructor. Qed.

Lemma loop_update s : loop (update place s) = loop s.
Proof. reflexivity. Qed.

Lemma loop_ticked s : loop (snd (ticked s)) = loop s.
Proof.
  unfold ticked.
  match goal with |- context [match ?r with _ => _ end] => destruct r as [[|f] ls] end;
    reflexivity.
Qed.

Lemma ok_step e s : ok s -> ok (step place e s).
Proof.
  intros Hok. destruct e; simpl.
  - apply (ok_loop _ _ (loop_update _)), Hok.
  - apply (ok_loop _ _ (loop_update _)), Hok.
  - apply (ok_loop _ _ (loop_ticked _)), Hok.
  - exact Hok.
  - unfold stepBoundaryForce. destruct (Simulation.boundary (simulation s)); exact Hok.
  - destruct active; exact Hok.
  - exact Hok.
  - destruct active; exact Hok.
  - apply ok_resizeObserved. exact Hok.
  - apply ok_advance, Hok.
  - unfold onGroup. destruct (groups s !! i) as [g|]; [|exact Hok].
    unfold nodeMouseover. destruct (NodeGroup.listeners g) as [tip|]; [|exact Hok].
    pose proof (ok_clearTimeout (showTimeoutOf tip s) s Hok) as Hok1.
    refine (ok_loop _ _ _ Hok1). unfold callHideTask.
    match goal with |- context [match ?h with _ => _ end] => destruct h end;
      reflexivity.
  - unfold onGroup. destruct (groups s !! i) as [g|]; [|exact Hok].
    unfold nodeMouseout. destruct (NodeGroup.listeners g) as [tip|]; [|exact Hok].
    refine (ok_loop _ _ _ (ok_setTimeout_hide (Some tip) 800 (set_hideTask (Some tip) s) Hok)).
    reflexivity.
  - apply ok_clearTimeout, Hok.
  - unfold tipMouseout.
    match goal with |- context [body s !! ?i] => destruct (body s !! i) end;
      [|exact Hok].
    refine (ok_loop _ _ _ (ok_setTimeout_hide (hideTask s) 800 s Hok)). reflexivity.
Qed.

Lemma ok_run es s : ok s -> ok (run place es s).
Proof.
  unfold run. revert s. induction es as [|e es IH]; intros s Hok; simpl; [exact Hok|].
  apply IH, ok_step, Hok.
Qed.
End LoopProps.

(** ** The resize debounce *)

Section DebounceProps.
Import Viz Viz.State Loop.
Variable place : nat -> Q * Q.

Lemma resizeTimers_fire tm s :
  resizeTimers (fire tm s)
  = List.filter (fun t => negb (Nat.eqb (Timer.handle t) (Timer.handle tm)))
      (resizeTimers s).
Proof. unfold resizeTimers. rewrite timers_fire. apply resize_cleared. Qed.

Lemma Timer_eq_dec (a b : Timer.t) : {a = b} + {a <> b}.
Proof.
  decide equality.
  - decide equality. decide equality. apply Nat.eq_dec.
  - apply Z.eq_dec.
  - apply Nat.eq_dec.
Qed.

(** Firing a timer that is not the pending resize timer. *)
Lemma fire_other tm tm0 s :
  ok s -> In tm (timers s) -> resizeTimers s = [tm0] -> tm <> tm0 ->
  resizeTimers (fire tm s) = [tm0] /\
  resizeLog (fire tm s) = resizeLog s /\
  config (fire tm s) = config s /\
  clientWidth (fire tm s) = clientWidth s /\
  clientHeight (fire tm s) = clientHeight s /\
  now (fire tm s) = Z.max (now s) (Timer.due tm).
Proof.
  intros (Hnd & _ & _) Hin Hres Hne.
  assert (Hin0 : In tm0 (timers s)).
  { assert (H : In tm0 (resizeTimers s)) by (rewrite Hres; left; reflexivity).
    apply filter_In in H as [H _]. exact H. }
  assert (Hhide : isResize tm = false).
  { destruct (isResize tm) eqn:E; [exfalso|reflexivity].
    assert (H : In tm (resizeTimers s)) by (apply filter_In; split; assumption).
    rewrite Hres in H. destruct H as [H|[]]. apply Hne. symmetry. exact H. }
  split.
  - rewrite resizeTimers_fire, Hres. simpl.
    destruct (Nat.eqb_spec (Timer.handle tm0) (Timer.handle tm)) as [Heq|_];
      [|reflexivity].
    exfalso. apply Hne. symmetry. apply (same_handle _ _ _ Hnd Hin0 Hin Heq).
  - unfold fire. unfold isResize in Hhide.
    destruct (Timer.task tm) as [|[t|]]; [discriminate Hhide| |];
      repeat split; reflexivity.
Qed.

(** Firing the pending resize timer runs the handler. *)
Lemma fire_resize tm0 s :
  resizeTimers s = [tm0] ->
  resizeTimers (fire tm0 s) = [] /\
  resizeLog (fire tm0 s) = resizeLog s ++ [Z.max (now s) (Timer.due tm0)] /\
  config (fire tm0 s) = configOf (sizeFactor (clientWidth s) (clientHeight s)).
Proof.
  intros Hres.
  assert (Er : isResize tm0 = true).
  { assert (H : In tm0 (resizeTimers s)) by (rewrite Hres; left; reflexivity).
    apply filter_In in H as [_ H]. exact H. }
  split.
  - rewrite resizeTimers_fire, Hres. simpl. rewrite Nat.eqb_refl. reflexivity.
  - unfold fire. unfold isResize in Er.
    destruct (Timer.task tm0); [|discriminate Er]. split; reflexivity.
Qed.

(** Time passes, but not until the pending resize timer is due: the
    timer stays pending and the handler does not run. *)
Lemma advance_before_due t tm0 s :
  ok s -> resizeTimers s = [tm0] -> (t < Timer.due tm0)%Z ->
  ok (advance t s) /\
  resizeTimers (advance t s) = [tm0] /\
  resizeLog (advance t s) = resizeLog s /\
  now (advance t s) = Z.max (now s) t.
Proof.
  intros Hok Hres Hlt. split; [apply ok_advance, Hok|].
  set (P := fun s' : State.t =>
              ok s' /\ resizeTimers s' = [tm0] /\ resizeLog s' = resizeLog s /\
              Z.max (now s') t = Z.max (now s) t).
  assert (HP : P (runTimers (length (timers s)) t s)).
  { apply (runTimers_invariant P t);
      [|split; [exact Hok|split; [exact Hres|split; reflexivity]]].
    intros s' tm (Hok' & Hres' & Hlog' & Hnow') E.
    apply earliest_spec in E as [Hin _]. apply In_dueBy in Hin as [Hin Hdue].
    assert (Hne : tm <> tm0) by (intros ->; lia).
    destruct (fire_other tm tm0 s' Hok' Hin Hres' Hne) as (H1 & H2 & _ & _ & _ & H3).
    split; [apply ok_fire; assumption|]. split; [exact H1|].
    split; [rewrite H2; exact Hlog'|]. rewrite H3. lia. }
  destruct HP as (_ & Hres' & Hlog' & Hnow').
  unfold advance. split; [exact Hres'|]. split; [exact Hlog'|]. simpl. exact Hnow'.
Qed.

(** Time passes until the pending resize timer is due, or beyond: the
    handler runs once, at the time the timer was due, and no resize
    timer is left. *)
Lemma advance_past_due t tm0 s :
  ok s -> resizeTimers s = [tm0] -> (now s <= Timer.due tm0 <= t)%Z ->
  resizeTimers (advance t s) = [] /\
  resizeLog (advance t s) = resizeLog s ++ [Timer.due tm0] /\
  config (advance t s) = configOf (sizeFactor (clientWidth s) (clientHeight s)).
Proof.
  intros Hok Hres [Hnow Hdue].
  set (cfg := configOf (sizeFactor (clientWidth s) (clientHeight s))).
  set (P := fun s' : State.t =>
              ok s' /\
              ((resizeTimers s' = [tm0] /\ resizeLog s' = resizeLog s /\
                (now s' <= Timer.due tm0)%Z /\
                clientWidth s' = clientWidth s /\ clientHeight s' = clientHeight s) \/
               (resizeTimers s' = [] /\ resizeLog s' = resizeLog s ++ [Timer.due tm0] /\
                config s' = cfg))).
  assert (HP : P (runTimers (length (timers s)) t s)).
  { apply (runTimers_invariant P t);
      [|split; [exact Hok|left; repeat split; try assumption; reflexivity]].
    intros s' tm (Hok' & Hcase) E.
    apply earliest_spec in E as [Hin Hmin].
    pose proof Hin as Hin'. apply In_dueBy in Hin' as [Hin' Hdue'].
    split; [apply ok_fire; assumption|].
    destruct Hcase as [(Hres' & Hlog' & Hnow' & Hw & Hh)|(Hres' & Hlog' & Hcfg)].
    - destruct (Timer_eq_dec tm tm0) as [->|Hne].
      + right. destruct (fire_resize tm0 s' Hres') as (H1 & H2 & H3).
        split; [exact H1|]. split.
        * rewrite H2, Hlog'. f_equal. f_equal. lia.
        * rewrite H3, Hw, Hh. reflexivity.
      + left.
        destruct (fire_other tm tm0 s' Hok' Hin' Hres' Hne)
          as (H1 & H2 & _ & H4 & H5 & H6).
        split; [exact H1|]. split; [rewrite H2; exact Hlog'|].
        split; [|split; [rewrite H4; exact Hw|rewrite H5; exact Hh]].
        rewrite H6.
        assert (Hin0 : In tm0 (dueBy t (timers s'))).
        { apply In_dueBy. split; [|exact Hdue].
          assert (H : In tm0 (resizeTimers s')) by (rewrite Hres'; left; reflexivity).
          apply filter_In in H as [H _]. exact H. }
        specialize (Hmin tm0 Hin0). lia.
    - right.
      assert (Hhide : isResize tm = false).
      { destruct (isResize tm) eqn:Er; [exfalso|reflexivity].
        assert (H : In tm (resizeTimers s')) by (apply filter_In; split; assumption).
        rewrite Hres' in H. destruct H. }
      split; [rewrite resizeTimers_fire, Hres'; reflexivity|].
      unfold fire. unfold isResize in Hhide.
      destruct (Timer.task tm) as [|[tip|]]; [discriminate Hhide| |];
        split; assumption. }
  destruct HP as (_ & [(Hres' & _)|(Hres' & Hlog' & Hcfg)]).
  - exfalso.
    pose proof (runTimers_complete t (length (timers s)) s (Nat.le_refl _)) as Hdone.
    assert (Hin0 : In tm0 (dueBy t (timers (runTimers (length (timers s)) t s)))).
    { apply In_dueBy. split; [|exact Hdue].
      assert (H : In tm0 (resizeTimers (runTimers (length (timers s)) t s)))
        by (rewrite Hres'; left; reflexivity).
      apply filter_In in H as [H _]. exact H. }
    rewrite Hdone in Hin0. destruct Hin0.
  - unfold advance. repeat split; assumption.
Qed.

Lemma now_advance t s : (now s <= t)%Z -> now (advance t s) = t.
Proof.
  intros Hnow.
  assert (H : (now (runTimers (length (timers s)) t s) <= t)%Z).
  { apply (runTimers_invariant (fun s' => (now s' <= t)%Z) t); [|exact Hnow].
    intros s' tm Hle E. apply earliest_spec in E as [Hin _].
    apply In_dueBy in Hin as [_ Hdue].
    assert (Hn : now (fire tm s') = Z.max (now s') (Timer.due tm))
      by (unfold fire; destruct (Timer.task tm) as [|[tip|]]; reflexivity).
    rewrite Hn. lia. }
  unfold advance. simpl. lia.
Qed.

(** The observer's callback, called with at least one entry, leaves
    exactly one resize timer pending, due 500 ms from now. *)
Lemma resizeObserved_arms entries s :
  ok s -> entries <> [] ->
  ok (resizeObserved entries s) /\
  (exists h, resizeTimers (resizeObserved entries s)
             = [Timer.Build_t h (now s + 500) ResizeTask]) /\
  now (resizeObserved entries s) = now s /\
  resizeLog (resizeObserved entries s) = resizeLog s /\
  clientWidth (resizeObserved entries s) = clientWidth s /\
  clientHeight (resizeObserved entries s) = clientHeight s.
Proof.
  unfold resizeObserved. revert s.
  induction entries as [|e entries IH]; intros s Hok Hne; [contradiction|]. simpl.
  destruct (resizeEntry_arms s Hok) as (Hok1 & Hres1 & Hnow1 & Hlog1 & Hw1 & Hh1).
  destruct entries as [|e' entries].
  - simpl. split; [exact Hok1|]. split; [eexists; exact Hres1|].
    repeat split; assumption.
  - destruct (IH (resizeEntry s) Hok1 ltac:(discriminate))
      as (Hok2 & Hres2 & Hnow2 & Hlog2 & Hw2 & Hh2).
    split; [exact Hok2|]. rewrite Hnow1 in Hres2. split; [exact Hres2|].
    rewrite Hnow2, Hlog2, Hw2, Hh2. repeat split; assumption.
Qed.

(** A signal arms the timer, whatever was pending before. *)
Lemma signal_arms sg s :
  ok s -> (now s <= time sg)%Z -> entries sg <> [] ->
  armed sg (signal sg s) /\
  resizeLog (signal sg s) = resizeLog (advance (time sg) s).
Proof.
  intros Hok Hnow Hne. unfold signal.
  set (s1 := set_clientHeight (height sg)
               (set_clientWidth (width sg) (advance (time sg) s))).
  assert (Hok1 : ok s1) by (apply (ok_loop _ _ eq_refl), ok_advance, Hok).
  destruct (resizeObserved_arms (entries sg) s1 Hok1 Hne)
    as (Hok2 & Hres2 & Hnow2 & Hlog2 & Hw2 & Hh2).
  assert (Hnow1 : now s1 = time sg) by apply (now_advance _ _ Hnow).
  split; [|exact Hlog2].
  split; [exact Hok2|]. split; [rewrite Hnow2; exact Hnow1|].
  split; [exact Hw2|]. split; [exact Hh2|]. rewrite <- Hnow1. exact Hres2.
Qed.

(** A signal that comes before the pending timer is due replaces the
    timer; the handler has not run. *)
Lemma signal_rearms sg0 sg s :
  armed sg0 s -> (time sg0 <= time sg < time sg0 + 500)%Z -> entries sg <> [] ->
  armed sg (signal sg s) /\ resizeLog (signal sg s) = resizeLog s.
Proof.
  intros (Hok & Hnow & _ & _ & h & Hres) Hgap Hne.
  destruct (signal_arms sg s Hok ltac:(lia) Hne) as [Harmed Hlog].
  split; [exact Harmed|]. rewrite Hlog.
  apply (advance_before_due (time sg) _ s Hok Hres). simpl. lia.
Qed.

Lemma lastSignal_cons sg0 sg rest : lastSignal sg0 (sg :: rest) = lastSignal sg rest.
Proof.
  unfold lastSignal. revert sg0 sg. induction rest as [|x rest IH]; intros sg0 sg;
    [reflexivity|].
  change (List.last (x :: rest) sg0 = List.last (x :: rest) sg).
  rewrite (IH sg0 x), (IH sg x). reflexivity.
Qed.

Lemma burst_rearms rest :
  forall sg0 s,
    armed sg0 s -> closelySpaced (time sg0) rest ->
    armed (lastSignal sg0 rest) (burst rest s) /\
    resizeLog (burst rest s) = resizeLog s.
Proof.
  induction rest as [|sg rest IH]; intros sg0 s Harmed Hclose.
  - split; [exact Harmed|reflexivity].
  - destruct Hclose as (Hgap & Hne & Hclose).
    destruct (signal_rearms sg0 sg s Harmed Hgap Hne) as [Harmed1 Hlog1].
    destruct (IH sg (signal sg s) Harmed1 Hclose) as [Harmed2 Hlog2].
    rewrite lastSignal_cons.
    change (burst (sg :: rest) s) with (burst rest (signal sg s)).
    split; [exact Harmed2|]. rewrite Hlog2. exact Hlog1.
Qed.

(** X15.  In any state the visualizer has reached, a burst of [N >= 1]
    resize signals, each with an entry and each less than 500 ms after
    the one before, leaves a single pending resize timer, due 500 ms
    after the last signal: every signal cancels the timer of the one
    before.  The resize handler does not run during the burst; it runs
    exactly once afterwards, 500 ms after the last signal, and computes
    the configuration from the size of the last signal. *)
Theorem resize_burst_recomputes_once
    (st : Store) (w h : Z) (es : list Event)
    (sg : Signal) (rest : list Signal) (T : Z) :
  let s := run place es (constructor st w h) in
  let final := lastSignal sg rest in
  let s' := burst (sg :: rest) s in
  (now s <= time sg)%Z ->
  entries sg <> [] ->
  closelySpaced (time sg) rest ->
  resizeLog s' = resizeLog (advance (time sg) s) /\
  (exists handle,
      resizeTimers s' = [Timer.Build_t handle (time final + 500) ResizeTask] /\
      lastResizeTimeout s' = Some handle) /\
  ((T < time final + 500)%Z ->
   resizeLog (advance T s') = resizeLog (advance (time sg) s)) /\
  ((time final + 500 <= T)%Z ->
   resizeLog (advance T s') = resizeLog (advance (time sg) s) ++ [(time final + 500)%Z] /\
   resizeTimers (advance T s') = [] /\
   config (advance T s') = configOf (sizeFactor (width final) (height final))).
Proof.
  intros s final s' Hnow Hne Hclose.
  assert (Hok : ok s) by apply ok_run, ok_constructor.
  destruct (signal_arms sg s Hok Hnow Hne) as [Harmed1 Hlog1].
  destruct (burst_rearms rest sg (signal sg s) Harmed1 Hclose) as [Harmed Hlog].
  fold final in Harmed. change (burst rest (signal sg s)) with s' in *.
  destruct Harmed as (Hok' & Hnow' & Hw' & Hh' & handle & Hres').
  split; [rewrite Hlog; exact Hlog1|]. split.
  { exists handle. split; [exact Hres'|].
    destruct Hok' as (_ & _ & Hre). rewrite Forall_forall in Hre.
    assert (Hin : In (Timer.Build_t handle (time final + 500) ResizeTask) (resizeTimers s'))
      by (rewrite Hres'; left; reflexivity).
    apply filter_In in Hin as [Hin _]. apply list_elem_of_In in Hin.
    apply (Hre _ Hin eq_refl). }
  split.
  - intros HT.
    destruct (advance_before_due T _ s' Hok' Hres' HT) as (_ & _ & Hl & _).
    rewrite Hl, Hlog. exact Hlog1.
  - intros HT.
    destruct (advance_past_due T _ s' Hok' Hres') as (Hr & Hl & Hc);
      [simpl; lia|].
    rewrite Hl, Hr, Hc, Hlog, Hlog1, Hw', Hh'. repeat split; reflexivity.
Qed.

End DebounceProps.

Lemma resize_burst_recomputes_once_witness :
  let s := Viz.run Sample.place
             [Viz.AddNode 0%nat; Viz.AddNode 1%nat; Viz.AddLink (Viz.Link.Build_t 0%nat 1%nat)]
             (Viz.constructor Sample.objects 1000 800) in
  let sg := Loop.mkSignal 1000 900 700 [Viz.Entry] in
  let rest := [Loop.mkSignal 1200 700 600 [Viz.Entry];
               Loop.mkSignal 1500 500 400 [Viz.Entry]] in
  let s' := Loop.burst (sg :: rest) s in
  (Viz.State.now s <= Loop.time sg)%Z /\
  Loop.closelySpaced (Loop.time sg) rest /\
  Viz.State.resizeLog (Viz.advance 1999 s')
  = Viz.State.resizeLog (Viz.advance (Loop.time sg) s) /\
  Viz.State.resizeLog (Viz.advance 2000 s')
  = Viz.State.resizeLog (Viz.advance (Loop.time sg) s) ++ [2000%Z].
Proof.
  intros s sg rest s'.
  assert (Hnow : (Viz.State.now s <= Loop.time sg)%Z) by (vm_compute; discriminate).
  assert (Hne : Loop.entries sg <> []) by discriminate.
  assert (Hclose : Loop.closelySpaced (Loop.time sg) rest).
  { simpl. repeat split; try lia; discriminate. }
  split; [exact Hnow|]. split; [exact Hclose|]. split.
  - destruct (resize_burst_recomputes_once Sample.place Sample.objects 1000 800
                [Viz.AddNode 0%nat; Viz.AddNode 1%nat;
                 Viz.AddLink (Viz.Link.Build_t 0%nat 1%nat)]
                sg rest 1999 Hnow Hne Hclose) as (_ & _ & Hbefore & _).
    apply Hbefore. simpl. lia.
  - destruct (resize_burst_recomputes_once Sample.place Sample.objects 1000 800
                [Viz.AddNode 0%nat; Viz.AddNode 1%nat;
                 Viz.AddLink (Viz.Link.Build_t 0%nat 1%nat)]
                sg rest 2000 Hnow Hne Hclose) as (_ & _ & _ & Hafter).
    apply Hafter. simpl. lia.
Defined.


(* ================================================================== *)
(** * Part IV.  Further properties of the code                         *)
(* ================================================================== *)

(** ** More on the CV tree *)

Section DataLookup.
Import Data.

Lemma walkTree_unfold target r i ch :
  walkTree target (mkTree r i ch)
  = if Nat.eqb r target then Some (mkTree r i ch)
    else firstSome (walkTree target) ch.
Proof.
  simpl. destruct (Nat.eqb r target); [reflexivity|].
  induction ch as [|c ch IH]; simpl; [reflexivity|]. rewrite IH. reflexivity.
Qed.

Lemma pushChild_unfold target child r i ch :
  pushChild target child (mkTree r i ch)
  = if Nat.eqb r target then Some (mkTree r i (ch ++ [child]))
    else match rewriteFirst (pushChild target child) ch with
         | Some ch' => Some (mkTree r i ch')
         | None => None
         end.
Proof.
  simpl. destruct (Nat.eqb r target); [reflexivity|].
  match goal with
  | |- match ?a with _ => _ end = match ?b with _ => _ end =>
      assert (H : a = b); [|rewrite H; reflexivity]
  end.
  induction ch as [|c ch IH]; simpl; [reflexivity|]. rewrite IH. reflexivity.
Qed.

Lemma refs_unfold r i ch : refs (mkTree r i ch) = r :: concat (map refs ch).
Proof.
  simpl. f_equal. induction ch as [|c ch IH]; simpl; [reflexivity|].
  rewrite IH. reflexivity.
Qed.

(** [walkTree] finds a reference exactly when the tree holds it. *)
Lemma walkTree_None target t : walkTree target t = None <-> target ∉ refs t.
Proof.
  induction t as [r i ch IH] using Tree_induction.
  rewrite walkTree_unfold, refs_unfold, not_elem_of_cons.
  destruct (Nat.eqb_spec r target) as [->|Hne].
  - split; [discriminate|]. intros [H _]. contradiction.
  - assert (Hch : firstSome (walkTree target) ch = None <-> target ∉ concat (map refs ch)).
    { induction ch as [|c ch IHch]; simpl.
      - split; [intros _ H; inversion H|reflexivity].
      - apply Forall_cons in IH as [IHc IHrest]. rewrite not_elem_of_app.
        destruct (walkTree target c) eqn:E.
        + split; [discriminate|]. intros [H _]. apply IHc in H. discriminate H.
        + rewrite (IHch IHrest). split; [intros H; split; [apply IHc; reflexivity|exact H]|].
          intros [_ H]. exact H. }
    rewrite Hch. split; [intros H; split; [congruence|exact H]|intros [_ H]; exact H].
Qed.

(** What [walkTree] returns carries the reference that was asked for. *)
Lemma walkTree_ref target t p : walkTree target t = Some p -> ref p = target.
Proof.
  revert p. induction t as [r i ch IH] using Tree_induction. intros p.
  rewrite walkTree_unfold. destruct (Nat.eqb_spec r target) as [->|Hne].
  - intros H. injection H as <-. reflexivity.
  - induction ch as [|c ch IHch]; simpl; [discriminate|].
    apply Forall_cons in IH as [IHc IHrest].
    destruct (walkTree target c) eqn:E; [intros H; injection H as <-|].
    + apply IHc. reflexivity.
    + apply IHch, IHrest.
Qed.

(** [pushChild] rewrites the node that [walkTree] finds: it succeeds
    exactly when the lookup does, and afterwards the lookup returns that
    node with the child appended. *)
Lemma pushChild_walkTree target child t :
  match walkTree target t with
  | Some p => exists t', pushChild target child t = Some t' /\
                         walkTree target t' = Some (addChild p child)
  | None => pushChild target child t = None
  end.
Proof.
  induction t as [r i ch IH] using Tree_induction.
  rewrite walkTree_unfold, pushChild_unfold.
  destruct (Nat.eqb r target) eqn:Er.
  - eexists. split; [reflexivity|]. rewrite walkTree_unfold, Er. reflexivity.
  - assert (Hch : match firstSome (walkTree target) ch with
                  | Some p => exists ch', rewriteFirst (pushChild target child) ch = Some ch' /\
                                          firstSome (walkTree target) ch' = Some (addChild p child)
                  | None => rewriteFirst (pushChild target child) ch = None
                  end).
    { induction ch as [|c ch IHch]; simpl; [reflexivity|].
      apply Forall_cons in IH as [IHc IHrest]. specialize (IHch IHrest).
      destruct (walkTree target c) as [p|] eqn:E.
      - destruct IHc as (c' & Hc' & Hw'). rewrite Hc'.
        eexists. split; [reflexivity|]. simpl. rewrite Hw'. reflexivity.
      - rewrite IHc. destruct (firstSome (walkTree target) ch) as [p|].
        + destruct IHch as (ch' & Hch' & Hw'). rewrite Hch'.
          eexists. split; [reflexivity|]. simpl. rewrite E. exact Hw'.
        + rewrite IHch. reflexivity. }
    destruct (firstSome (walkTree target) ch) as [p|].
    + destruct Hch as (ch' & Hch' & Hw'). rewrite Hch'.
      eexists. split; [reflexivity|]. rewrite walkTree_unfold, Er. exact Hw'.
    + rewrite Hch. reflexivity.
Qed.
End DataLookup.

Section DataInsert.
Import Data.
Local Open Scope Q_scope.

Lemma firstSome_app {A B} (f : A -> option B) l1 l2 :
  firstSome f (l1 ++ l2)
  = match firstSome f l1 with Some b => Some b | None => firstSome f l2 end.
Proof.
  induction l1 as [|a l1 IH]; simpl; [reflexivity|].
  destruct (f a); [reflexivity|exact IH].
Qed.

Lemma firstSome_None {A B} (f : A -> option B) l :
  Forall (fun a => f a = None) l -> firstSome f l = None.
Proof.
  induction 1 as [|a l Ha _ IH]; simpl; [reflexivity|]. rewrite Ha. exact IH.
Qed.

(** [rewriteFirst] rewrites one element and leaves the others. *)
Lemma rewriteFirst_Some {A} (f : A -> option A) l l' :
  rewriteFirst f l = Some l' ->
  exists pre a a' post,
    l = pre ++ a :: post /\ l' = pre ++ a' :: post /\
    f a = Some a' /\ Forall (fun x => f x = None) pre.
Proof.
  revert l'. induction l as [|x l IH]; simpl; intros l' H; [discriminate|].
  destruct (f x) as [x'|] eqn:E.
  - injection H as <-. exists [], x, x', l. repeat split; [exact E|constructor].
  - destruct (rewriteFirst f l) as [rest'|]; [|discriminate]. injection H as <-.
    destruct (IH rest' eq_refl) as (pre & a & a' & post & -> & -> & Hf & Hpre).
    exists (x :: pre), a, a', post. repeat split; [exact Hf|].
    constructor; assumption.
Qed.

(** A leaf: a tree node without children. *)
Lemma walkTree_leaf q r i : walkTree q (mkTree r i []) = if Nat.eqb r q then Some (mkTree r i []) else None.
Proof. rewrite walkTree_unfold. destruct (Nat.eqb r q); reflexivity. Qed.

Section PushLeaf.
Variables (target r : ItemRef) (it : CVItem.t).
Let leaf := mkTree r it [].

(** The references after the push: those before, and the leaf's. *)
Lemma pushChild_refs t t' :
  pushChild target leaf t = Some t' ->
  forall q, q ∈ refs t' <-> q ∈ refs t \/ q = r.
Proof.
  revert t'. induction t as [r0 i ch IH] using Tree_induction. intros t'.
  rewrite pushChild_unfold. destruct (Nat.eqb r0 target).
  - intros H q. injection H as <-. rewrite !refs_unfold, map_app, concat_app.
    simpl. rewrite !elem_of_cons, elem_of_app, !elem_of_cons.
    split; [intros [H|[H|[H|H]]]|intros [[H|H]|H]]; auto; inversion H.
  - destruct (rewriteFirst (pushChild target leaf) ch) as [ch'|] eqn:E; [|discriminate].
    intros H q. injection H as <-.
    destruct (rewriteFirst_Some _ _ _ E) as (pre & a & a' & post & -> & -> & Hf & _).
    apply Forall_app in IH as [_ IH]. apply Forall_cons in IH as [IHa _].
    specialize (IHa a' Hf q).
    rewrite !refs_unfold, !map_app, !concat_app. simpl.
    rewrite !elem_of_cons, !elem_of_app, IHa. tauto.
Qed.

(** The lookup of the new reference finds the leaf. *)
Lemma pushChild_finds_leaf t t' :
  pushChild target leaf t = Some t' -> r ∉ refs t -> walkTree r t' = Some leaf.
Proof.
  revert t'. induction t as [r0 i ch IH] using Tree_induction. intros t'.
  rewrite pushChild_unfold, refs_unfold, not_elem_of_cons.
  intros H [Hne Hfresh].
  assert (Er : Nat.eqb r0 r = false) by (apply Nat.eqb_neq; congruence).
  assert (Hnone : forall l, r ∉ concat (map refs l) ->
                            Forall (fun c => walkTree r c = None) l).
  { induction l as [|c l IHl]; simpl; intros Hl; constructor.
    - apply walkTree_None. intros Hin. apply Hl, elem_of_app. left. exact Hin.
    - apply IHl. intros Hin. apply Hl, elem_of_app. right. exact Hin. }
  destruct (Nat.eqb r0 target).
  - injection H as <-. rewrite walkTree_unfold, Er, firstSome_app.
    rewrite (firstSome_None _ _ (Hnone ch Hfresh)). cbn [firstSome].
    unfold leaf. rewrite walkTree_leaf, Nat.eqb_refl. reflexivity.
  - destruct (rewriteFirst (pushChild target leaf) ch) as [ch'|] eqn:E; [|discriminate].
    injection H as <-.
    destruct (rewriteFirst_Some _ _ _ E) as (pre & a & a' & post & -> & -> & Hf & _).
    apply Forall_app in IH as [_ IH]. apply Forall_cons in IH as [IHa _].
    rewrite map_app, concat_app in Hfresh. simpl in Hfresh.
    rewrite !not_elem_of_app in Hfresh. destruct Hfresh as (Hpre & Ha & _).
    rewrite walkTree_unfold, Er, firstSome_app.
    rewrite (firstSome_None _ _ (Hnone pre Hpre)). cbn [firstSome].
    rewrite (IHa a' Hf Ha). reflexivity.
Qed.

(** The lookup of any other reference finds the item it found before. *)
Lemma pushChild_keeps_items t t' :
  pushChild target leaf t = Some t' ->
  forall q, q <> r -> (item <$> walkTree q t') = (item <$> walkTree q t).
Proof.
  revert t'. induction t as [r0 i ch IH] using Tree_induction. intros t'.
  rewrite pushChild_unfold. intros H q Hq. rewrite (walkTree_unfold q r0 i ch).
  destruct (Nat.eqb r0 target).
  - injection H as <-. rewrite walkTree_unfold.
    destruct (Nat.eqb r0 q); [reflexivity|]. rewrite firstSome_app.
    destruct (firstSome (walkTree q) ch); [reflexivity|]. cbn [firstSome].
    unfold leaf. rewrite walkTree_leaf.
    destruct (Nat.eqb_spec r q); [congruence|reflexivity].
  - destruct (rewriteFirst (pushChild target leaf) ch) as [ch'|] eqn:E; [|discriminate].
    injection H as <-. rewrite walkTree_unfold.
    destruct (Nat.eqb r0 q); [reflexivity|].
    destruct (rewriteFirst_Some _ _ _ E) as (pre & a & a' & post & -> & -> & Hf & _).
    apply Forall_app in IH as [_ IH]. apply Forall_cons in IH as [IHa _].
    specialize (IHa a' Hf q Hq). rewrite !firstSome_app.
    destruct (firstSome (walkTree q) pre); [reflexivity|]. cbn [firstSome].
    destruct (walkTree q a') as [x'|], (walkTree q a) as [x|];
      simpl in IHa; try discriminate IHa; [exact IHa|reflexivity].
Qed.

(** The tree has one more item. *)
Lemma pushChild_count t t' :
  pushChild target leaf t = Some t' ->
  length (items t') = S (length (items t)).
Proof.
  revert t'. induction t as [r0 i ch IH] using Tree_induction. intros t'.
  rewrite pushChild_unfold. destruct (Nat.eqb r0 target).
  - intros H. injection H as <-. rewrite !items_mkTree, map_app, concat_app.
    simpl. rewrite length_app. simpl. lia.
  - destruct (rewriteFirst (pushChild target leaf) ch) as [ch'|] eqn:E; [|discriminate].
    intros H. injection H as <-.
    destruct (rewriteFirst_Some _ _ _ E) as (pre & a & a' & post & -> & -> & Hf & _).
    apply Forall_app in IH as [_ IH]. apply Forall_cons in IH as [IHa _].
    specialize (IHa a' Hf).
    rewrite !items_mkTree, !map_app, !concat_app. cbn [map concat length].
    rewrite !length_app, IHa. lia.
Qed.
End PushLeaf.
End DataInsert.

Section DataAddItem.
Import Data.
Local Open Scope Q_scope.

Lemma addItem_unfold info parent s :
  addItem info parent s
  = match walkTree parent (tree s) with
    | Some p =>
        match pushChild parent (mkTree (nextRef s) (childItem info (item p)) []) (tree s) with
        | Some t' => inr (nextRef s, mkState t' (S (nextRef s)))
        | None => inl AssertionError
        end
    | None => inl AssertionError
    end.
Proof.
  unfold addItem, bind, findItem. destruct (walkTree parent (tree s)); reflexivity.
Qed.

(** X1.  [addItem] ends in an [AssertionError] exactly when the parent it
    is given is not an item of the tree; with a parent of the tree it
    returns. *)
Theorem addItem_faults_iff_parent_unknown info parent s :
  (addItem info parent s = inl AssertionError <-> parent ∉ refs (tree s)) /\
  (parent ∈ refs (tree s) <-> exists r s', addItem info parent s = inr (r, s')).
Proof.
  rewrite addItem_unfold.
  pose proof (walkTree_None parent (tree s)) as Hnone.
  destruct (walkTree parent (tree s)) as [p|] eqn:Ew.
  - pose proof (pushChild_walkTree parent
                  (mkTree (nextRef s) (childItem info (item p)) []) (tree s)) as Hp.
    rewrite Ew in Hp. destruct Hp as (t' & Hp & _). rewrite Hp.
    assert (Hin : parent ∈ refs (tree s)).
    { destruct (decide (parent ∈ refs (tree s))) as [H|H]; [exact H|].
      apply Hnone in H. discriminate H. }
    split; split.
    + discriminate.
    + intros H. contradiction.
    + intros _. eexists _, _. reflexivity.
    + intros _. exact Hin.
  - assert (Hout : parent ∉ refs (tree s)) by (apply Hnone; reflexivity).
    split; split.
    + intros _. exact Hout.
    + reflexivity.
    + intros H. contradiction.
    + intros (r & s' & H). discriminate H.
Qed.

(** X2.  When [addItem] returns, it returns a reference that was not in
    the tree; the new item, built from the parent's item, is the last
    child of the parent and has no children; looking the new reference up
    finds it; every other reference still leads to the item it led to;
    and the tree has one more item. *)
Theorem addItem_appends_last_child info parent s r s' :
  wellFormed s ->
  addItem info parent s = inr (r, s') ->
  exists p,
    walkTree parent (tree s) = Some p /\
    r = nextRef s /\ (r ∉ refs (tree s)) /\ nextRef s' = S r /\
    let leaf := mkTree r (childItem info (item p)) [] in
    walkTree parent (tree s') = Some (addChild p leaf) /\
    findItem r s' = inr (leaf, s') /\
    (forall q, q <> r -> (item <$> walkTree q (tree s')) = (item <$> walkTree q (tree s))) /\
    length (items (tree s')) = S (length (items (tree s))) /\
    wellFormed s'.
Proof.
  intros Hwf. rewrite addItem_unfold.
  destruct (walkTree parent (tree s)) as [p|] eqn:Ew; [|discriminate].
  pose proof (pushChild_walkTree parent
                (mkTree (nextRef s) (childItem info (item p)) []) (tree s)) as Hp.
  rewrite Ew in Hp. destruct Hp as (t' & Hp & Hw'). rewrite Hp.
  intros H. injection H as <- <-. exists p.
  assert (Hfresh : nextRef s ∉ refs (tree s)).
  { intros Hin. unfold wellFormed in Hwf. rewrite Forall_forall in Hwf.
    specialize (Hwf _ Hin). lia. }
  split; [reflexivity|]. split; [reflexivity|]. split; [exact Hfresh|].
  split; [reflexivity|]. simpl. split; [exact Hw'|]. split.
  { unfold findItem. simpl.
    rewrite (pushChild_finds_leaf _ _ _ _ _ Hp Hfresh). reflexivity. }
  split; [apply (pushChild_keeps_items _ _ _ _ _ Hp)|].
  split; [apply (pushChild_count _ _ _ _ _ Hp)|].
  unfold wellFormed. simpl. apply Forall_forall. intros q Hq.
  apply (pushChild_refs _ _ _ _ _ Hp) in Hq as [Hq| ->]; [|lia].
  unfold wellFormed in Hwf. rewrite Forall_forall in Hwf. specialize (Hwf _ Hq). lia.
Qed.

Lemma addItem_appends_last_child_witness :
  let info := CVInfo.Build_t "/static/images/cv.png" None None None in
  wellFormed initialState /\
  exists s', addItem info rootItem initialState = inr (1%nat, s') /\
             findItem 1%nat s'
             = inr (mkTree 1%nat (childItem info rootItemValue) [], s') /\
             length (items (tree s')) = 2%nat.
Proof.
  intros info.
  assert (Hwf : wellFormed initialState) by (repeat constructor).
  split; [exact Hwf|].
  destruct (addItem info rootItem initialState) as [e|[r s']] eqn:E;
    [vm_compute in E; discriminate E|].
  destruct (addItem_appends_last_child info rootItem initialState r s' Hwf E)
    as (p & Hp & -> & _ & _ & _ & Hfind & _ & Hlen & _).
  vm_compute in Hp. injection Hp as <-.
  exists s'. split; [reflexivity|]. split; [exact Hfind|exact Hlen].
Defined.





(** C10.  The root item has [relSize = 1] and [relDistance = 1].  When
    [addItem] returns, the item behind the reference it returns has the
    caller's [relSize] if the caller gave one, and otherwise the
    parent's [relSize] times 0.65 (parent at depth 0 or 1) or the
    parent's [relSize] itself (parent at depth 2 or deeper); it has the
    caller's [relDistance] if the caller gave one, and otherwise the
    parent's [relDistance] times 0.6; every other reference leads to the
    item it led to.  So a call whose caller-supplied values, if any, are
    positive keeps every item of the tree positive; and the module
    loads without a fault into a tree of 28 items, each with strictly
    positive [relSize] and [relDistance]. *)
Theorem cv_tree_items_positive :
  (CVItem.relSize rootItemValue == 1 /\ CVItem.relDistance rootItemValue == 1) /\
  (forall info parent s r s',
      wellFormed s ->
      addItem info parent s = inr (r, s') ->
      exists p child,
        walkTree parent (tree s) = Some p /\
        findItem r s' = inr (child, s') /\
        CVItem.relSize (item child)
        = match CVInfo.relSize info with
          | Some v => v
          | None => if (CVItem.depth (item p) <? 2)%nat
                    then CVItem.relSize (item p) * (65 # 100)
                    else CVItem.relSize (item p)
          end /\
        CVItem.relDistance (item child)
        = match CVInfo.relDistance info with
          | Some v => v
          | None => CVItem.relDistance (item p) * (6 # 10)
          end /\
        (forall q, q <> r ->
                   (item <$> walkTree q (tree s')) = (item <$> walkTree q (tree s))) /\
        wellFormed s') /\
  (forall info parent s r s',
      positiveInfo info ->
      addItem info parent s = inr (r, s') ->
      Forall positiveItem (items (tree s)) ->
      Forall positiveItem (items (tree s'))) /\
  (exists t, getTree = inr t /\ length (items t) = 28%nat /\
             Forall positiveItem (items t)).
Proof.
  split; [split; reflexivity|]. split; [|split; [exact addItem_positive|]].
  - intros info parent s r s' Hwf. rewrite addItem_unfold.
    destruct (walkTree parent (tree s)) as [p|] eqn:Ew; [|discriminate].
    pose proof (pushChild_walkTree parent
                  (mkTree (nextRef s) (childItem info (item p)) []) (tree s)) as Hp.
    rewrite Ew in Hp. destruct Hp as (t' & Hp & _). rewrite Hp.
    intros H. injection H as <- <-.
    assert (Hfresh : nextRef s ∉ refs (tree s)).
    { intros Hin. unfold wellFormed in Hwf. rewrite Forall_forall in Hwf.
      specialize (Hwf _ Hin). lia. }
    exists p, (mkTree (nextRef s) (childItem info (item p)) []).
    split; [reflexivity|]. split.
    { unfold findItem. simpl.
      rewrite (pushChild_finds_leaf _ _ _ _ _ Hp Hfresh). reflexivity. }
    split.
    { simpl. destruct (CVInfo.relSize info); simpl; [reflexivity|].
      unfold newRelSize.
      destruct (Nat.leb_spec 2 (CVItem.depth (item p))) as [Hge|Hlt];
        destruct (Nat.ltb_spec (CVItem.depth (item p)) 2) as [Hlt'|Hge'];
        try lia; reflexivity. }
    split; [simpl; destruct (CVInfo.relDistance info); reflexivity|].
    split; [apply (pushChild_keeps_items _ _ _ _ _ Hp)|].
    unfold wellFormed. simpl. apply Forall_forall. intros q Hq.
    apply (pushChild_refs _ _ _ _ _ Hp) in Hq as [Hq| ->]; [|lia].
    unfold wellFormed in Hwf. rewrite Forall_forall in Hwf. specialize (Hwf _ Hq). lia.
  - destruct getTree as [e|t] eqn:E; [vm_compute in E; discriminate E|].
    exists t. split; [reflexivity|].
    assert (Hb : forallb positiveItemb (items t) = true /\ length (items t) = 28%nat).
    { vm_compute in E. injection E as <-. vm_compute. split; reflexivity. }
    destruct Hb as [Hb Hlen]. split; [exact Hlen|].
    apply Forall_forall. intros i Hi. apply positiveItemb_correct.
    rewrite forallb_forall in Hb. apply Hb. apply list_elem_of_In, Hi.
Qed.

Lemma cv_tree_items_positive_witness :
  let info := CVInfo.Build_t "/static/images/cv.png" None None (Some (1 # 2)) in
  wellFormed initialState /\
  exists s' child,
    addItem info rootItem initialState = inr (1%nat, s') /\
    findItem 1%nat s' = inr (child, s') /\
    CVItem.relSize (item child) = 1 # 2 /\
    CVItem.relDistance (item child) = 1 * (6 # 10) /\
    Forall positiveItem (items (tree s')).
Proof.
  intros info.
  assert (Hwf : wellFormed initialState) by (repeat constructor).
  split; [exact Hwf|].
  destruct (addItem info rootItem initialState) as [e|[r s']] eqn:E;
    [vm_compute in E; discriminate E|].
  assert (Hr : r = 1%nat) by (vm_compute in E; injection E as <- _; reflexivity).
  subst r.
  destruct cv_tree_items_positive as (_ & Hval & Hpos & _).
  destruct (Hval info rootItem initialState 1%nat s' Hwf E)
    as (p & child & Hp & Hfind & Hsz & Hdist & _).
  vm_compute in Hp. injection Hp as <-.
  exists s', child. split; [reflexivity|]. split; [exact Hfind|].
  split; [exact Hsz|]. split; [exact Hdist|].
  apply (Hpos info rootItem initialState 1%nat s').
  - split; intros v Hv; [injection Hv as <-; reflexivity|discriminate Hv].
  - exact E.
  - constructor; [split; reflexivity|constructor].
Defined.
End DataAddItem.

(* ------------------------------------------------------------------ *)
(** ** The visualizer over any sequence of calls *)

(** ** The collections only grow *)

Section CollectionProps.
Import Viz Viz.State Scene Views Loop.
Variable place : nat -> Q * Q.

Lemma collections_withTip t f s : collections (withTip t f s) = collections s.
Proof. unfold collections, withTip. simpl. rewrite length_alter. reflexivity. Qed.

Lemma collections_callHideTask f s : collections (callHideTask f s) = collections s.
Proof. destruct f; [apply collections_withTip|reflexivity]. Qed.

Lemma collections_clearTimeout h s : collections (clearTimeout h s) = collections s.
Proof. destruct h; reflexivity. Qed.

Lemma collections_fire tm s : collections (fire tm s) = collections s.
Proof.
  unfold fire. destruct (Timer.task tm) as [|f]; [reflexivity|].
  rewrite collections_callHideTask. reflexivity.
Qed.

Lemma collections_advance t s : collections (advance t s) = collections s.
Proof.
  unfold advance.
  change (collections (runTimers (length (timers s)) t s) = collections s).
  apply (runTimers_invariant (fun s' => collections s' = collections s) t);
    [|reflexivity].
  intros s' tm H _. rewrite collections_fire. exact H.
Qed.

Lemma collections_resizeObserved entries s :
  collections (resizeObserved entries s) = collections s.
Proof.
  unfold resizeObserved. revert s.
  induction entries as [|e entries IH]; intros s; simpl; [reflexivity|].
  rewrite IH. unfold resizeEntry. destruct (lastResizeTimeout s); reflexivity.
Qed.

Lemma collections_nodeMouseover g s : collections (nodeMouseover g s) = collections s.
Proof.
  unfold nodeMouseover. destruct (NodeGroup.listeners g) as [tip|]; [|reflexivity].
  rewrite collections_withTip, collections_callHideTask, collections_withTip.
  apply collections_clearTimeout.
Qed.

Lemma collections_nodeMouseout g s : collections (nodeMouseout g s) = collections s.
Proof.
  unfold nodeMouseout. destruct (NodeGroup.listeners g) as [tip|]; [|reflexivity].
  simpl. rewrite collections_withTip. reflexivity.
Qed.

Lemma collections_tipMouseout tip s : collections (tipMouseout tip s) = collections s.
Proof.
  unfold tipMouseout. destruct (body s !! tip); [|reflexivity].
  simpl. rewrite collections_withTip. reflexivity.
Qed.

Lemma collections_ticked s : collections (snd (ticked s)) = collections s.
Proof.
  unfold ticked.
  match goal with |- context [match ?r with _ => _ end] => destruct r as [[|f] ls] end;
    reflexivity.
Qed.

Lemma simulation_nodes_update s :
  Simulation.nodes (simulation (update place s)) = nodes s.
Proof.
  unfold update, reorderLines, reheat, applyLinkForce, simulation_nodes. simpl.
  destruct (Simulation.collide (simulation s)); simpl;
    destruct (Simulation.link (simulation s)); reflexivity.
Qed.

Lemma collections_update s :
  collections (update place s) = (nodes s, links s, nodes s, S (length (body s))).
Proof.
  unfold collections.
  destruct (update_effect place s) as (Hn & Hl & _ & _ & Hb & _).
  rewrite Hn, Hl, Hb, length_app, simulation_nodes_update. simpl.
  replace (length (body s) + 1)%nat with (S (length (body s))) by lia.
  reflexivity.
Qed.

Lemma collections_step e s :
  collections (step place e s)
  = match e with
    | AddNode node => (nodes s ++ [node], links s, nodes s ++ [node], S (length (body s)))
    | AddLink link => (nodes s, links s ++ [link], nodes s, S (length (body s)))
    | _ => collections s
    end.
Proof.
  destruct e; simpl.
  - unfold addNode. rewrite collections_update. reflexivity.
  - unfold addLink. rewrite collections_update. reflexivity.
  - apply collections_ticked.
  - reflexivity.
  - unfold stepBoundaryForce. destruct (Simulation.boundary (simulation s)); reflexivity.
  - destruct active; reflexivity.
  - reflexivity.
  - destruct active; reflexivity.
  - rewrite collections_resizeObserved. reflexivity.
  - apply collections_advance.
  - unfold onGroup. destruct (groups s !! i); [apply collections_nodeMouseover|reflexivity].
  - unfold onGroup. destruct (groups s !! i); [apply collections_nodeMouseout|reflexivity].
  - apply collections_clearTimeout.
  - apply collections_tipMouseout.
Qed.

Lemma run_snoc es e s : run place (es ++ [e]) s = step place e (run place es s).
Proof. unfold run. rewrite foldl_app. reflexivity. Qed.

(** X4.  After any sequence of events on a new visualizer, [this.nodes]
    and [this.links] hold exactly the nodes and links that were added, in
    the order of the calls (nothing is ever removed or reordered); the
    simulation works on the same node array; the [i]-th node group is
    bound to the [i]-th node and there is one line per link; and
    [document.body] holds one tooltip per call of [addNode] or
    [addLink]. *)
Theorem scene_follows_the_calls (st : Store) (w h : Z) (es : list Event) :
  let s := run place es (constructor st w h) in
  nodes s = addedNodes es /\
  links s = addedLinks es /\
  Simulation.nodes (simulation s) = nodes s /\
  map NodeGroup.datum (groups s) = nodes s /\
  length (lines s) = length (links s) /\
  length (body s) = updates es.
Proof.
  intros s.
  assert (Hc : collections s = (addedNodes es, addedLinks es, addedNodes es, updates es)).
  { subst s. induction es as [|e es IH] using rev_ind; [reflexivity|].
    rewrite run_snoc, collections_step.
    unfold collections in IH. injection IH as Hn Hl Hs Hb.
    unfold addedNodes, addedLinks, updates in *.
    rewrite !omap_app, List.filter_app, length_app. simpl.
    destruct e; simpl; rewrite ?Hn, ?Hl, ?Hs, ?Hb, ?app_nil_r, ?Nat.add_0_r;
      unfold collections; rewrite ?Hn, ?Hl, ?Hs, ?Hb;
      try reflexivity; repeat f_equal; lia. }
  unfold collections in Hc. injection Hc as Hn Hl Hs Hb.
  destruct (bound_run place es (constructor st w h) (bound_constructor st w h)) as [Hg Hli].
  fold s in Hg, Hli. rewrite Hs, Hn. repeat split; try assumption.
  rewrite Hg. exact Hn.
Qed.

Lemma NoDup_handles_filter (p : Timer.t -> bool) (l : list Timer.t) :
  NoDup (map Timer.handle l) -> NoDup (map Timer.handle (List.filter p l)).
Proof.
  induction l as [|tm l IH]; simpl; intros Hnd; [constructor|].
  apply NoDup_cons in Hnd as [Hnotin Hnd].
  destruct (p tm); simpl; [|apply IH, Hnd].
  apply NoDup_cons. split; [|apply IH, Hnd].
  intros Hin. apply Hnotin. apply list_elem_of_In in Hin. apply list_elem_of_In.
  apply in_map_iff in Hin as (x & Hx & Hin). apply filter_In in Hin as [Hin _].
  apply in_map_iff. exists x. split; assumption.
Qed.

(** X5.  In every state the visualizer reaches, at most one resize timer
    is pending, and [lastResizeTimeout] holds its handle; when
    [lastResizeTimeout] is undefined no resize timer is pending. *)
Theorem at_most_one_resize_timer (st : Store) (w h : Z) (es : list Event) :
  let s := run place es (constructor st w h) in
  (length (resizeTimers s) <= 1)%nat /\
  (forall tm, In tm (resizeTimers s) -> lastResizeTimeout s = Some (Timer.handle tm)) /\
  (lastResizeTimeout s = None -> resizeTimers s = []).
Proof.
  intros s.
  destruct (ok_run place es (constructor st w h) (ok_constructor st w h))
    as (Hnd & _ & Hre).
  fold s in Hnd, Hre. rewrite Forall_forall in Hre.
  assert (Hlast : forall tm, In tm (resizeTimers s) ->
                             lastResizeTimeout s = Some (Timer.handle tm)).
  { intros tm Hin. apply filter_In in Hin as [Hin Er].
    apply (Hre tm (proj2 (list_elem_of_In _ _) Hin) Er). }
  split; [|split; [exact Hlast|]].
  - destruct (resizeTimers s) as [|a [|b l]] eqn:E; simpl; try lia. exfalso.
    pose proof (Hlast a (or_introl eq_refl)) as H1.
    pose proof (Hlast b (or_intror (or_introl eq_refl))) as H2.
    assert (Ha : In a (timers s)).
    { assert (H : In a (resizeTimers s)) by (rewrite E; left; reflexivity).
      apply filter_In in H as [H _]. exact H. }
    assert (Hb : In b (timers s)).
    { assert (H : In b (resizeTimers s)) by (rewrite E; right; left; reflexivity).
      apply filter_In in H as [H _]. exact H. }
    assert (Hab : a = b)
      by (apply (same_handle (timers s)); [exact Hnd|exact Ha|exact Hb|congruence]).
    subst b.
    pose proof (NoDup_handles_filter isResize (timers s) Hnd) as Hnd'.
    fold (resizeTimers s) in Hnd'. rewrite E in Hnd'. simpl in Hnd'.
    apply NoDup_cons in Hnd' as [Hnotin _]. apply Hnotin. constructor.
  - intros Hnone. destruct (resizeTimers s) as [|a l] eqn:E; [reflexivity|].
    specialize (Hlast a (or_introl eq_refl)). congruence.
Qed.
End CollectionProps.

(** ** Tooltips *)

Section TooltipProps.
Import Viz Viz.State Scene Views Loop.
Variable place : nat -> Q * Q.

Lemma quieter_refl s : quieter s s.
Proof. intros t tip H V. exists tip. split; assumption. Qed.

Lemma quieter_trans s1 s2 s3 : quieter s1 s2 -> quieter s2 s3 -> quieter s1 s3.
Proof.
  intros H12 H23 t tip3 H V. destruct (H23 t tip3 H V) as (tip2 & H2 & V2).
  apply (H12 t tip2 H2 V2).
Qed.

Lemma quieter_body s s' : body s' = body s -> quieter s s'.
Proof. intros E t tip H V. rewrite E in H. exists tip. split; assumption. Qed.

(** Changing one tooltip without making it visible. *)
Lemma quieter_withTip t f s :
  (forall tip, Tooltip.visible (f tip) = true -> Tooltip.visible tip = true) ->
  quieter s (withTip t f s).
Proof.
  intros Hf t' tip' H V. unfold withTip in H. simpl in H.
  destruct (decide (t = t')) as [<-|Hne].
  - rewrite list_lookup_alter_eq in H.
    apply fmap_Some in H as (tip & Ht & ->).
    exists tip. split; [exact Ht|apply Hf, V].
  - rewrite list_lookup_alter_ne in H by exact Hne. exists tip'. split; assumption.
Qed.

Lemma quieter_callHideTask f s : quieter s (callHideTask f s).
Proof.
  destruct f as [t|]; [|apply quieter_refl].
  apply quieter_withTip. intros tip V. discriminate V.
Qed.

Lemma quieter_fire tm s : quieter s (fire tm s).
Proof.
  unfold fire. destruct (Timer.task tm) as [|f]; [apply quieter_body; reflexivity|].
  refine (quieter_trans _ _ _ _ (quieter_callHideTask f _)).
  apply quieter_body. reflexivity.
Qed.

Lemma quieter_advance t s : quieter s (advance t s).
Proof.
  unfold advance.
  apply (quieter_trans _ (runTimers (length (timers s)) t s));
    [|apply quieter_body; reflexivity].
  apply (runTimers_invariant (fun s' => quieter s s') t); [|apply quieter_refl].
  intros s' tm H _. apply (quieter_trans _ _ _ H), quieter_fire.
Qed.

Lemma body_resizeObserved entries s : body (resizeObserved entries s) = body s.
Proof.
  unfold resizeObserved. revert s.
  induction entries as [|e entries IH]; intros s; simpl; [reflexivity|].
  rewrite IH. unfold resizeEntry. destruct (lastResizeTimeout s); reflexivity.
Qed.

Lemma body_ticked s : body (snd (ticked s)) = body s.
Proof.
  unfold ticked.
  match goal with |- context [match ?r with _ => _ end] => destruct r as [[|f] ls] end;
    reflexivity.
Qed.

(** [update] adds a hidden tooltip and leaves the others alone. *)
Lemma quieter_update s : quieter s (update place s).
Proof.
  intros t tip' H V.
  destruct (update_effect place s) as (_ & _ & _ & _ & Hb & _).
  rewrite Hb in H. apply lookup_app_Some in H as [H|[_ H]].
  - exists tip'. split; assumption.
  - destruct (t - length (body s))%nat; simpl in H; [|discriminate H].
    injection H as <-. discriminate V.
Qed.

Lemma hideTask_callHideTask f s : hideTask (callHideTask f s) = hideTask s.
Proof. destruct f; reflexivity. Qed.

Lemma hideTask_advance t s : hideTask (advance t s) = hideTask s.
Proof.
  unfold advance.
  change (hideTask (runTimers (length (timers s)) t s) = hideTask s).
  apply (runTimers_invariant (fun s' => hideTask s' = hideTask s) t); [|reflexivity].
  intros s' tm H _. rewrite <- H. unfold fire.
  destruct (Timer.task tm) as [|f]; [reflexivity|].
  rewrite hideTask_callHideTask. reflexivity.
Qed.

Lemma hideTask_resizeObserved entries s : hideTask (resizeObserved entries s) = hideTask s.
Proof.
  unfold resizeObserved. revert s.
  induction entries as [|e entries IH]; intros s; simpl; [reflexivity|].
  rewrite IH. unfold resizeEntry. destruct (lastResizeTimeout s); reflexivity.
Qed.

Lemma hideTask_ticked s : hideTask (snd (ticked s)) = hideTask s.
Proof.
  unfold ticked.
  match goal with |- context [match ?r with _ => _ end] => destruct r as [[|f] ls] end;
    reflexivity.
Qed.

Lemma onlyVisible_quieter o s s' : onlyVisible o s -> quieter s s' -> onlyVisible o s'.
Proof.
  intros Ho Hq t tip' H V. destruct (Hq t tip' H V) as (tip & H0 & V0).
  apply (Ho t tip H0 V0).
Qed.

(** Calling [hideTask] when it names the only visible tooltip leaves no
    tooltip visible. *)
Lemma callHideTask_hides_all s o :
  onlyVisible (hideTask s) s -> onlyVisible o (callHideTask (hideTask s) s).
Proof.
  intros Ho t tip' H V. exfalso. unfold callHideTask in H.
  destruct (hideTask s) as [h|] eqn:Eh.
  - unfold withTip in H. simpl in H. destruct (decide (h = t)) as [<-|Hne].
    + rewrite list_lookup_alter_eq in H.
      apply fmap_Some in H as (tip & _ & ->). discriminate V.
    + rewrite list_lookup_alter_ne in H by exact Hne.
      specialize (Ho t tip' H V). congruence.
  - specialize (Ho t tip' H V). discriminate Ho.
Qed.

Lemma show_only t s :
  (forall o, onlyVisible o s) -> onlyVisible (Some t) (withTip t Tooltip.show s).
Proof.
  intros Hall t' tip' H V. unfold withTip in H. simpl in H.
  destruct (decide (t = t')) as [<-|Hne]; [reflexivity|].
  rewrite list_lookup_alter_ne in H by exact Hne. apply (Hall (Some t) t' tip' H V).
Qed.

(** [mouseover] on a node with listeners: afterwards only the node's
    tooltip can be visible. *)
Lemma nodeMouseover_shows g tip s :
  NodeGroup.listeners g = Some tip ->
  onlyVisible (hideTask s) s ->
  onlyVisible (Some tip) (nodeMouseover g s) /\
  hideTask (nodeMouseover g s) = hideTask s.
Proof.
  intros Hl Ho. unfold nodeMouseover. rewrite Hl.
  set (s1 := clearTimeout (showTimeoutOf tip s) s).
  set (s2 := withTip tip (Tooltip.setData (NodeGroup.innerDatum g)
                            (Config.circleRadiusUnit (config s1))) s1).
  assert (H1 : hideTask s1 = hideTask s)
    by (unfold s1; destruct (showTimeoutOf tip s); reflexivity).
  assert (H2 : hideTask s2 = hideTask s) by exact H1.
  assert (Ho2 : onlyVisible (hideTask s2) s2).
  { rewrite H2. apply (onlyVisible_quieter _ s _ Ho).
    apply (quieter_trans _ s1).
    - apply quieter_body. unfold s1. destruct (showTimeoutOf tip s); reflexivity.
    - apply quieter_withTip. intros x V. exact V. }
  split.
  - apply show_only. intros o. apply callHideTask_hides_all. exact Ho2.
  - unfold withTip at 1. simpl. rewrite hideTask_callHideTask. exact H2.
Qed.

Lemma nodeMouseout_arms g tip s :
  NodeGroup.listeners g = Some tip ->
  quieter s (nodeMouseout g s) /\ hideTask (nodeMouseout g s) = Some tip.
Proof.
  intros Hl. unfold nodeMouseout. rewrite Hl. split; [|reflexivity].
  apply (quieter_trans _ (snd (setTimeout (HideTask (Some tip)) 800 (set_hideTask (Some tip) s)))).
  - apply quieter_body. reflexivity.
  - apply (quieter_withTip tip (Tooltip.set_showTimeout _)). intros x V. exact V.
Qed.

(** Events other than pointer events on nodes show no tooltip and leave
    [hideTask] as it is. *)
Lemma step_quiet e s :
  match e with NodeMouseover _ | NodeMouseout _ => False | _ => True end ->
  quieter s (step place e s) /\ hideTask (step place e s) = hideTask s.
Proof.
  destruct e; simpl; intros He; try contradiction.
  - split; [apply (quieter_trans _ (set_nodes (nodes s ++ [node]) s));
              [apply quieter_body; reflexivity|apply quieter_update]|reflexivity].
  - split; [apply (quieter_trans _ (set_links (links s ++ [link]) s));
              [apply quieter_body; reflexivity|apply quieter_update]|reflexivity].
  - split; [apply quieter_body, body_ticked|apply hideTask_ticked].
  - split; [apply quieter_body|]; reflexivity.
  - unfold stepBoundaryForce. destruct (Simulation.boundary (simulation s));
      (split; [apply quieter_body|]; reflexivity).
  - destruct active; (split; [apply quieter_body|]; reflexivity).
  - split; [apply quieter_body|]; reflexivity.
  - destruct active; (split; [apply quieter_body|]; reflexivity).
  - split; [apply quieter_body; rewrite body_resizeObserved; reflexivity|].
    rewrite hideTask_resizeObserved. reflexivity.
  - split; [apply quieter_advance|apply hideTask_advance].
  - unfold tipMouseover.
    match goal with |- context [clearTimeout ?h s] => destruct h end;
      (split; [apply quieter_body|]; reflexivity).
  - unfold tipMouseout.
    match goal with |- context [body s !! ?i] => destruct (body s !! i) end;
      [|split; [apply quieter_refl|reflexivity]].
    split; [|reflexivity].
    apply (quieter_trans _ (snd (setTimeout (HideTask (hideTask s)) 800 s)));
      [apply quieter_body; reflexivity|].
    apply (quieter_withTip _ (Tooltip.set_showTimeout _)). intros x V. exact V.
Qed.

(** The invariant of the tooltips: every visible tooltip is the one of
    the node under the pointer or, when the pointer is over no such
    node, the one that [hideTask] will hide. *)
Lemma tooltips_invariant es :
  forall hover s,
    onlyVisible (shown hover s) s ->
    paired place hover es s ->
    forall es1 es2, es = es1 ++ es2 -> atMostOneVisible (run place es1 s).
Proof.
  induction es as [|e es IH]; intros hover s Ho Hp es1 es2 Hes.
  - destruct es1; [|discriminate Hes]. simpl.
    intros t1 t2 tip1 tip2 H1 V1 H2 V2.
    pose proof (Ho t1 tip1 H1 V1) as E1. pose proof (Ho t2 tip2 H2 V2) as E2.
    congruence.
  - destruct es1 as [|e1 es1].
    { simpl. intros t1 t2 tip1 tip2 H1 V1 H2 V2.
      pose proof (Ho t1 tip1 H1 V1) as E1. pose proof (Ho t2 tip2 H2 V2) as E2.
      congruence. }
    simpl in Hes. injection Hes as <- Hes.
    change (run place (e :: es1) s) with (run place es1 (step place e s)).
    assert (Hquiet : forall hover',
               match e with NodeMouseover _ | NodeMouseout _ => False | _ => True end ->
               paired place hover' es (step place e s) -> hover' = hover ->
               atMostOneVisible (run place es1 (step place e s))).
    { intros hover' He Hp' ->. destruct (step_quiet e s He) as [Hq Hh].
      refine (IH hover (step place e s) _ Hp' es1 es2 Hes).
      assert (Hs : shown hover (step place e s) = shown hover s)
        by (unfold shown; rewrite Hh; reflexivity).
      rewrite Hs. apply (onlyVisible_quieter _ s _ Ho Hq). }
    destruct e; try (apply (Hquiet hover I Hp eq_refl)).
    + (* mouseover *)
      simpl in Hp. simpl. unfold onGroup in *.
      destruct (groups s !! i) as [g|] eqn:Eg.
      * destruct Hp as [-> Hp].
        refine (IH (Some (NodeGroup.listeners g)) (nodeMouseover g s) _ Hp es1 es2 Hes).
        destruct (NodeGroup.listeners g) as [tip|] eqn:El.
        -- simpl. apply (nodeMouseover_shows g tip s El Ho).
        -- unfold nodeMouseover. rewrite El. exact Ho.
      * apply (IH hover s Ho Hp es1 es2 Hes).
    + (* mouseout *)
      simpl in Hp. simpl. unfold onGroup in *.
      destruct (groups s !! i) as [g|] eqn:Eg.
      * destruct Hp as [-> Hp].
        refine (IH None (nodeMouseout g s) _ Hp es1 es2 Hes).
        destruct (NodeGroup.listeners g) as [tip|] eqn:El.
        -- destruct (nodeMouseout_arms g tip s El) as [Hq Hh].
           simpl. rewrite Hh. apply (onlyVisible_quieter _ s _ Ho Hq).
        -- unfold nodeMouseout. rewrite El. exact Ho.
      * apply (IH hover s Ho Hp es1 es2 Hes).
Qed.

(** X6.  As long as the pointer delivers the node events in pairs (a
    node's [mouseover] is followed by the [mouseout] of that node before
    another node receives [mouseover]), at most one tooltip is visible at
    any time, whatever else happens in between: nodes and links are
    added, timers fire, the simulation ticks, the viewport is resized,
    the pointer enters or leaves tooltips. *)
Theorem at_most_one_tooltip_visible
    (st : Store) (w h : Z) (es1 es2 : list Event) :
  paired place None (es1 ++ es2) (constructor st w h) ->
  atMostOneVisible (run place es1 (constructor st w h)).
Proof.
  intros Hp.
  apply (tooltips_invariant (es1 ++ es2) None (constructor st w h)) with (es2 := es2);
    [|exact Hp|reflexivity].
  intros t tip H V. simpl in H. rewrite lookup_nil in H. discriminate H.
Qed.
End TooltipProps.

Lemma at_most_one_tooltip_visible_witness :
  let es := [Viz.AddNode 0%nat; Viz.AddNode 1%nat; Viz.NodeMouseover 0%nat;
             Viz.NodeMouseout 0%nat; Viz.NodeMouseover 1%nat] in
  Views.paired Sample.place None (es ++ [Viz.Advance 3000]) (Viz.constructor Sample.objects 1000 800) /\
  Views.atMostOneVisible (Viz.run Sample.place es (Viz.constructor Sample.objects 1000 800)).
Proof.
  intros es.
  assert (Hp : Views.paired Sample.place None (es ++ [Viz.Advance 3000])
                 (Viz.constructor Sample.objects 1000 800)).
  { vm_compute. repeat split; reflexivity. }
  split; [exact Hp|].
  exact (at_most_one_tooltip_visible Sample.place Sample.objects 1000 800
           es [Viz.Advance 3000] Hp).
Defined.

(** Without the pairing both tooltips are visible: [a] receives
    [mouseover] and then [b] does, with no [mouseout] in between. *)
Example two_tooltips_visible_when_unpaired :
  map Viz.Tooltip.visible
      (Viz.State.body
         (Viz.run Sample.place
            [Viz.AddNode 0%nat; Viz.AddNode 1%nat; Viz.NodeMouseover 0%nat;
             Viz.NodeMouseover 1%nat]
            (Viz.constructor Sample.objects 1000 800)))
  = [true; true].
Proof. vm_compute. reflexivity. Qed.

(** ** The keyed join with unique keys *)

Section KeyedJoin.
Import Viz Views.
Context {E D : Type}.
Variable eid : E -> nat.
Variable ekey : E -> string.
Variable dkey : D -> string.

Lemma byKey_cons k e (group : list E) :
  byKey ekey k (e :: group)
  = if String.eqb (ekey e) k then Some e else byKey ekey k group.
Proof. reflexivity. Qed.

(** The index built by the first loop: the first element per key. *)
Lemma indexNodes_lookup (group : list E) :
  forall (m : gmap string E) dup k,
    (fst (indexNodes ekey group m dup)) !! k
    = match m !! k with Some e => Some e | None => byKey ekey k group end.
Proof.
  induction group as [|node group IH]; intros m dup k; cbn [indexNodes].
  - simpl. destruct (m !! k); reflexivity.
  - destruct (m !! ekey node) as [e0|] eqn:Em; rewrite IH.
    + destruct (m !! k) as [e|] eqn:Ek; [reflexivity|].
      rewrite byKey_cons. destruct (String.eqb_spec (ekey node) k) as [Heq|Hne];
        [|reflexivity].
      rewrite Heq in Em. congruence.
    + rewrite byKey_cons. destruct (String.eqb_spec (ekey node) k) as [Heq|Hne].
      * subst k. rewrite lookup_insert_eq, Em. reflexivity.
      * rewrite lookup_insert_ne by exact Hne. reflexivity.
Qed.

(** With unique data keys every datum looks its key up in the index as
    the first loop left it. *)
Lemma bindData_unique (data : list D) :
  forall m : gmap string E,
    NoDup (map dkey data) ->
    fst (bindData dkey data m) = map (fun d => (d, m !! dkey d)) data.
Proof.
  induction data as [|d data IH]; intros m Hnd; simpl; [reflexivity|].
  apply NoDup_cons in Hnd as [Hnotin Hnd].
  assert (Hdel : map (fun d' => (d', delete (dkey d) m !! dkey d')) data
                 = map (fun d' => (d', m !! dkey d')) data).
  { clear IH Hnd. induction data as [|d' data IHd]; simpl; [reflexivity|].
    apply not_elem_of_cons in Hnotin as [Hne Hnotin].
    rewrite lookup_delete_ne by exact Hne. rewrite (IHd Hnotin). reflexivity. }
  destruct (m !! dkey d) as [node|] eqn:Em.
  - specialize (IH (delete (dkey d) m) Hnd).
    destruct (bindData dkey data (delete (dkey d) m)) as [r m']. simpl in *.
    rewrite IH, Hdel. reflexivity.
  - specialize (IH m Hnd). destruct (bindData dkey data m) as [r m']. simpl in *.
    rewrite IH. reflexivity.
Qed.

(** The join under unique data keys: every datum takes the first element
    that carries its key, and enters when there is none. *)
Lemma bindKey_unique (group : list E) (data : list D) :
  NoDup (map dkey data) ->
  fst (bindKey eid ekey dkey group data)
  = map (fun d => (d, byKey ekey (dkey d) group)) data.
Proof.
  intros Hnd. unfold bindKey.
  pose proof (indexNodes_lookup group ∅ []) as Hm.
  destruct (indexNodes ekey group ∅ []) as [m dup]. simpl in Hm.
  pose proof (bindData_unique data m Hnd) as Hb.
  destruct (bindData dkey data m) as [bound m']. simpl in *. rewrite Hb.
  apply map_ext. intros d. rewrite Hm, lookup_empty. reflexivity.
Qed.

Lemma byKey_missing k (group : list E) :
  k ∉ map ekey group -> byKey ekey k group = None.
Proof.
  induction group as [|e group IH]; intros Hk; [reflexivity|]. cbn [map] in Hk.
  apply not_elem_of_cons in Hk as [Hne Hk]. rewrite byKey_cons.
  destruct (String.eqb_spec (ekey e) k); [congruence|apply IH, Hk].
Qed.

Lemma byKey_found e (group : list E) :
  NoDup (map ekey group) -> e ∈ group -> byKey ekey (ekey e) group = Some e.
Proof.
  induction group as [|x group IH]; intros Hnd Hin; [inversion Hin|]. cbn [map] in Hnd.
  apply NoDup_cons in Hnd as [Hnotin Hnd]. rewrite byKey_cons.
  apply elem_of_cons in Hin as [->|Hin]; [rewrite String.eqb_refl; reflexivity|].
  destruct (String.eqb_spec (ekey x) (ekey e)) as [Heq|_]; [|apply IH; assumption].
  exfalso. apply Hnotin. rewrite Heq. apply list_elem_of_fmap_2. exact Hin.
Qed.

(** A selection whose elements are all matched by their own data is left
    as it is. *)
Lemma joined_matched (getDatum : E -> D) (setDatum : D -> E -> E)
    (create : nat -> D -> E) (fresh : nat) (sel : list E) :
  (forall e, setDatum (getDatum e) e = e) ->
  joined setDatum create fresh (map (fun e => (getDatum e, Some e)) sel) = sel /\
  entering (map (fun e => (getDatum e, Some e)) sel) = [].
Proof.
  intros Hset. induction sel as [|e sel [IH1 IH2]]; simpl; [split; reflexivity|].
  rewrite Hset, IH1. split; [reflexivity|exact IH2].
Qed.

Lemma joined_app (setDatum : D -> E -> E) (create : nat -> D -> E) b1 :
  forall fresh b2,
    joined setDatum create fresh (b1 ++ b2)
    = joined setDatum create fresh b1
      ++ joined setDatum create (fresh + length (entering b1)) b2.
Proof.
  induction b1 as [|[d [e|]] b1 IH]; intros fresh b2; simpl.
  - rewrite Nat.add_0_r. reflexivity.
  - rewrite IH. reflexivity.
  - rewrite IH. simpl. rewrite Nat.add_succ_r. reflexivity.
Qed.
End KeyedJoin.

(** ** [update] under unique ids *)

Section UniqueKeyProps.
Import Viz Viz.State Scene Views.
Variable place : nat -> Q * Q.

Lemma initializeNode_keeps i n :
  Node.id (initializeNode place i n) = Node.id n /\
  Node.relSize (initializeNode place i n) = Node.relSize n /\
  Node.relDistance (initializeNode place i n) = Node.relDistance n /\
  Node.description (initializeNode place i n) = Node.description n /\
  Node.fx (initializeNode place i n) = Node.fx n /\
  Node.fy (initializeNode place i n) = Node.fy n.
Proof.
  destruct n as [id im d rs rd [xv|] [yv|] [vxv|] [vyv|] [fxv|] [fyv|]];
    repeat split; reflexivity.
Qed.

(** A property of one object that every initialisation keeps is kept by
    [simulation.nodes(...)]. *)
Lemma initializeNodes_invariant (P : Node.t -> Prop) (r : Ref) :
  (forall i n, P n -> P (initializeNode place i n)) ->
  forall nodes i (st : Store), P (st r) -> P (initializeNodes place i nodes st r).
Proof.
  intros HP nodes. induction nodes as [|r' nodes IH]; intros i st H; simpl; [exact H|].
  apply IH. destruct (Nat.eq_dec r r') as [->|Hne].
  - rewrite modify_same. apply HP, H.
  - rewrite modify_other by exact Hne. exact H.
Qed.

Lemma store_update s :
  store (update place s) = initializeNodes place 0 (nodes s) (store s).
Proof. reflexivity. Qed.

Lemma id_update s r : Node.id (store (update place s) r) = Node.id (store s r).
Proof.
  rewrite store_update.
  apply (initializeNodes_invariant (fun n => Node.id n = Node.id (store s r)));
    [|reflexivity].
  intros i n H. rewrite (proj1 (initializeNode_keeps i n)). exact H.
Qed.

Lemma groups_update s :
  groups (update place s)
  = joined NodeGroup.set_datum (enterNode s (length (body s))) (nextEid s)
      (fst (bindNodes s)).
Proof. reflexivity. Qed.

Lemma defs_update s :
  defs (update place s)
  = defs s ++ imap (fun i d => enterPattern s (nextEid s + length (entering (fst (bindNodes s))) + i) d)
                   (entering (fst (bindNodes s))).
Proof. reflexivity. Qed.

Lemma lines_update s :
  lines (update place s)
  = rev (joined Line.set_datum (fun eid d => Line.Build_t eid d None None None None)
           (S (nextEid s + length (entering (fst (bindNodes s)))
               + length (entering (fst (bindNodes s)))))
           (fst (bindKey Line.eid (fun l => linkKey (store s) (Line.datum l))
                   (linkKey (store s)) (lines s) (links s)))).
Proof. reflexivity. Qed.

Lemma set_datum_same g : NodeGroup.set_datum (NodeGroup.datum g) g = g.
Proof. destruct g; reflexivity. Qed.

Lemma Line_set_datum_same l : Line.set_datum (Line.datum l) l = l.
Proof. destruct l; reflexivity. Qed.

(** The node join when the groups are bound to the first nodes and the
    ids are unique: the groups are matched by their own nodes, the other
    nodes enter. *)
Lemma bindNodes_bound s rest :
  nodes s = map NodeGroup.datum (groups s) ++ rest ->
  NoDup (map (nodeKey (store s)) (nodes s)) ->
  fst (bindNodes s)
  = map (fun g => (NodeGroup.datum g, Some g)) (groups s)
    ++ map (fun d => (d, None)) rest.
Proof.
  intros Hn Hnd. unfold bindNodes. rewrite bindKey_unique by exact Hnd.
  rewrite Hn in *. rewrite map_app, map_map. rewrite map_app, map_map in Hnd.
  apply NoDup_app in Hnd as (Hnd1 & Hdisj & _). f_equal.
  - apply map_ext_in. intros g Hg. f_equal.
    apply (byKey_found (fun g => nodeKey (store s) (NodeGroup.datum g)) g (groups s));
      [exact Hnd1|apply list_elem_of_In, Hg].
  - apply map_ext_in. intros d Hd. f_equal. apply byKey_missing.
    rewrite <- map_map. intros Hin.
    apply (Hdisj (nodeKey (store s) d)).
    + rewrite <- map_map. exact Hin.
    + apply list_elem_of_fmap_2, list_elem_of_In, Hd.
Qed.

(** X7.  When the node groups are bound to the nodes and the ids stay
    unique, [addNode] creates exactly one node group, one pattern and one
    tooltip: the groups and patterns that exist are left as they are and
    the new ones are appended after them. *)
Theorem addNode_enters_one_group s r :
  bound s ->
  NoDup (map (nodeKey (store s)) (nodes s ++ [r])) ->
  let s' := addNode place r s in
  groups s' = groups s ++ [enterNode s (length (body s)) (nextEid s) r] /\
  defs s' = defs s ++ [enterPattern s (S (nextEid s)) r] /\
  body s' = body s ++ [Tooltip.Build_t (nextEid s + 2) false None None].
Proof.
  intros [Hg _] Hnd s'. subst s'. unfold addNode.
  set (s0 := set_nodes (nodes s ++ [r]) s).
  assert (Hb : fst (bindNodes s0)
               = map (fun g => (NodeGroup.datum g, Some g)) (groups s) ++ [(r, None)]).
  { apply (bindNodes_bound s0 [r]); [simpl; rewrite Hg; reflexivity|exact Hnd]. }
  destruct (joined_matched NodeGroup.datum NodeGroup.set_datum
              (enterNode s0 (length (body s0))) (nextEid s0) (groups s) set_datum_same)
    as [Hj He].
  assert (Hent : entering (fst (bindNodes s0)) = [r]).
  { rewrite Hb. unfold entering in *. rewrite omap_app, He. reflexivity. }
  split; [|split].
  - rewrite groups_update, Hb, joined_app, Hj.
    unfold entering in *. rewrite He. simpl. rewrite Nat.add_0_r. reflexivity.
  - rewrite defs_update, Hent. simpl.
    replace (nextEid s + 1 + 0)%nat with (S (nextEid s)) by lia. reflexivity.
  - destruct (update_effect place s0) as (_ & _ & _ & _ & Hbody & _).
    rewrite Hbody, Hent. simpl.
    replace (nextEid s + 1 + 1)%nat with (nextEid s + 2)%nat by lia. reflexivity.
Qed.

(** An [update] of a scene that the previous [update] left, with unique
    ids and keys: every node group and every line is matched by its own
    datum, nothing enters. *)
Lemma update_of_updated s (L : list Line.t) :
  map NodeGroup.datum (groups s) = nodes s ->
  lines s = rev L -> map Line.datum L = links s ->
  uniqueKeys s ->
  groups (update place s) = groups s /\
  lines (update place s) = lines s /\
  defs (update place s) = defs s /\
  body (update place s) = body s ++ [Tooltip.Build_t (nextEid s) false None None].
Proof.
  intros Hg Hl HL [Hu1 Hu2].
  assert (Hb : fst (bindNodes s)
               = map (fun g => (NodeGroup.datum g, Some g)) (groups s)).
  { rewrite (bindNodes_bound s []); [apply app_nil_r| |exact Hu1].
    rewrite Hg, app_nil_r. reflexivity. }
  destruct (joined_matched NodeGroup.datum NodeGroup.set_datum
              (enterNode s (length (body s))) (nextEid s) (groups s) set_datum_same)
    as [Hj He].
  assert (Hent : entering (fst (bindNodes s)) = []) by (rewrite Hb; exact He).
  split; [rewrite groups_update, Hb; exact Hj|].
  split; [|split].
  - rewrite lines_update, Hent. simpl.
    rewrite bindKey_unique by exact Hu2.
    assert (Hm : map (fun d => (d, byKey (fun l => linkKey (store s) (Line.datum l))
                                     (linkKey (store s) d) (lines s))) (links s)
                 = map (fun l => (Line.datum l, Some l)) L).
    { rewrite <- HL, map_map. apply map_ext_in. intros l Hin. f_equal.
      apply (byKey_found (fun l => linkKey (store s) (Line.datum l)) l (lines s)).
      - rewrite Hl, map_rev, <- Permutation_rev.
        rewrite <- HL, map_map in Hu2. exact Hu2.
      - rewrite Hl. apply list_elem_of_In, in_rev. rewrite rev_involutive. exact Hin. }
    rewrite Hm.
    destruct (joined_matched Line.datum Line.set_datum
                (fun eid d => Line.Build_t eid d None None None None)
                (S (nextEid s + 0 + 0)) L Line_set_datum_same) as [HjL _].
    rewrite HjL. symmetry. exact Hl.
  - rewrite defs_update, Hent. simpl. apply app_nil_r.
  - destruct (update_effect place s) as (_ & _ & _ & _ & Hbody & _).
    rewrite Hbody, Hent. simpl. rewrite !Nat.add_0_r. reflexivity.
Qed.

(** X8.  With unique node ids and unique link keys, calling [update]
    again changes nothing in the svg: the nodes, the links, the node
    groups, the lines and the patterns after the second call are the ones
    the first call left, in the same order.  What the second call adds is
    one hidden tooltip in [document.body]. *)
Theorem update_again_keeps_the_svg s :
  uniqueKeys s ->
  let s1 := update place s in
  let s2 := update place s1 in
  scene s2 = scene s1 /\
  body s2 = body s1 ++ [Tooltip.Build_t (nextEid s1) false None None].
Proof.
  intros [Hu1 Hu2] s1 s2.
  destruct (update_effect place s) as (Hn & Hli & Hg & _).
  fold s1 in Hn, Hli, Hg.
  assert (Hkeys : uniqueKeys s1).
  { split.
    - rewrite Hn. erewrite map_ext; [exact Hu1|].
      intros d. unfold nodeKey. apply id_update.
    - rewrite Hli. erewrite map_ext; [exact Hu2|].
      intros d. unfold linkKey. unfold s1. rewrite !id_update. reflexivity. }
  assert (HL : map Line.datum
                 (joined Line.set_datum (fun eid d => Line.Build_t eid d None None None None)
                    (S (nextEid s + length (entering (fst (bindNodes s)))
                        + length (entering (fst (bindNodes s)))))
                    (fst (bindKey Line.eid (fun l => linkKey (store s) (Line.datum l))
                            (linkKey (store s)) (lines s) (links s))))
               = links s1).
  { rewrite (joined_datum Line.datum); [|reflexivity|reflexivity].
    rewrite bindKey_data. symmetry. exact Hli. }
  destruct (update_of_updated s1 _ (eq_trans Hg (eq_sym Hn)) (lines_update s) HL Hkeys)
    as (H1 & H2 & H3 & H4).
  fold s2 in H1, H2, H3, H4. split; [|exact H4].
  destruct (update_effect place s1) as (Hn2 & Hli2 & _).
  fold s2 in Hn2, Hli2. unfold scene. rewrite Hn2, Hli2, H1, H2, H3. reflexivity.
Qed.
End UniqueKeyProps.

Lemma addNode_enters_one_group_witness :
  Scene.bound Sample.oneNode /\
  NoDup (map (Viz.nodeKey (Viz.State.store Sample.oneNode))
             (Viz.State.nodes Sample.oneNode ++ [1%nat])) /\
  map Viz.NodeGroup.eid (Viz.State.groups (Viz.addNode Sample.place 1%nat Sample.oneNode))
  = map Viz.NodeGroup.eid (Viz.State.groups Sample.oneNode) ++ [3%nat].
Proof.
  assert (Hb : Scene.bound Sample.oneNode) by (split; vm_compute; reflexivity).
  assert (Hnd : NoDup (map (Viz.nodeKey (Viz.State.store Sample.oneNode))
                           (Viz.State.nodes Sample.oneNode ++ [1%nat]))).
  { apply (bool_decide_unpack _). vm_compute. exact I. }
  split; [exact Hb|]. split; [exact Hnd|].
  destruct (addNode_enters_one_group Sample.place Sample.oneNode 1%nat Hb Hnd) as (Hg & _).
  rewrite Hg, map_app. reflexivity.
Defined.

Lemma update_again_keeps_the_svg_witness :
  Views.uniqueKeys Sample.twoNodes /\
  Scene.scene (Viz.update Sample.place (Viz.update Sample.place Sample.twoNodes))
  = Scene.scene (Viz.update Sample.place Sample.twoNodes).
Proof.
  assert (Hu : Views.uniqueKeys Sample.twoNodes).
  { split; apply (bool_decide_unpack _); vm_compute; exact I. }
  split; [exact Hu|].
  exact (proj1 (update_again_keeps_the_svg Sample.place Sample.twoNodes Hu)).
Defined.

(** ** Signs of the configuration *)

Section ConfigSigns.
Import Viz Viz.State.
Local Open Scope Q_scope.

Lemma sizeFactor_nonneg w h : (0 <= w)%Z -> (0 <= h)%Z -> 0 <= sizeFactor w h.
Proof.
  intros Hw Hh. unfold sizeFactor.
  assert (Hm : (0 <= Z.min w h)%Z) by lia.
  unfold Qle, Qdiv, Qmult, Qinv, inject_Z. simpl. lia.
Qed.

Lemma sizeFactor_zero w h : (Z.min w h = 0)%Z -> sizeFactor w h == 0.
Proof. intros Hm. unfold sizeFactor. rewrite Hm. reflexivity. Qed.

(** X9.  For a viewport with non-negative sides the configuration has
    the signs the forces rely on: the link distance unit and the radius
    unit are not negative and the charge is not positive (never an
    attraction).  When a side is 0 all three are 0: every disc has radius
    0 and the collision radius is the bare buffer 10. *)
Theorem config_signs (st : Store) (w h : Z) :
  (0 <= w)%Z -> (0 <= h)%Z ->
  let cfg := config (constructor st w h) in
  0 <= Config.linkDistanceUnit cfg /\
  0 <= Config.circleRadiusUnit cfg /\
  Config.chargeStrength cfg <= 0 /\
  (forall n, 0 <= Node.relSize n -> 0 <= discRadius cfg n /\ 10 <= collideRadius cfg n) /\
  (Z.min w h = 0%Z ->
   Config.linkDistanceUnit cfg == 0 /\ Config.circleRadiusUnit cfg == 0 /\
   Config.chargeStrength cfg == 0 /\
   forall n, discRadius cfg n == 0 /\ collideRadius cfg n == 10).
Proof.
  intros Hw Hh cfg. subst cfg. rewrite constructor_config.
  pose proof (sizeFactor_nonneg w h Hw Hh) as Hf.
  unfold configOf, discRadius, collideRadius. simpl.
  split; [|split; [|split; [|split]]].
  - lra.
  - lra.
  - lra.
  - intros n Hn.
    assert (H : 0 <= Node.relSize n * (80 * sizeFactor w h)).
    { apply Qmult_le_0_compat; [exact Hn|].
      apply Qmult_le_0_compat; [discriminate|exact Hf]. }
    split; [exact H|]. lra.
  - intros Hm. pose proof (sizeFactor_zero w h Hm) as Hz.
    split; [rewrite Hz; reflexivity|]. split; [rewrite Hz; reflexivity|].
    split; [rewrite Hz; reflexivity|]. intros n. rewrite Hz. split; ring.
Qed.

Lemma config_signs_witness :
  let cfg := config (constructor Sample.objects 0 800) in
  (0 <= 0)%Z /\ (0 <= 800)%Z /\
  Config.chargeStrength cfg <= 0 /\ collideRadius cfg Sample.nodeA == 10.
Proof.
  intros cfg. split; [lia|]. split; [lia|].
  destruct (config_signs Sample.objects 0 800 ltac:(lia) ltac:(lia))
    as (_ & _ & Hc & _ & Hz).
  split; [exact Hc|]. destruct (Hz eq_refl) as (_ & _ & _ & Hn).
  apply (proj2 (Hn Sample.nodeA)).
Defined.
End ConfigSigns.

(** ** Direction of the boundary force *)

Section BoundaryDirection.
Import Viz Viz.State.
Local Open Scope Q_scope.

(** The velocity that the force leaves on one axis, for a position [p],
    a velocity [v] and the limits [lo] and [hi] of that axis. *)
Lemma boundaryForceNode_vx params cfg alpha n :
  Node.vx (boundaryForceNode params cfg alpha n)
  = match Node.x n, Node.vx n with
    | Some p, Some v =>
        if Qle_bool p (discRadius cfg n) then
          Some (v + (discRadius cfg n - p) * BoundaryParams.strength params * alpha)
        else if Qle_bool (BoundaryParams.width params - discRadius cfg n) p then
          Some (v + (BoundaryParams.width params - discRadius cfg n - p)
                    * BoundaryParams.strength params * alpha)
        else Some v
    | _, _ => Node.vx n
    end.
Proof.
  destruct n as [i im d rs rd [xv|] [yv|] [vxv|] [vyv|] fxv fyv];
    unfold boundaryForceNode, discRadius; simpl;
    repeat match goal with |- context [if ?b then _ else _] => destruct b end;
    reflexivity.
Qed.

Lemma boundaryForceNode_vy params cfg alpha n :
  Node.vy (boundaryForceNode params cfg alpha n)
  = match Node.y n, Node.vy n with
    | Some p, Some v =>
        if Qle_bool p (discRadius cfg n) then
          Some (v + (discRadius cfg n - p) * BoundaryParams.strength params * alpha)
        else if Qle_bool (BoundaryParams.height params - discRadius cfg n) p then
          Some (v + (BoundaryParams.height params - discRadius cfg n - p)
                    * BoundaryParams.strength params * alpha)
        else Some v
    | _, _ => Node.vy n
    end.
Proof.
  destruct n as [i im d rs rd [xv|] [yv|] [vxv|] [vyv|] fxv fyv];
    unfold boundaryForceNode, discRadius; simpl;
    repeat match goal with |- context [if ?b then _ else _] => destruct b end;
    reflexivity.
Qed.

(** X10.  With a non-negative [alpha] and strength, the boundary force
    corrects a velocity towards the inside and in proportion to the
    overshoot.  On the x axis, with [r] the disc radius: at [x <= r] the
    velocity grows by [(r - x) * strength * alpha]; at [x >= width - r]
    (and [x > r]: the lower limit is tested first) it shrinks by
    [(x - (width - r)) * strength * alpha]; without [x] or without [vx]
    nothing is written.  The y axis is treated the same way against
    [height], independently of the x axis. *)
Theorem boundary_force_corrects_inward params cfg alpha n :
  0 <= alpha -> 0 <= BoundaryParams.strength params ->
  let r := discRadius cfg n in
  let n' := boundaryForceNode params cfg alpha n in
  (forall p v, Node.x n = Some p -> Node.vx n = Some v ->
     (p <= r ->
      Node.vx n' = Some (v + (r - p) * BoundaryParams.strength params * alpha) /\
      v <= v + (r - p) * BoundaryParams.strength params * alpha) /\
     (r < p -> BoundaryParams.width params - r <= p ->
      Node.vx n' = Some (v + (BoundaryParams.width params - r - p)
                             * BoundaryParams.strength params * alpha) /\
      v + (BoundaryParams.width params - r - p) * BoundaryParams.strength params * alpha
      <= v)) /\
  (forall p v, Node.y n = Some p -> Node.vy n = Some v ->
     (p <= r ->
      Node.vy n' = Some (v + (r - p) * BoundaryParams.strength params * alpha) /\
      v <= v + (r - p) * BoundaryParams.strength params * alpha) /\
     (r < p -> BoundaryParams.height params - r <= p ->
      Node.vy n' = Some (v + (BoundaryParams.height params - r - p)
                             * BoundaryParams.strength params * alpha) /\
      v + (BoundaryParams.height params - r - p) * BoundaryParams.strength params * alpha
      <= v)) /\
  ((Node.x n = None \/ Node.vx n = None) -> Node.vx n' = Node.vx n) /\
  ((Node.y n = None \/ Node.vy n = None) -> Node.vy n' = Node.vy n).
Proof.
  intros Ha Hs r n'. subst n'.
  assert (Hpos : forall d, 0 <= d -> 0 <= d * BoundaryParams.strength params * alpha).
  { intros d Hd. apply Qmult_le_0_compat; [|exact Ha].
    apply Qmult_le_0_compat; [exact Hd|exact Hs]. }
  assert (Hneg : forall d, d <= 0 -> d * BoundaryParams.strength params * alpha <= 0).
  { intros d Hd.
    assert (E : d * BoundaryParams.strength params * alpha
                == - ((- d) * BoundaryParams.strength params * alpha)) by ring.
    rewrite E. pose proof (Hpos (- d) ltac:(lra)). lra. }
  split; [|split; [|split]].
  - intros p v Hx Hv. rewrite boundaryForceNode_vx, Hx, Hv. fold r. split.
    + intros Hle. apply Qle_bool_iff in Hle. rewrite Hle. split; [reflexivity|].
      apply Qle_bool_iff in Hle. pose proof (Hpos (r - p) ltac:(lra)). lra.
    + intros Hlt Hge. rewrite (Qle_bool_false p r Hlt).
      apply Qle_bool_iff in Hge. rewrite Hge. split; [reflexivity|].
      apply Qle_bool_iff in Hge.
      pose proof (Hneg (BoundaryParams.width params - r - p) ltac:(lra)). lra.
  - intros p v Hy Hv. rewrite boundaryForceNode_vy, Hy, Hv. fold r. split.
    + intros Hle. apply Qle_bool_iff in Hle. rewrite Hle. split; [reflexivity|].
      apply Qle_bool_iff in Hle. pose proof (Hpos (r - p) ltac:(lra)). lra.
    + intros Hlt Hge. rewrite (Qle_bool_false p r Hlt).
      apply Qle_bool_iff in Hge. rewrite Hge. split; [reflexivity|].
      apply Qle_bool_iff in Hge.
      pose proof (Hneg (BoundaryParams.height params - r - p) ltac:(lra)). lra.
  - intros [H|H]; rewrite boundaryForceNode_vx, H; [reflexivity|].
    destruct (Node.x n); reflexivity.
  - intros [H|H]; rewrite boundaryForceNode_vy, H; [reflexivity|].
    destruct (Node.y n); reflexivity.
Qed.

Lemma boundary_force_corrects_inward_witness :
  let params := BoundaryParams.Build_t 1000 800 (3 # 10) in
  let n := store Sample.strayed 0%nat in
  0 <= 1 /\ 0 <= BoundaryParams.strength params /\
  -5 <= discRadius (config Sample.strayed) n /\
  Node.vx (boundaryForceNode params (config Sample.strayed) 1 n)
  = Some (0 + (discRadius (config Sample.strayed) n - -5) * (3 # 10) * 1).
Proof.
  intros params n.
  assert (Ha : 0 <= 1) by discriminate.
  assert (Hs : 0 <= BoundaryParams.strength params) by discriminate.
  assert (Hr : -5 <= discRadius (config Sample.strayed) n) by (vm_compute; discriminate).
  split; [exact Ha|]. split; [exact Hs|]. split; [exact Hr|].
  destruct (boundary_force_corrects_inward params (config Sample.strayed) 1 n Ha Hs)
    as (Hx & _).
  destruct (Hx (-5) 0 eq_refl eq_refl) as [Hlow _].
  exact (proj1 (Hlow Hr)).
Defined.
End BoundaryDirection.

(** ** Dragging *)

Section DragProps.
Import Viz Viz.State Scene.
Local Open Scope Q_scope.

(** X11.  A drag gesture that is the only one in progress ([active] is
    0): [dragstarted] pins the node at the pointer and raises the alpha
    target to 0.3 with the simulation running, [dragged] moves the pin,
    and [dragended] lowers the target to 0 and removes the pin.
    Afterwards the node has its old position and velocity and no pin,
    every other node is as it was, and the scene is untouched.  When
    another gesture is in progress the simulation is left alone. *)
Theorem drag_pins_then_releases (s : State.t) (d : Ref) (ex ey ex' ey' : Q) :
  let s1 := dragstarted false ex ey d s in
  let s2 := dragged ex' ey' d s1 in
  let s3 := dragended false d s2 in
  (Node.fx (store s1 d) = Some ex /\ Node.fy (store s1 d) = Some ey /\
   Simulation.alphaTarget (simulation s1) = 3 # 10 /\
   Simulation.running (simulation s1) = true) /\
  (Node.fx (store s2 d) = Some ex' /\ Node.fy (store s2 d) = Some ey') /\
  (Node.fx (store s3 d) = None /\ Node.fy (store s3 d) = None /\
   Simulation.alphaTarget (simulation s3) = 0) /\
  (Node.x (store s3 d) = Node.x (store s d) /\ Node.y (store s3 d) = Node.y (store s d) /\
   Node.vx (store s3 d) = Node.vx (store s d) /\ Node.vy (store s3 d) = Node.vy (store s d)) /\
  (forall r, r <> d -> store s3 r = store s r) /\
  scene s3 = scene s /\
  simulation (dragended true d (dragged ex' ey' d (dragstarted true ex ey d s)))
  = simulation s.
Proof.
  intros s1 s2 s3. subst s1 s2 s3. unfold dragended, dragged, dragstarted. simpl.
  rewrite !modify_same. simpl.
  repeat split; try reflexivity.
  intros r Hr. rewrite !modify_other by exact Hr. reflexivity.
Qed.
End DragProps.

(** ** Positions after [update] *)

Section PlacementProps.
Import Viz Viz.State Scene Views.
Variable place : nat -> Q * Q.

Lemma initializeNode_placed i n : placed (initializeNode place i n).
Proof.
  destruct n as [id im d rs rd [xv|] [yv|] [vxv|] [vyv|] [fxv|] [fyv|]];
    repeat split; eexists; reflexivity.
Qed.

Lemma initializeNodes_placed nodes :
  forall i (st : Store) r, r ∈ nodes -> placed (initializeNodes place i nodes st r).
Proof.
  induction nodes as [|r' nodes IH]; intros i st r Hin; [inversion Hin|]. simpl.
  apply elem_of_cons in Hin as [->|Hin]; [|apply IH, Hin].
  apply (initializeNodes_invariant place placed r').
  - intros j n _. apply initializeNode_placed.
  - rewrite modify_same. apply initializeNode_placed.
Qed.

(** X12.  [update] leaves every node of [this.nodes] with a position and
    a velocity; so, when every link joins two nodes that have been
    added, the tick callback that follows an [update] ends normally. *)
Theorem update_places_the_nodes (s : State.t) :
  (forall r, r ∈ nodes s -> placed (store (update place s) r)) /\
  ((forall link, link ∈ links s ->
                 Link.source link ∈ nodes s /\ Link.target link ∈ nodes s) ->
   fst (ticked (update place s)) = Normal).
Proof.
  assert (Hp : forall r, r ∈ nodes s -> placed (store (update place s) r)).
  { intros r Hr. rewrite store_update. apply initializeNodes_placed, Hr. }
  split; [exact Hp|]. intros Hlinks.
  destruct (ticked_spec (update place s) (bound_update place s)) as [Hn _].
  rewrite Hn; [reflexivity|].
  destruct (update_effect place s) as (_ & Hl & _). rewrite Hl.
  apply forallb_forall. intros link Hin. apply list_elem_of_In in Hin.
  destruct (Hlinks link Hin) as [Hs Ht].
  destruct (Hp _ Hs) as ([x1 Hx1] & [y1 Hy1] & _).
  destruct (Hp _ Ht) as ([x2 Hx2] & [y2 Hy2] & _).
  unfold placedb. rewrite Hx1, Hy1, Hx2, Hy2. reflexivity.
Qed.

(** ** Ticking twice *)

Lemma drawn_again st (ls : list Line.t) (ds : list Link.t) :
  zip_with (drawn st) (zip_with (drawn st) ls ds) ds = zip_with (drawn st) ls ds.
Proof.
  revert ds. induction ls as [|l ls IH]; intros [|d ds]; simpl; try reflexivity.
  rewrite IH. reflexivity.
Qed.

Lemma moved_again st (gs : list NodeGroup.t) (ds : list Ref) :
  zip_with (moved st) (zip_with (moved st) gs ds) ds = zip_with (moved st) gs ds.
Proof.
  revert ds. induction gs as [|g gs IH]; intros [|d ds]; simpl; try reflexivity.
  rewrite IH. reflexivity.
Qed.

(** X13.  The tick callback only copies positions into the scene: when a
    tick has ended normally, a second tick with the nodes where they are
    ends normally too and changes nothing. *)
Theorem ticked_again_changes_nothing (s : State.t) :
  bound s -> fst (ticked s) = Normal ->
  ticked (snd (ticked s)) = ticked s.
Proof.
  intros Hb Hnormal.
  destruct (ticked_spec s Hb) as [Hn Ht].
  destruct (forallb (placedb (store s)) (links s)) eqn:E;
    [|rewrite (Ht eq_refl) in Hnormal; discriminate Hnormal].
  specialize (Hn eq_refl). rewrite Hn. simpl.
  set (s1 := set_groups _ _).
  assert (Hb1 : bound s1).
  { pose proof (bound_ticked s Hb) as H. rewrite Hn in H. exact H. }
  destruct (ticked_spec s1 Hb1) as [Hn1 _].
  rewrite Hn1 by exact E. unfold s1. simpl.
  rewrite drawn_again, moved_again. reflexivity.
Qed.
End PlacementProps.

Lemma update_places_the_nodes_witness :
  (forall link, link ∈ Viz.State.links Sample.linked ->
                Viz.Link.source link ∈ Viz.State.nodes Sample.linked /\
                Viz.Link.target link ∈ Viz.State.nodes Sample.linked) /\
  fst (Viz.ticked (Viz.update Sample.place Sample.linked)) = Viz.Normal.
Proof.
  assert (H : forall link, link ∈ Viz.State.links Sample.linked ->
                           Viz.Link.source link ∈ Viz.State.nodes Sample.linked /\
                           Viz.Link.target link ∈ Viz.State.nodes Sample.linked).
  { intros link Hin. vm_compute in Hin. apply list_elem_of_singleton in Hin. subst link.
    split; vm_compute; [left|right; left]. }
  split; [exact H|].
  exact (proj2 (update_places_the_nodes Sample.place Sample.linked) H).
Defined.


Lemma ticked_again_changes_nothing_witness :
  Scene.bound Sample.linked /\
  fst (Viz.ticked Sample.linked) = Viz.Normal /\
  Viz.ticked (snd (Viz.ticked Sample.linked)) = Viz.ticked Sample.linked.
Proof.
  assert (Hb : Scene.bound Sample.linked) by (split; vm_compute; reflexivity).
  assert (Hn : fst (Viz.ticked Sample.linked) = Viz.Normal) by (vm_compute; reflexivity).
  split; [exact Hb|]. split; [exact Hn|].
  exact (ticked_again_changes_nothing Sample.linked Hb Hn).
Defined.
